(** * NX_Templates server services: a shallow embedding and its properties

    The development follows the TypeScript sources under [src/server/services]
    (LootService, ResourceService and WorldService, NPCService,
    CombatService, MessageService, EventService and ValidationService,
    PlayerDataService and ConfigService).  Each service class becomes a
    module holding a record for the private fields of the class and one
    function per method, with the service state passed explicitly.

    Conventions shared by every module:
    - a TypeScript [number] is a rational [Q] (an integer-valued one is a [Z]
      where the code only ever produces integers); rounding, infinities and
      NaN of IEEE doubles are outside the model, except where a division by
      zero decides a branch, which is then written out; the literal 0.2 is
      the rational 1/5;
    - [Map<K, V>] is a [gmap K V]; arrays are lists, oldest element first;
    - [tick()] is an argument [now] of the method that reads the clock;
    - [math.random] reads an explicit stream of draws. *)

From Stdlib Require Import QArith Qround Lqa.
From stdpp Require Import gmap strings list fin_maps pretty.

(** ** Numbers *)

Module Num.

(** [math.max(a, b)] and [math.min(a, b)] of the Luau runtime. *)
Definition math_max (a b : Q) : Q := if Qle_bool a b then b else a.
Definition math_min (a b : Q) : Q := if Qle_bool a b then a else b.

(** [math.floor]. *)
Definition math_floor (x : Q) : Z := Qfloor x.

(** Comparisons as the code writes them. *)
Definition Qgeb (a b : Q) : bool := Qle_bool b a.
Definition Qgtb (a b : Q) : bool := negb (Qle_bool a b).

End Num.

(** ** Values of the host runtime *)

Module Roblox.

(** A connected player, as far as the services read it. *)
Record Player := { UserId : Z; Name : string }.

Record Vector3 := { v_X : Q; v_Y : Q; v_Z : Q }.

End Roblox.

(** ** Loops over a [Map] *)

Module Luau.

(** The loop [for (const [id, v] of m) { if (test(v)) out.push(id) }]:
    the keys whose value passes the test, in iteration order. *)
Definition keysWhere {K} `{Countable K} {V} (test : V → bool)
    (m : gmap K V) : list K :=
  (filter (λ kv, test kv.2 = true) (map_to_list m)).*1.

End Luau.

(** ** The random source

    [math.random()] returns the next draw of the stream, a number of the
    half-open unit interval; [math.random(m, n)] scales one draw to an integer
    of [m..n] and raises when the interval is empty.  A computation that reads
    the stream is a state-and-error monad over the position in the stream. *)

Module Rng.

Record t := mk { draws : nat → Q; pos : nat }.

Definition next (g : t) : Q * t :=
  (draws g (pos g), {| draws := draws g; pos := S (pos g) |}).

(** The draws a Luau runtime can produce. *)
Definition unit_draws (g : t) : Prop :=
  ∀ i, (0 <= draws g i)%Q ∧ (draws g i < 1)%Q.

Definition M (A : Type) : Type := t → option (A * t).

Definition ret {A} (a : A) : M A := λ g, Some (a, g).
Definition bind {A B} (m : M A) (k : A → M B) : M B :=
  λ g, match m g with
       | Some (a, g') => k a g'
       | None => None
       end.

Definition math_random : M Q := λ g, Some (next g).

Definition math_random_range (m n : Z) : M Z :=
  λ g, if (n <? m)%Z then None
       else let '(u, g') := next g in
            Some ((m + Qfloor (u * inject_Z (n - m + 1)))%Z, g').

End Rng.

#[global] Instance rng_ret : MRet Rng.M := @Rng.ret.
#[global] Instance rng_bind : MBind Rng.M := λ A B k m, Rng.bind m k.
#[global] Instance rng_fmap : FMap Rng.M :=
  λ A B f m, Rng.bind m (λ a, Rng.ret (f a)).

(** ** LootService *)

Module LootService.

(** The shapes of [shared/definitions/Loot], as the service reads them:
    [entry.drop], [entry.weight], [entry.quantity] (a number or a pair),
    [entry.unique] (an entry without the flag counts as not unique);
    [lootTable.entries], [lootTable.rolls], [lootTable.guaranteed]
    (optional).  The bounds handed to [math.random(m, n)] are integers. *)
Inductive QuantitySpec :=
| Scalar (q : Q)
| Range (lo hi : Z).

Record LootEntry := {
  drop : string;
  weight : Q;
  quantity : QuantitySpec;
  unique : bool
}.

Record GuaranteedDrop := {
  g_drop : string;
  g_quantity : QuantitySpec
}.

Record LootTableMeta := {
  entries : list LootEntry;
  rolls : Z * Z;
  guaranteed : option (list GuaranteedDrop)
}.

(** An element of the [results] array of [generateLootFromTable]. *)
Record LootResult := { r_drop : string; r_quantity : Z }.

#[global] Instance LootResult_eq_dec : EqDecision LootResult.
Proof. solve_decision. Defined.

(** [calculateQuantity(quantitySpec, multiplier)]. *)
Definition calculateQuantity (quantitySpec : QuantitySpec) (multiplier : Q)
  : Rng.M Z :=
  baseQuantity ← match quantitySpec with
                 | Scalar q => mret q
                 | Range lo hi => inject_Z <$> Rng.math_random_range lo hi
                 end;
  mret (Num.math_floor (baseQuantity * multiplier)).

(** The reducer of [lootTable.entries.reduce(...)]. *)
Definition totalWeight (lootTable : LootTableMeta) : Q :=
  fold_left (λ sum entry, (sum + weight entry)%Q) (entries lootTable) 0%Q.

(** The loop over [lootTable.guaranteed]. *)
Fixpoint addGuaranteed (gs : list GuaranteedDrop) (multiplier : Q)
    (results : list LootResult) : Rng.M (list LootResult) :=
  match gs with
  | [] => mret results
  | guaranteedDrop :: rest =>
      quantity ← calculateQuantity (g_quantity guaranteedDrop) multiplier;
      addGuaranteed rest multiplier
        (results ++ [{| r_drop := g_drop guaranteedDrop;
                        r_quantity := quantity |}])
  end.

(** The inner [for (const entry of lootTable.entries)] walk: the first
    entry at which [randomValue <= currentWeight] holds, if any. *)
Fixpoint selectEntry (randomValue currentWeight : Q)
    (es : list LootEntry) : option LootEntry :=
  match es with
  | [] => None
  | entry :: rest =>
      let currentWeight := (currentWeight + weight entry)%Q in
      if Qle_bool randomValue currentWeight then Some entry
      else selectEntry randomValue currentWeight rest
  end.

(** The body of the [if (randomValue <= currentWeight)] branch after the
    quantity is known: [results.find], then add to the found element, or
    push, or do nothing. *)
Definition mergeResult (results : list LootResult) (entry : LootEntry)
    (quantity : Z) : list LootResult :=
  match list_find (λ r, r_drop r = drop entry) results with
  | Some (i, existingResult) =>
      if negb (unique entry)
      then <[i := {| r_drop := r_drop existingResult;
                     r_quantity := (r_quantity existingResult + quantity)%Z |}]>
             results
      else results
  | None => results ++ [{| r_drop := drop entry; r_quantity := quantity |}]
  end.

(** One iteration of [for (let i = 0; i < rollCount; i++)]. *)
Definition rollOnce (lootTable : LootTableMeta) (multiplier : Q)
    (results : list LootResult) : Rng.M (list LootResult) :=
  u ← Rng.math_random;
  let randomValue := (u * totalWeight lootTable)%Q in
  match selectEntry randomValue 0%Q (entries lootTable) with
  | Some entry =>
      quantity ← calculateQuantity (quantity entry) multiplier;
      mret (mergeResult results entry quantity)
  | None => mret results
  end.

Fixpoint rollLoop (lootTable : LootTableMeta) (multiplier : Q)
    (rollCount : nat) (results : list LootResult)
  : Rng.M (list LootResult) :=
  match rollCount with
  | O => mret results
  | S n =>
      results' ← rollOnce lootTable multiplier results;
      rollLoop lootTable multiplier n results'
  end.

(** The guaranteed drops alone: the [if (lootTable.guaranteed)] block. *)
Definition guaranteedDrops (lootTable : LootTableMeta) (multiplier : Q)
  : Rng.M (list LootResult) :=
  match guaranteed lootTable with
  | Some gs => addGuaranteed gs multiplier []
  | None => mret []
  end.

(** [generateLootFromTable(lootTable, multiplier)]. *)
Definition generateLootFromTable (lootTable : LootTableMeta)
    (multiplier : Q) : Rng.M (list LootResult) :=
  let minRolls := fst (rolls lootTable) in
  let maxRolls := snd (rolls lootTable) in
  rollCount ← Rng.math_random_range minRolls maxRolls;
  results ← guaranteedDrops lootTable multiplier;
  rollLoop lootTable multiplier (Z.to_nat rollCount) results.

(** *** The drops in the world *)

Record LootDrop := {
  id : string;
  itemId : string;
  dropQuantity : Z;
  position : Roblox.Vector3;
  timestamp : Q;
  expiresAt : Q
}.

(** The fields of the service.  [lootModels] holds the ids that have a
    part [Loot_<id>] (and an animation connection) in the world. *)
Record t := {
  activeLootDrops : gmap string LootDrop;
  lootModels : gset string;
  nextLootId : N
}.

Definition LOOT_EXPIRE_TIME : Q := 60.

Definition empty : t :=
  {| activeLootDrops := ∅; lootModels := ∅; nextLootId := 1 |}.

Definition generateLootId (s : t) : string * t :=
  ("loot_" +:+ pretty (nextLootId s),
   {| activeLootDrops := activeLootDrops s; lootModels := lootModels s;
      nextLootId := (nextLootId s + 1)%N |}).

Definition createLootModel (s : t) (loot : LootDrop) : t :=
  {| activeLootDrops := activeLootDrops s;
     lootModels := {[id loot]} ∪ lootModels s;
     nextLootId := nextLootId s |}.

Definition removeLootModel (s : t) (lootId : string) : t :=
  {| activeLootDrops := activeLootDrops s;
     lootModels := lootModels s ∖ {[lootId]};
     nextLootId := nextLootId s |}.

Definition createLootDrop (s : t) (itemId : string) (quantity : Z)
    (position : Roblox.Vector3) (now : Q) : LootDrop * t :=
  let '(id, s1) := generateLootId s in
  let lootDrop :=
    {| id := id; itemId := itemId; dropQuantity := quantity;
       position := position; timestamp := now;
       expiresAt := (now + LOOT_EXPIRE_TIME)%Q |} in
  let s2 :=
    {| activeLootDrops := <[id := lootDrop]> (activeLootDrops s1);
       lootModels := lootModels s1; nextLootId := nextLootId s1 |} in
  (lootDrop, createLootModel s2 lootDrop).

Definition collectLoot (s : t) (lootId : string) : option LootDrop * t :=
  match activeLootDrops s !! lootId with
  | None => (None, s)
  | Some loot =>
      (Some loot,
       removeLootModel
         {| activeLootDrops := delete lootId (activeLootDrops s);
            lootModels := lootModels s; nextLootId := nextLootId s |}
         lootId)
  end.

Definition getActiveLootDrops (s : t) : gmap string LootDrop :=
  activeLootDrops s.

Definition cleanupExpiredLoot (s : t) (now : Q) : t :=
  let expiredLoot :=
    Luau.keysWhere (λ loot, Num.Qgeb now (expiresAt loot))
      (activeLootDrops s) in
  foldl (λ s id,
           removeLootModel
             {| activeLootDrops := delete id (activeLootDrops s);
                lootModels := lootModels s; nextLootId := nextLootId s |}
             id)
    s expiredLoot.

(** The loop of [dropLoot] over the generated loot. *)
Fixpoint createLootDrops (s : t) (generatedLoot : list LootResult)
    (position : Roblox.Vector3) (now : Q) : list LootDrop * t :=
  match generatedLoot with
  | [] => ([], s)
  | loot :: rest =>
      let '(drop, s1) :=
        createLootDrop s (r_drop loot) (r_quantity loot) position now in
      let '(lootDrops, s2) := createLootDrops s1 rest position now in
      (drop :: lootDrops, s2)
  end.

Section Definitions.

(** [LootTableMetaMap] of [shared/definitions/Loot]. *)
Variable LootTableMetaMap : string → option LootTableMeta.

Definition getLootTable (tableKey : string) : option LootTableMeta :=
  LootTableMetaMap tableKey.

(** [generateLoot(tableKey, multiplier)]: the pairs (itemId, quantity). *)
Definition generateLoot (tableKey : string) (multiplier : Q)
  : Rng.M (list (string * Z)) :=
  match getLootTable tableKey with
  | None => mret []
  | Some lootTable =>
      (λ items, (λ item, (r_drop item, r_quantity item)) <$> items)
        <$> generateLootFromTable lootTable multiplier
  end.

Definition dropLoot (s : t) (tableKey : string)
    (position : Roblox.Vector3) (multiplier : Q) (now : Q)
  : Rng.M (list LootDrop * t) :=
  match getLootTable tableKey with
  | None => mret ([], s)
  | Some lootTable =>
      generatedLoot ← generateLootFromTable lootTable multiplier;
      mret (createLootDrops s generatedLoot position now)
  end.

End Definitions.

(** The calls that reach the store of drops, one per step. *)
Inductive Call :=
| Create (itemId : string) (quantity : Z) (position : Roblox.Vector3)
    (now : Q)
| Collect (lootId : string)
| Sweep (now : Q).

Definition call (s : t) (c : Call) : t :=
  match c with
  | Create itemId quantity position now =>
      (createLootDrop s itemId quantity position now).2
  | Collect lootId => (collectLoot s lootId).2
  | Sweep now => cleanupExpiredLoot s now
  end.

Definition run (s : t) (cs : list Call) : t := foldl call s cs.

End LootService.

(** ** ResourceService *)

Module ResourceService.
Import Roblox.

Definition ResourceKey := string.

Record PlayerResources := {
  playerId : Z;
  resources : gmap string Q;
  maxResources : gmap string Q;
  lastUpdated : Q
}.

(** What the private handlers of the service are called with.  The calls
    of [handleResourceDepletion] and [handleLowResource] are the
    resource events of the service; its [print]s are left out. *)
Inductive ResourceEvent :=
| resourceDepleted (player : Z) (resourceKey : ResourceKey)
| resourceLow (player : Z) (resourceKey : ResourceKey).

#[global] Instance ResourceEvent_eq_dec : EqDecision ResourceEvent.
Proof. solve_decision. Defined.

(** The [playerResources] field, and the events raised so far. *)
Record t := {
  playerResources : gmap Z PlayerResources;
  events : list ResourceEvent
}.

Definition empty : t := {| playerResources := ∅; events := [] |}.

(** [a / b <= c] on doubles, for finite [a], [b] and [c]: a zero divisor
    gives NaN (never below anything) or an infinity of the sign of [a]. *)
Definition div_le (a b c : Q) : bool :=
  if Qeq_bool b 0 then Num.Qgtb 0 a
  else Qle_bool (a / b) c.

Section Definitions.

(** The tables of [shared/definitions/Resources]: the keys, the default
    (current, max) of a key, and the metadata of a key. *)
Variable RESOURCE_KEYS : list ResourceKey.
Variable DEFAULT_RESOURCES : ResourceKey → option (Q * Q).
Variable ResourceMeta : Type.
Variable ResourceMetaRecord : ResourceKey → option ResourceMeta.

(** The loop of [initializePlayerResources] over the keys. *)
Fixpoint initialResources (keys : list ResourceKey)
    (acc : gmap string Q * gmap string Q) : gmap string Q * gmap string Q :=
  match keys with
  | [] => acc
  | resourceKey :: rest =>
      initialResources rest
        match DEFAULT_RESOURCES resourceKey with
        | Some (current, max) =>
            (<[resourceKey := current]> acc.1, <[resourceKey := max]> acc.2)
        | None => acc
        end
  end.

Definition initializePlayerResources (s : t) (player : Player) (now : Q)
  : t :=
  let '(resources, maxResources) := initialResources RESOURCE_KEYS (∅, ∅) in
  let playerResourceData :=
    {| playerId := UserId player; resources := resources;
       maxResources := maxResources; lastUpdated := now |} in
  {| playerResources :=
       <[UserId player := playerResourceData]> (playerResources s);
     events := events s |}.

Definition getPlayerResource (s : t) (player : Player)
    (resourceKey : ResourceKey) : option Q :=
  playerData ← playerResources s !! UserId player;
  resources playerData !! resourceKey.

Definition getPlayerMaxResource (s : t) (player : Player)
    (resourceKey : ResourceKey) : option Q :=
  playerData ← playerResources s !! UserId player;
  maxResources playerData !! resourceKey.

Definition getResourceMeta (resourceKey : ResourceKey)
  : option ResourceMeta :=
  ResourceMetaRecord resourceKey.

Definition handleResourceDepletion (s : t) (player : Player)
    (resourceKey : ResourceKey) : t :=
  {| playerResources := playerResources s;
     events := events s ++ [resourceDepleted (UserId player) resourceKey] |}.

Definition handleLowResource (s : t) (player : Player)
    (resourceKey : ResourceKey) : t :=
  {| playerResources := playerResources s;
     events := events s ++ [resourceLow (UserId player) resourceKey] |}.

Definition onResourceChanged (s : t) (player : Player)
    (resourceKey : ResourceKey) (newValue maxValue : Q) : t :=
  match getResourceMeta resourceKey with
  | Some meta =>
      let s1 := if Qle_bool newValue 0
                then handleResourceDepletion s player resourceKey
                else s in
      if div_le newValue maxValue (1 # 5)
      then handleLowResource s1 player resourceKey
      else s1
  | None => s
  end.

Definition setPlayerResource (s : t) (player : Player)
    (resourceKey : ResourceKey) (value : Q) (now : Q) : bool * t :=
  match playerResources s !! UserId player with
  | None => (false, s)
  | Some playerData =>
      match maxResources playerData !! resourceKey with
      | None => (false, s)
      | Some maxValue =>
          let clampedValue :=
            Num.math_max 0 (Num.math_min value maxValue) in
          let newPlayerData :=
            {| playerId := playerId playerData;
               resources :=
                 <[resourceKey := clampedValue]> (resources playerData);
               maxResources := maxResources playerData;
               lastUpdated := now |} in
          let s' :=
            {| playerResources :=
                 <[UserId player := newPlayerData]> (playerResources s);
               events := events s |} in
          (true, onResourceChanged s' player resourceKey clampedValue
                   maxValue)
      end
  end.

Definition modifyPlayerResource (s : t) (player : Player)
    (resourceKey : ResourceKey) (delta : Q) (now : Q) : bool * t :=
  match getPlayerResource s player resourceKey with
  | None => (false, s)
  | Some currentValue =>
      setPlayerResource s player resourceKey (currentValue + delta) now
  end.

Definition setPlayerMaxResource (s : t) (player : Player)
    (resourceKey : ResourceKey) (maxValue : Q) (now : Q) : bool * t :=
  match playerResources s !! UserId player with
  | None => (false, s)
  | Some playerData =>
      let maxResources' :=
        <[resourceKey := maxValue]> (maxResources playerData) in
      let resources' :=
        match resources playerData !! resourceKey with
        | Some currentValue =>
            if Num.Qgtb currentValue maxValue
            then <[resourceKey := maxValue]> (resources playerData)
            else resources playerData
        | None => resources playerData
        end in
      let newPlayerData :=
        {| playerId := playerId playerData; resources := resources';
           maxResources := maxResources'; lastUpdated := now |} in
      (true,
       {| playerResources :=
            <[UserId player := newPlayerData]> (playerResources s);
          events := events s |})
  end.

Definition hasEnoughResource (s : t) (player : Player)
    (resourceKey : ResourceKey) (requiredAmount : Q) : bool :=
  match getPlayerResource s player resourceKey with
  | Some currentAmount => Num.Qgeb currentAmount requiredAmount
  | None => false
  end.

Definition consumeResource (s : t) (player : Player)
    (resourceKey : ResourceKey) (amount : Q) (now : Q) : bool * t :=
  if hasEnoughResource s player resourceKey amount
  then modifyPlayerResource s player resourceKey (- amount) now
  else (false, s).

Definition restoreResource (s : t) (player : Player)
    (resourceKey : ResourceKey) (now : Q) : bool * t :=
  match getPlayerMaxResource s player resourceKey with
  | None => (false, s)
  | Some maxValue => setPlayerResource s player resourceKey maxValue now
  end.

Definition cleanupPlayer (s : t) (player : Player) : t :=
  {| playerResources := delete (UserId player) (playerResources s);
     events := events s |}.

(** The five mutating calls of the ledger, as one request type. *)
Inductive Mutation :=
| Set_ (player : Player) (resourceKey : ResourceKey) (value : Q)
| Modify (player : Player) (resourceKey : ResourceKey) (delta : Q)
| Consume (player : Player) (resourceKey : ResourceKey) (amount : Q)
| RestoreToMax (player : Player) (resourceKey : ResourceKey)
| SetMax (player : Player) (resourceKey : ResourceKey) (maxValue : Q).

Definition mutate (s : t) (m : Mutation) (now : Q) : bool * t :=
  match m with
  | Set_ player resourceKey value =>
      setPlayerResource s player resourceKey value now
  | Modify player resourceKey delta =>
      modifyPlayerResource s player resourceKey delta now
  | Consume player resourceKey amount =>
      consumeResource s player resourceKey amount now
  | RestoreToMax player resourceKey =>
      restoreResource s player resourceKey now
  | SetMax player resourceKey maxValue =>
      setPlayerMaxResource s player resourceKey maxValue now
  end.

End Definitions.

End ResourceService.

(** ** NPCService *)

Module NPCService.
Import Roblox.

Definition NPCKey := string.
Definition LootTableKey := string.

(** What the service reads of an [NPCMeta]: [meta.baseStats.maxHealth]
    and the optional [meta.lootTable]. *)
Record NPCMeta := {
  baseStats_maxHealth : Q;
  lootTable : option LootTableKey
}.

(** The [model] of an NPC is the handle the world gave for its clone. *)
Record SpawnedNPC := {
  id : string;
  npcKey : NPCKey;
  model : nat;
  spawned : Q;
  health : Q;
  maxHealth : Q;
  isAlive : bool;
  position : Vector3
}.

(** What the service asks of the world and prints about loot. *)
Inductive Effect :=
| modelDestroyed (model : nat)
| lootDropped (npcKey : NPCKey) (lootTable : LootTableKey).

(** The fields of the service; [waiting] lists the NPCs whose
    [handleNPCDeath] is suspended in [task.wait(5)], and [effects] what
    was asked of the world so far. *)
Record t := {
  spawnedNPCs : gmap string SpawnedNPC;
  nextNPCId : N;
  waiting : list string;
  effects : list Effect
}.

Definition empty : t :=
  {| spawnedNPCs := ∅; nextNPCId := 1; waiting := []; effects := [] |}.

(** How a call of [damageNPC] leaves the caller: returned, or suspended
    inside [handleNPCDeath] until the wait is over. *)
Inductive Outcome :=
| Returned (result : bool)
| Suspended (npcId : string).

Section Definitions.

(** [NPCMetaMap] of [shared/definitions/NPC]. *)
Variable NPCMetaMap : NPCKey → option NPCMeta.

Definition getNPCMeta (npcKey : NPCKey) : option NPCMeta :=
  NPCMetaMap npcKey.

Definition generateNPCId (s : t) : string * t :=
  ("npc_" +:+ pretty (nextNPCId s),
   {| spawnedNPCs := spawnedNPCs s; nextNPCId := (nextNPCId s + 1)%N;
      waiting := waiting s; effects := effects s |}).

(** [spawnNPC(npcKey, position)]; [created] is what [createNPCModel]
    got from the world, nothing when the clone failed. *)
Definition spawnNPC (s : t) (npcKey : NPCKey) (position : Vector3)
    (created : option nat) (now : Q) : option SpawnedNPC * t :=
  match getNPCMeta npcKey with
  | None => (None, s)
  | Some meta =>
      match created with
      | None => (None, s)
      | Some model =>
          let '(id, s1) := generateNPCId s in
          let spawnedNPC :=
            {| id := id; npcKey := npcKey; model := model; spawned := now;
               health := baseStats_maxHealth meta;
               maxHealth := baseStats_maxHealth meta;
               isAlive := true; position := position |} in
          (Some spawnedNPC,
           {| spawnedNPCs := <[id := spawnedNPC]> (spawnedNPCs s1);
              nextNPCId := nextNPCId s1; waiting := waiting s1;
              effects := effects s1 |})
      end
  end.

Definition despawnNPC (s : t) (npcId : string) : bool * t :=
  match spawnedNPCs s !! npcId with
  | None => (false, s)
  | Some npc =>
      (true,
       {| spawnedNPCs := delete npcId (spawnedNPCs s);
          nextNPCId := nextNPCId s; waiting := waiting s;
          effects := effects s ++ [modelDestroyed (model npc)] |})
  end.

Definition getSpawnedNPC (s : t) (npcId : string) : option SpawnedNPC :=
  spawnedNPCs s !! npcId.

(** [dropLoot(npc, lootTable)]: a placeholder that prints. *)
Definition dropLoot (s : t) (npc : SpawnedNPC) (lootTable : LootTableKey)
  : t :=
  {| spawnedNPCs := spawnedNPCs s; nextNPCId := nextNPCId s;
     waiting := waiting s;
     effects := effects s ++ [lootDropped (npcKey npc) lootTable] |}.

(** [handleNPCDeath(npc)] up to its [task.wait(5)]: the flag of the
    stored NPC is cleared, loot is dropped, and the call is suspended.
    [npc] is the object stored under the key [ref]; it is updated in
    place. *)
Definition handleNPCDeath (s : t) (ref : string) (npc : SpawnedNPC) : t :=
  let dead :=
    {| id := id npc; npcKey := npcKey npc; model := model npc;
       spawned := spawned npc; health := health npc;
       maxHealth := maxHealth npc; isAlive := false;
       position := position npc |} in
  let s1 :=
    {| spawnedNPCs := <[ref := dead]> (spawnedNPCs s);
       nextNPCId := nextNPCId s; waiting := waiting s;
       effects := effects s |} in
  let s2 :=
    match getNPCMeta (npcKey npc) with
    | Some meta =>
        match lootTable meta with
        | Some table => dropLoot s1 dead table
        | None => s1
        end
    | None => s1
    end in
  {| spawnedNPCs := spawnedNPCs s2; nextNPCId := nextNPCId s2;
     waiting := waiting s2 ++ [id npc]; effects := effects s2 |}.

(** The rest of [handleNPCDeath] once the wait is over:
    [this.despawnNPC(npc.id)], after which [damageNPC] returns true. *)
Definition resumeNPCDeath (s : t) (npcId : string) : bool * t :=
  let s1 := (despawnNPC s npcId).2 in
  (true,
   {| spawnedNPCs := spawnedNPCs s1; nextNPCId := nextNPCId s1;
      waiting := filter (λ w, w ≠ npcId) (waiting s1);
      effects := effects s1 |}).

Definition damageNPC (s : t) (npcId : string) (damage : Q)
  : Outcome * t :=
  match spawnedNPCs s !! npcId with
  | None => (Returned false, s)
  | Some npc =>
      if negb (isAlive npc) then (Returned false, s)
      else
        let npc' :=
          {| id := id npc; npcKey := npcKey npc; model := model npc;
             spawned := spawned npc;
             health := Num.math_max 0 (health npc - damage);
             maxHealth := maxHealth npc; isAlive := isAlive npc;
             position := position npc |} in
        let s1 :=
          {| spawnedNPCs := <[npcId := npc']> (spawnedNPCs s);
             nextNPCId := nextNPCId s; waiting := waiting s;
             effects := effects s |} in
        if Qle_bool (health npc') 0
        then (Suspended (id npc'), handleNPCDeath s1 npcId npc')
        else (Returned true, s1)
  end.

(** The calls that drive the service, one per step. *)
Inductive Call :=
| Spawn (npcKey : NPCKey) (position : Vector3) (created : option nat)
    (now : Q)
| Despawn (npcId : string)
| Damage (npcId : string) (damage : Q)
| Resume (npcId : string).

Definition call (s : t) (c : Call) : t :=
  match c with
  | Spawn npcKey position created now =>
      (spawnNPC s npcKey position created now).2
  | Despawn npcId => (despawnNPC s npcId).2
  | Damage npcId damage => (damageNPC s npcId damage).2
  | Resume npcId =>
      if bool_decide (npcId ∈ waiting s)
      then (resumeNPCDeath s npcId).2 else s
  end.

Definition run (s : t) (cs : list Call) : t := foldl call s cs.

End Definitions.

End NPCService.

(** ** MessageService *)

Module MessageService.
Import Roblox.

Definition SeverityKey := string.
Definition Color3 : Type := Z * Z * Z.

(** [MessageShape] of [shared/definitions/Message], by the fields that
    [createMessage] fills in. *)
Record MessageShape := {
  id : string;
  timestamp : Q;
  title : string;
  content : string;
  severity : SeverityKey;
  textColor : Color3
}.

(** [QueuedMessage extends MessageShape]: the message and two fields. *)
Record QueuedMessage := {
  message : MessageShape;
  recipientId : option Z;
  expiresAt : Q
}.

(** The fields of the service, and the number of ids asked of
    [generateUniqueId] so far. *)
Record t := {
  messageQueue : gmap string QueuedMessage;
  playerMessageHistory : gmap Z (list MessageShape);
  idsIssued : N
}.

Definition MAX_HISTORY_PER_PLAYER : nat := 50.
Definition MESSAGE_EXPIRE_TIME : Q := 300.

Definition empty : t :=
  {| messageQueue := ∅; playerMessageHistory := ∅; idsIssued := 0 |}.

(** [history.shift()]. *)
Definition shift {A} (l : list A) : list A := tail l.

Definition addToPlayerHistory (s : t) (playerId : Z)
    (message : MessageShape) : t :=
  let history := default [] (playerMessageHistory s !! playerId) in
  let history := history ++ [message] in
  let history :=
    if decide (MAX_HISTORY_PER_PLAYER < length history)
    then let itemsToRemove := length history - MAX_HISTORY_PER_PLAYER in
         Nat.iter itemsToRemove shift history
    else history in
  {| messageQueue := messageQueue s;
     playerMessageHistory := <[playerId := history]> (playerMessageHistory s);
     idsIssued := idsIssued s |}.

Definition getPlayerMessageHistory (s : t) (player : Player)
  : list MessageShape :=
  default [] (playerMessageHistory s !! UserId player).

Definition clearPlayerMessageHistory (s : t) (player : Player) : t :=
  {| messageQueue := messageQueue s;
     playerMessageHistory := delete (UserId player) (playerMessageHistory s);
     idsIssued := idsIssued s |}.

Definition getMessage (s : t) (messageId : string) : option QueuedMessage :=
  messageQueue s !! messageId.

Definition cancelMessage (s : t) (messageId : string) : bool * t :=
  (bool_decide (is_Some (messageQueue s !! messageId)),
   {| messageQueue := delete messageId (messageQueue s);
      playerMessageHistory := playerMessageHistory s;
      idsIssued := idsIssued s |}).

Definition cleanupPlayer (s : t) (player : Player) : t :=
  let messagesToRemove :=
    Luau.keysWhere
      (λ message, bool_decide (recipientId message = Some (UserId player)))
      (messageQueue s) in
  {| messageQueue :=
       foldl (λ queue id, delete id queue) (messageQueue s) messagesToRemove;
     playerMessageHistory := delete (UserId player) (playerMessageHistory s);
     idsIssued := idsIssued s |}.

Definition cleanupExpiredMessages (s : t) (now : Q) : t :=
  let expiredMessages :=
    Luau.keysWhere (λ message, Num.Qgeb now (expiresAt message))
      (messageQueue s) in
  {| messageQueue :=
       foldl (λ queue id, delete id queue) (messageQueue s) expiredMessages;
     playerMessageHistory := playerMessageHistory s;
     idsIssued := idsIssued s |}.

Section Definitions.

(** [generateUniqueId] of [shared/helpers], as a function of the number
    of ids it has issued, and the text colours of [MessageMetaRecord]
    of [shared/definitions/Message]. *)
Variable generateUniqueId : N → string.
Variable MessageMetaRecord : SeverityKey → option Color3.

Definition createMessage (s : t) (content title : string)
    (severity : SeverityKey) (now : Q) : MessageShape * t :=
  ({| id := generateUniqueId (idsIssued s); timestamp := now;
      title := title; content := content; severity := severity;
      textColor := default (255, 255, 255)%Z (MessageMetaRecord severity) |},
   {| messageQueue := messageQueue s;
      playerMessageHistory := playerMessageHistory s;
      idsIssued := (idsIssued s + 1)%N |}).

Definition sendMessageToPlayer (s : t) (player : Player)
    (content title : string) (severity : SeverityKey) (now : Q)
  : string * t :=
  let '(message, s1) := createMessage s content title severity now in
  let queuedMessage :=
    {| message := message; recipientId := Some (UserId player);
       expiresAt := (now + MESSAGE_EXPIRE_TIME)%Q |} in
  let s2 :=
    {| messageQueue := <[id message := queuedMessage]> (messageQueue s1);
       playerMessageHistory := playerMessageHistory s1;
       idsIssued := idsIssued s1 |} in
  (id message, addToPlayerHistory s2 (UserId player) message).

(** [connected] is what [Players.GetPlayers()] returns. *)
Definition broadcastMessage (s : t) (connected : list Player)
    (content title : string) (severity : SeverityKey) (now : Q)
  : string * t :=
  let '(message, s1) := createMessage s content title severity now in
  let queuedMessage :=
    {| message := message; recipientId := None;
       expiresAt := (now + MESSAGE_EXPIRE_TIME)%Q |} in
  let s2 :=
    {| messageQueue := <[id message := queuedMessage]> (messageQueue s1);
       playerMessageHistory := playerMessageHistory s1;
       idsIssued := idsIssued s1 |} in
  (id message,
   foldl (λ s player, addToPlayerHistory s (UserId player) message)
     s2 connected).

Fixpoint sendMessageToPlayers (s : t) (players : list Player)
    (content title : string) (severity : SeverityKey) (now : Q)
  : list string * t :=
  match players with
  | [] => ([], s)
  | player :: rest =>
      let '(messageId, s1) :=
        sendMessageToPlayer s player content title severity now in
      let '(messageIds, s2) :=
        sendMessageToPlayers s1 rest content title severity now in
      (messageId :: messageIds, s2)
  end.

Inductive NotificationType :=
| level_up | achievement | warning | error | welcome.

(** [customMessage || text]: an absent or empty custom message gives way
    to the standard text. *)
Definition orElse (customMessage : option string) (text : string) : string :=
  match customMessage with
  | Some custom => if decide (custom = "") then text else custom
  | None => text
  end.

Definition sendSystemNotification (s : t) (player : Player)
    (notificationType : NotificationType) (customMessage : option string)
    (now : Q) : string * t :=
  let '(content, title, severity) :=
    match notificationType with
    | level_up =>
        (orElse customMessage "Congratulations! You've leveled up!",
         "Level Up!", "success")
    | achievement =>
        (orElse customMessage "Achievement unlocked!", "Achievement",
         "success")
    | warning =>
        (orElse customMessage "Warning: Something requires your attention.",
         "Warning", "warning")
    | error =>
        (orElse customMessage "An error has occurred.", "Error", "error")
    | welcome =>
        (orElse customMessage
           ("Welcome to the game, " +:+ Name player +:+ "!"),
         "Welcome", "info")
    end in
  sendMessageToPlayer s player content title severity now.

(** The calls that reach the queue and the histories, one per step. *)
Inductive Call :=
| SendToPlayer (player : Player) (content title : string)
    (severity : SeverityKey) (now : Q)
| Broadcast (connected : list Player) (content title : string)
    (severity : SeverityKey) (now : Q)
| Cancel (messageId : string)
| ClearHistory (player : Player)
| CleanupPlayer (player : Player)
| Sweep (now : Q).

Definition call (s : t) (c : Call) : t :=
  match c with
  | SendToPlayer player content title severity now =>
      (sendMessageToPlayer s player content title severity now).2
  | Broadcast connected content title severity now =>
      (broadcastMessage s connected content title severity now).2
  | Cancel messageId => (cancelMessage s messageId).2
  | ClearHistory player => clearPlayerMessageHistory s player
  | CleanupPlayer player => cleanupPlayer s player
  | Sweep now => cleanupExpiredMessages s now
  end.

Definition run (s : t) (cs : list Call) : t := foldl call s cs.

End Definitions.

End MessageService.

(** ** EventService

    A listener is a function value.  The service keeps it in the array of
    its topic and [off] finds it there by identity, so the model keeps the
    identity ([handle]) in the array; what a call of the function does is
    given by [behaviour], the code of the program's function values.  A
    call receives the payload and may change everything a function can
    reach: the rest of the program (the [World]), the console, and the
    service itself, on which it may call [on], [off], [fire] and
    [clearHistory].  A call returns or throws; a listener that never
    returns is outside the model. *)

Module EventService.

Inductive Completion :=
| Normal
| Throws (error : string).

Inductive Result (A : Type) :=
| Ok (a : A)
| Err (error : string).
Arguments Ok {A} a.
Arguments Err {A} error.

Definition MAX_HISTORY : nat := 1000.

Record EventCallback := { handle : nat }.

Section Definitions.

(** The payload of an event, and what listeners act on besides the
    service. *)
Variable Data : Type.
Variable World : Type.

Record GameEvent := {
  name : string;
  timestamp : Q;
  data : Data
}.

Record t := {
  eventListeners : gmap string (list EventCallback);
  eventHistory : list GameEvent
}.

Definition empty : t := {| eventListeners := ∅; eventHistory := [] |}.

(** What a call into the runtime can touch: the service, the world of
    the listeners and the lines written by [warn]. *)
Record Env := {
  service : t;
  world : World;
  console : list string
}.

(** The code of the function values, by identity. *)
Variable behaviour : nat → Data → Env → Completion * Env.

(** A computation that may throw; it gives nothing when the steps it was
    allowed (its fuel) do not suffice. *)
Definition Eff (A : Type) : Type := Env → option (Result A * Env).

Definition ret {A} (a : A) : Eff A := λ e, Some (Ok a, e).

Definition bind {A B} (m : Eff A) (k : A → Eff B) : Eff B :=
  λ e, match m e with
       | Some (Ok a, e') => k a e'
       | Some (Err error, e') => Some (Err error, e')
       | None => None
       end.

(** [try { m } catch (error) { handler(error) }]. *)
Definition try_catch {A} (m : Eff A) (handler : string → Eff A) : Eff A :=
  λ e, match m e with
       | Some (Ok a, e') => Some (Ok a, e')
       | Some (Err error, e') => handler error e'
       | None => None
       end.

Definition warn (line : string) : Eff unit :=
  λ e, Some (Ok tt, {| service := service e; world := world e;
                       console := console e ++ [line] |}).

(** [listener(data)]. *)
Definition callListener (listener : EventCallback) (d : Data) : Eff unit :=
  λ e, let '(completion, e') := behaviour (handle listener) d e in
       match completion with
       | Normal => Some (Ok tt, e')
       | Throws error => Some (Err error, e')
       end.

(** [on(eventName, callback)]. *)
Definition on (s : t) (eventName : string) (callback : EventCallback) : t :=
  let listeners := default [] (eventListeners s !! eventName) in
  {| eventListeners :=
       <[eventName := listeners ++ [callback]]> (eventListeners s);
     eventHistory := eventHistory s |}.

(** [listeners.indexOf(callback)]. *)
Definition indexOf (listeners : list EventCallback)
    (callback : EventCallback) : option nat :=
  fst <$> list_find (λ l, handle l = handle callback) listeners.

(** [off(eventName, callback)]. *)
Definition off (s : t) (eventName : string) (callback : EventCallback)
  : t :=
  match eventListeners s !! eventName with
  | None => s
  | Some listeners =>
      match indexOf listeners callback with
      | Some index =>
          {| eventListeners :=
               <[eventName := delete index listeners]> (eventListeners s);
             eventHistory := eventHistory s |}
      | None => s
      end
  end.

(** The loop [for (const listener of listeners)] of [fire], from the
    position [index] on.  [listeners] is the array of the topic itself,
    which [on] and [off] change in place, so each step reads the array as
    it is then: after a removal at or before the current position the
    elements behind it have moved down by one, and an element added at the
    end is reached in its turn.  The loop ends at the first position
    beyond the array.  [called] lists the listeners called so far, each
    with the payload it received; it is what the loop returns, for the
    record. *)
Fixpoint dispatch (fuel : nat) (eventName : string) (index : nat)
    (d : Data) (called : list (nat * Data)) : Eff (list (nat * Data)) :=
  λ e,
    match eventListeners (service e) !! eventName
          ≫= (λ listeners, listeners !! index) with
    | None => ret called e
    | Some listener =>
        match fuel with
        | O => None
        | S fuel =>
            bind
              (try_catch (callListener listener d)
                 (λ error,
                    warn ("EventService: Error in event listener for "
                          +:+ eventName +:+ ": " +:+ error)))
              (λ _, dispatch fuel eventName (S index) d
                      (called ++ [(handle listener, d)]))
              e
        end
    end.

(** [fire(eventName, data)]; it returns the listeners that its loop
    called. *)
Definition fire (fuel : nat) (eventName : string) (d : Data) (now : Q)
  : Eff (list (nat * Data)) :=
  λ e,
    let event := {| name := eventName; timestamp := now; data := d |} in
    let history := eventHistory (service e) ++ [event] in
    let history :=
      if decide (MAX_HISTORY < length history) then tail history
      else history in
    let e' :=
      {| service := {| eventListeners := eventListeners (service e);
                       eventHistory := history |};
         world := world e; console := console e |} in
    match eventListeners (service e') !! eventName with
    | Some listeners => dispatch fuel eventName 0 d [] e'
    | None => ret [] e'
    end.

(** [getEventHistory(eventName?)]. *)
Definition getEventHistory (s : t) (eventName : option string)
  : list GameEvent :=
  match eventName with
  | Some n =>
      if decide (n = "") then eventHistory s
      else filter (λ event, name event = n) (eventHistory s)
  | None => eventHistory s
  end.

Definition clearHistory (s : t) : t :=
  {| eventListeners := eventListeners s; eventHistory := [] |}.

End Definitions.

Arguments eventListeners {Data} _.
Arguments eventHistory {Data} _.
Arguments service {Data World} _.
Arguments world {Data World} _.
Arguments console {Data World} _.
Arguments name {Data} _.
Arguments timestamp {Data} _.
Arguments data {Data} _.

End EventService.

(** ** PlayerDataService

    The data store is the persistence collaborator: a map from keys to the
    profiles written to it.  A request to it is served or fails, as the
    argument [reply] of the method says. *)

Module PlayerDataService.
Import Roblox.

Record InventoryItem := { itemId : string; quantity : Q }.

Record PlayerProfile := {
  playerId : Z;
  playerName : string;
  level : Q;
  experience : Q;
  currency : gmap string Q;
  inventory : list InventoryItem;
  settings : gmap string string;
  lastLogin : Q;
  totalPlayTime : Q
}.

Inductive Reply :=
| Served
| Failed (error : string).

Record t := {
  dataStore : gmap string PlayerProfile;
  playerProfiles : gmap Z PlayerProfile;
  sessionStartTimes : gmap Z Q
}.

Definition empty : t :=
  {| dataStore := ∅; playerProfiles := ∅; sessionStartTimes := ∅ |}.

(** [`Player_${player.UserId}`]. *)
Definition profileKey (player : Player) : string :=
  "Player_" +:+ pretty (UserId player).

Definition createDefaultProfile (player : Player) (now : Q) : PlayerProfile :=
  {| playerId := UserId player;
     playerName := Name player;
     level := 1;
     experience := 0;
     currency := {["gold" := 100%Q; "gems" := 10%Q]};
     inventory := [];
     settings := ∅;
     lastLogin := now;
     totalPlayTime := 0 |}.

Definition withLastLogin (profile : PlayerProfile) (now : Q)
  : PlayerProfile :=
  {| playerId := playerId profile; playerName := playerName profile;
     level := level profile; experience := experience profile;
     currency := currency profile; inventory := inventory profile;
     settings := settings profile; lastLogin := now;
     totalPlayTime := totalPlayTime profile |}.

Definition loadPlayerData (s : t) (player : Player) (now : Q)
    (reply : Reply) : option PlayerProfile * t :=
  match reply with
  | Failed error => (None, s)
  | Served =>
      let savedData := dataStore s !! profileKey player in
      let profile :=
        match savedData with
        | Some saved => withLastLogin saved now
        | None => createDefaultProfile player now
        end in
      (Some profile,
       {| dataStore := dataStore s;
          playerProfiles := <[UserId player := profile]> (playerProfiles s);
          sessionStartTimes :=
            <[UserId player := now]> (sessionStartTimes s) |})
  end.

(** [updatePlayTime(player)]; a session start of 0 counts as none, as
    the test [profile && sessionStart] has it. *)
Definition updatePlayTime (s : t) (player : Player) (now : Q) : t :=
  match playerProfiles s !! UserId player,
        sessionStartTimes s !! UserId player with
  | Some profile, Some sessionStart =>
      if Qeq_bool sessionStart 0 then s
      else
        let sessionTime := (now - sessionStart)%Q in
        let profile' :=
          {| playerId := playerId profile;
             playerName := playerName profile;
             level := level profile; experience := experience profile;
             currency := currency profile; inventory := inventory profile;
             settings := settings profile; lastLogin := lastLogin profile;
             totalPlayTime := (totalPlayTime profile + sessionTime)%Q |} in
        {| dataStore := dataStore s;
           playerProfiles :=
             <[UserId player := profile']> (playerProfiles s);
           sessionStartTimes :=
             <[UserId player := now]> (sessionStartTimes s) |}
  | _, _ => s
  end.

Definition savePlayerData (s : t) (player : Player) (now : Q)
    (reply : Reply) : bool * t :=
  match playerProfiles s !! UserId player with
  | None => (false, s)
  | Some _ =>
      let s1 := updatePlayTime s player now in
      match reply, playerProfiles s1 !! UserId player with
      | Served, Some profile =>
          (true,
           {| dataStore := <[profileKey player := profile]> (dataStore s1);
              playerProfiles := playerProfiles s1;
              sessionStartTimes := sessionStartTimes s1 |})
      | _, _ => (false, s1)
      end
  end.

Definition getPlayerProfile (s : t) (player : Player)
  : option PlayerProfile :=
  playerProfiles s !! UserId player.

Definition modifyPlayerCurrency (s : t) (player : Player)
    (currencyType : string) (amount : Q) : bool * t :=
  match playerProfiles s !! UserId player with
  | None => (false, s)
  | Some profile =>
      let current := default 0%Q (currency profile !! currencyType) in
      let profile' :=
        {| playerId := playerId profile; playerName := playerName profile;
           level := level profile; experience := experience profile;
           currency :=
             <[currencyType := Num.math_max 0 (current + amount)]>
               (currency profile);
           inventory := inventory profile; settings := settings profile;
           lastLogin := lastLogin profile;
           totalPlayTime := totalPlayTime profile |} in
      (true,
       {| dataStore := dataStore s;
          playerProfiles := <[UserId player := profile']> (playerProfiles s);
          sessionStartTimes := sessionStartTimes s |})
  end.

Definition hasEnoughCurrency (s : t) (player : Player)
    (currencyType : string) (amount : Q) : bool :=
  match playerProfiles s !! UserId player with
  | None => false
  | Some profile =>
      Num.Qgeb (default 0%Q (currency profile !! currencyType)) amount
  end.

End PlayerDataService.

(** ** CombatService *)

Module CombatService.

Record AttackerStats := { attack : Q }.
Record TargetStats := { defense : Q }.

(** [calculateDamage(attackerStats, targetStats)]. *)
Definition calculateDamage (attackerStats : AttackerStats)
    (targetStats : TargetStats) : Q :=
  let baseDamage := attack attackerStats in
  let defense := defense targetStats in
  let finalDamage := Num.math_max 1 (baseDamage - defense) in
  finalDamage.

(** [applyDamage(targetId, damage)]: prints and reports success. *)
Definition applyDamage (targetId : string) (damage : Q) : bool := true.

(** [checkHit(accuracy)]. *)
Definition checkHit (accuracy : Q) : Rng.M bool :=
  u ← Rng.math_random;
  mret (Qle_bool u accuracy).

End CombatService.

(** ** WorldService *)

Module WorldService.
Import Roblox.

Record Bounds := { min : Vector3; max : Vector3 }.

Record SpawnRule := { npcKey : string; spawnRate : Q; maxCount : Q }.

Record WorldZone := {
  id : string;
  name : string;
  bounds : Bounds;
  level : Q;
  spawns : list SpawnRule
}.

Record t := { activeZones : gmap string WorldZone }.

Definition empty : t := {| activeZones := ∅ |}.

(** The test of [getZoneAtPosition] on one zone. *)
Definition contains (zone : WorldZone) (position : Vector3) : bool :=
  let min := min (bounds zone) in
  let max := max (bounds zone) in
  Num.Qgeb (v_X position) (v_X min) && Qle_bool (v_X position) (v_X max)
  && Num.Qgeb (v_Y position) (v_Y min) && Qle_bool (v_Y position) (v_Y max)
  && Num.Qgeb (v_Z position) (v_Z min) && Qle_bool (v_Z position) (v_Z max).

(** [getZoneAtPosition(position)]: the first zone, in the iteration order
    of the map, that contains the position. *)
Definition getZoneAtPosition (s : t) (position : Vector3)
  : option WorldZone :=
  snd <$> List.find (λ kv, contains kv.2 position)
            (map_to_list (activeZones s)).

Definition registerZone (s : t) (zone : WorldZone) : t :=
  {| activeZones := <[id zone := zone]> (activeZones s) |}.

End WorldService.

(** ** ValidationService

    Strings are sequences of bytes: [s.size()] is their number,
    [s.sub(i, i)] the byte at position [i], [s.lower()] maps the bytes
    [A]..[Z] to [a]..[z], and [s.find(word)] with a word of plain letters
    looks for the word as a substring. *)

Module ValidationService.

Record ValidationResult := {
  valid : bool;
  reason : option string;
  filteredMessage : option string
}.

Definition accept : ValidationResult :=
  {| valid := true; reason := None; filteredMessage := None |}.

Definition reject (why : string) : ValidationResult :=
  {| valid := false; reason := Some why; filteredMessage := None |}.

(** One byte of [string.lower]. *)
Definition lowerAscii (c : Ascii.ascii) : Ascii.ascii :=
  let n := Ascii.nat_of_ascii c in
  if (65 <=? n) && (n <=? 90) then Ascii.ascii_of_nat (n + 32) else c.

Fixpoint lower (s : string) : string :=
  match s with
  | EmptyString => EmptyString
  | String c rest => String (lowerAscii c) (lower rest)
  end.

(** [s.find(word)[0]] as a test: the word occurs in [s]. *)
Fixpoint find (s word : string) : bool :=
  String.prefix word s
  || match s with
     | EmptyString => false
     | String _ rest => find rest word
     end.

Definition forbiddenWords : list string := ["admin"; "moderator"; "staff"].

(** [validatePlayerName(name)]. *)
Definition validatePlayerName (name : string) : ValidationResult :=
  if String.length name <? 3
  then reject "Name must be at least 3 characters long"
  else if 20 <? String.length name
  then reject "Name must be no more than 20 characters long"
  else
    let lowerName := lower name in
    if existsb (λ word, find lowerName word) forbiddenWords
    then reject "Name contains forbidden content"
    else accept.




Record ItemData := { id : string; quantity : Q }.

(** [validateItemData(item)]. *)
Definition validateItemData (item : ItemData) : ValidationResult :=
  if String.length (id item) =? 0
  then reject "Item ID cannot be empty"
  else if Qle_bool (quantity item) 0
  then reject "Item quantity must be positive"
  else if Num.Qgtb (quantity item) 9999
  then reject "Item quantity exceeds maximum stack size"
  else accept.

(** The loop of [detectSpam], from the state it has reached:
    [consecutiveCount] and [lastChar] (nothing before the first byte). *)
Fixpoint detectSpamFrom (consecutiveCount : nat) (lastChar : option Ascii.ascii)
    (message : string) : bool :=
  match message with
  | EmptyString => false
  | String char rest =>
      if decide (Some char = lastChar)
      then
        let consecutiveCount := S consecutiveCount in
        if 5 <? consecutiveCount then true
        else detectSpamFrom consecutiveCount lastChar rest
      else detectSpamFrom 1 (Some char) rest
  end.

Definition detectSpam (message : string) : bool :=
  detectSpamFrom 1 None message.

(** [validateChatMessage(message)]. *)
Definition validateChatMessage (message : string) : ValidationResult :=
  if String.length message =? 0
  then reject "Message cannot be empty"
  else if 200 <? String.length message
  then reject "Message is too long"
  else if detectSpam message
  then reject "Message appears to be spam"
  else {| valid := true; reason := None; filteredMessage := Some message |}.

End ValidationService.

(** ** ConfigService

    The configuration is a table of tables and plain values, held here by
    value.  The code holds tables by reference: [set] and [deepMerge]
    store the table they are given, [get] hands out the table that is
    stored, and both write into the tables of the configuration in place.
    The two agree as long as no table is stored at two places, which is
    so for the configuration the constructor builds and for whatever
    writes of plain values make of it; a configuration in which two paths
    lead to one table is outside the model. *)

Module ConfigService.

#[warnings="-register-all"]
Inductive Value :=
| VNumber (q : Q)
| VBoolean (b : bool)
| VString (s : string)
| VVector3 (v : Roblox.Vector3)
| VTable (fields : gmap string Value).

Record t := { config : gmap string Value }.

(** [path.split(".")]: the pieces between the dots, empty ones included. *)
Fixpoint splitFrom (piece : string) (path : string) : list string :=
  match path with
  | EmptyString => [String.rev piece]
  | String c rest =>
      if String.eqb (String c EmptyString) "."
      then String.rev piece :: splitFrom EmptyString rest
      else splitFrom (String c piece) rest
  end.

Definition split (path : string) : list string := splitFrom EmptyString path.

(** The loop of [get] over the parts of the path. *)
Fixpoint getIn (current : Value) (parts : list string) : option Value :=
  match parts with
  | [] => Some current
  | part :: rest =>
      match current with
      | VTable fields =>
          match fields !! part with
          | Some next => getIn next rest
          | None => None
          end
      | _ => None
      end
  end.

(** [get(path)]. *)
Definition get (s : t) (path : string) : option Value :=
  getIn (VTable (config s)) (split path).

(** The loop of [set] over the parts before the last one, and the final
    assignment; an absent [value] is [undefined], which removes the key. *)
Fixpoint setIn (current : gmap string Value) (parts : list string)
    (lastPart : string) (value : option Value) : gmap string Value :=
  match parts with
  | [] =>
      match value with
      | Some v => <[lastPart := v]> current
      | None => delete lastPart current
      end
  | part :: rest =>
      let child :=
        match current !! part with
        | Some (VTable fields) => fields
        | _ => ∅
        end in
      <[part := VTable (setIn child rest lastPart value)]> current
  end.

(** [parts.pop()]: the last part and the parts before it. *)
Definition pop (parts : list string) : option string * list string :=
  (last parts, removelast parts).

(** [set(path, value)]. *)
Definition set (s : t) (path : string) (value : option Value) : bool * t :=
  let '(lastPart, parts) := pop (split path) in
  match lastPart with
  | None => (false, s)
  | Some lastPart =>
      if decide (lastPart = "") then (false, s)
      else (true, {| config := setIn (config s) parts lastPart value |})
  end.

Definition getAll (s : t) : gmap string Value := config s.

(** [deepMerge(target, source)] for a [source] that is a table. *)
Fixpoint deepMerge (target : gmap string Value) (source : Value)
    {struct source} : gmap string Value :=
  match source with
  | VTable fields =>
      map_fold
        (λ key value (target : gmap string Value),
           match value, target !! key with
           | VTable _, Some (VTable inner) =>
               <[key := VTable (deepMerge inner value)]> target
           | _, _ => <[key := value]> target
           end)
        target fields
  | _ => target
  end.

(** [updateConfig(updates)]. *)
Definition updateConfig (s : t) (updates : gmap string Value) : t :=
  {| config := deepMerge (config s) (VTable updates) |}.

Definition loadDefaultConfig : gmap string Value :=
  {[ "gameplay" :=
       VTable {[ "maxLevel" := VNumber 100;
                 "baseExperiencePerLevel" := VNumber 1000;
                 "respawnTime" := VNumber 5;
                 "maxInventorySlots" := VNumber 50 ]};
     "combat" :=
       VTable {[ "baseDamageMultiplier" := VNumber 1;
                 "criticalHitChance" := VNumber (5 # 100);
                 "criticalHitMultiplier" := VNumber 2 ]};
     "economy" :=
       VTable {[ "maxCurrency" := VNumber 999999999;
                 "defaultStartingGold" := VNumber 100;
                 "shopRefreshInterval" := VNumber 3600 ]};
     "world" :=
       VTable {[ "maxPlayersPerServer" := VNumber 50;
                 "worldSize" :=
                   VVector3 {| Roblox.v_X := 1000; Roblox.v_Y := 500;
                               Roblox.v_Z := 1000 |};
                 "spawnPosition" :=
                   VVector3 {| Roblox.v_X := 0; Roblox.v_Y := 10;
                               Roblox.v_Z := 0 |} ]};
     "features" :=
       VTable {[ "pvpEnabled" := VBoolean true;
                 "tradingEnabled" := VBoolean true;
                 "chatEnabled" := VBoolean true;
                 "debugMode" := VBoolean false ]} ]}.

(** The service after its constructor. *)
Definition initial : t := {| config := loadDefaultConfig |}.

Definition resetToDefaults (s : t) : t := {| config := loadDefaultConfig |}.

(** [this.config.features[feature] || false]: the stored value unless it
    is absent or false; indexing fails when [features] is no table. *)
Definition isFeatureEnabled (s : t) (feature : string) : option Value :=
  match config s !! "features" with
  | Some (VTable features) =>
      Some match features !! feature with
           | Some (VBoolean false) | None => VBoolean false
           | Some value => value
           end
  | _ => None
  end.

(** [this.config.features[feature] = enabled]. *)
Definition setFeature (s : t) (feature : string) (enabled : bool)
  : option t :=
  match config s !! "features" with
  | Some (VTable features) =>
      Some {| config :=
                <["features" := VTable (<[feature := VBoolean enabled]> features)]>
                  (config s) |}
  | _ => None
  end.

End ConfigService.

(** ** Predicates of the statements

    What the properties below say about tables, states and calls. *)

Module LootSpec.
Import LootService.

(** Every entry of the table has weight 0. *)
Definition zeroWeights (lootTable : LootTableMeta) : Prop :=
  Forall (λ entry, weight entry == 0) (entries lootTable).

(** The elements of a result list that hold the item [d]. *)
Definition grants (d : string) (results : list LootResult) : list LootResult :=
  filter (λ r, r_drop r = d) results.

(** The call is no collection of the drop [i]. *)
Definition notCollected (i : string) (c : Call) : Prop :=
  match c with
  | Collect lootId => lootId ≠ i
  | _ => True
  end.

(** If the call is a sweep, its clock reads at most [t]. *)
Definition sweptBy (t : Q) (c : Call) : Prop :=
  match c with
  | Sweep now => (now <= t)%Q
  | _ => True
  end.

End LootSpec.

Module ResourceSpec.
Import Roblox ResourceService.
Local Open Scope Q_scope.

(** Every stored current value has a ceiling and lies between 0 and it. *)
Definition inRange (s : t) : Prop :=
  ∀ (pid : Z) pd (key : ResourceKey) (cur : Q),
    playerResources s !! pid = Some pd → resources pd !! key = Some cur →
    ∃ mx, maxResources pd !! key = Some mx ∧ 0 <= cur ∧ cur <= mx.

Definition ceilingsNonneg (s : t) : Prop :=
  ∀ (pid : Z) pd (key : ResourceKey) (mx : Q),
    playerResources s !! pid = Some pd → maxResources pd !! key = Some mx →
    0 <= mx.

(** The same two conditions on the tables that [initialResources] builds. *)
Definition tablesInRange (acc : gmap string Q * gmap string Q) : Prop :=
  (∀ (k : ResourceKey) (c : Q), acc.1 !! k = Some c →
     ∃ m, acc.2 !! k = Some m ∧ 0 <= c ∧ c <= m)
  ∧ (∀ (k : ResourceKey) (m : Q), acc.2 !! k = Some m → 0 <= m).

Definition mutationPlayer (m : Mutation) : Player :=
  match m with
  | Set_ p _ _ | Modify p _ _ | Consume p _ _ | RestoreToMax p _
  | SetMax p _ _ => p
  end.

Definition mutationKey (m : Mutation) : ResourceKey :=
  match m with
  | Set_ _ k _ | Modify _ k _ | Consume _ k _ | RestoreToMax _ k
  | SetMax _ k _ => k
  end.

Definition isSetMax (m : Mutation) : bool :=
  match m with SetMax _ _ _ => true | _ => false end.


End ResourceSpec.

Module NPCSpec.
Import NPCService.
Local Open Scope Q_scope.

(** Health never drops below 0, and an NPC without health is dead. *)
Definition deadAtZero (s : t) : Prop :=
  ∀ (key : string) npc, spawnedNPCs s !! key = Some npc →
    0 <= health npc ∧ (health npc <= 0 → isAlive npc = false).

Definition belowMax (s : t) : Prop :=
  ∀ (key : string) npc, spawnedNPCs s !! key = Some npc →
    health npc <= maxHealth npc.

Definition nonnegDamage (c : Call) : Prop :=
  match c with
  | Damage _ damage => 0 <= damage
  | _ => True
  end.

(** Every kind of NPC starts with some health. *)
Definition positiveHealth (NPCMetaMap : NPCKey → option NPCMeta) : Prop :=
  ∀ npcKey meta, NPCMetaMap npcKey = Some meta → 0 < baseStats_maxHealth meta.

End NPCSpec.

Module MessageSpec.
Import Roblox MessageService.

(** The [k] most recent elements of a list that grows at its end. *)
Definition mostRecent {A} (k : nat) (l : list A) : list A :=
  drop (length l - k) l.

(** The call removes neither the message [i] nor the messages of its
    recipient. *)
Definition notRemoved (i : string) (recipient : option Z) (c : Call)
  : Prop :=
  match c with
  | Cancel messageId => messageId ≠ i
  | CleanupPlayer player => recipient ≠ Some (UserId player)
  | _ => True
  end.

(** If the call is a sweep, its clock reads at most [t]. *)
Definition sweptBy (t : Q) (c : Call) : Prop :=
  match c with
  | Sweep now => (now <= t)%Q
  | _ => True
  end.

Definition historiesBounded (s : t) : Prop :=
  ∀ (pid : Z) h, playerMessageHistory s !! pid = Some h →
    length h ≤ MAX_HISTORY_PER_PLAYER.

End MessageSpec.

Module EventSpec.
Import EventService.

Section Definitions.

Variable Data : Type.
Variable World : Type.
Variable behaviour : nat → Data → Env Data World → Completion * Env Data World.

(** What one pass of the loop of [fire] does with a listener: the call,
    and a line on the console when it threw. *)
Definition afterCall (eventName : string) (d : Data) (e : Env Data World)
    (listener : EventCallback) : Env Data World :=
  match (behaviour (handle listener) d e).1 with
  | Normal => (behaviour (handle listener) d e).2
  | Throws error =>
      {| service := service (behaviour (handle listener) d e).2;
         world := world (behaviour (handle listener) d e).2;
         console :=
           console (behaviour (handle listener) d e).2
           ++ ["EventService: Error in event listener for "
               +:+ eventName +:+ ": " +:+ error] |}
  end.

(** No call of one of the listeners subscribes to the topic or
    unsubscribes from it. *)
Definition keepSubscriptions (eventName : string)
    (listeners : list EventCallback) : Prop :=
  ∀ listener d e,
    listener ∈ listeners →
    eventListeners (service (behaviour (handle listener) d e).2) !! eventName
    = eventListeners (service e) !! eventName.

(** The service with the event of a call of [fire] in its history. *)
Definition recorded (eventName : string) (d : Data) (now : Q)
    (e : Env Data World) : Env Data World :=
  let history :=
    eventHistory (service e)
    ++ [{| name := eventName; timestamp := now; data := d |}] in
  {| service :=
       {| eventListeners := eventListeners (service e);
          eventHistory :=
            if decide (MAX_HISTORY < length history) then tail history
            else history |};
     world := world e; console := console e |}.

End Definitions.

End EventSpec.

Module LootTableSpec.
Import LootService.

(** The bounds of a quantity admit a draw. *)
Definition quantityOk (spec : QuantitySpec) : Prop :=
  match spec with
  | Scalar _ => True
  | Range lo hi => (lo ≤ hi)%Z
  end.

(** Every call of [math.random(m, n)] that the table can cause has
    [m <= n]. *)
Definition tableOk (lootTable : LootTableMeta) : Prop :=
  ((rolls lootTable).1 ≤ (rolls lootTable).2)%Z
  ∧ Forall (λ entry, quantityOk (quantity entry)) (entries lootTable)
  ∧ Forall (λ g, quantityOk (g_quantity g))
      (default [] (guaranteed lootTable)).

(** The sum of the weights of some entries. *)
Definition sumWeights (es : list LootEntry) : Q :=
  foldr (λ entry sum, (weight entry + sum)%Q) 0%Q es.

End LootTableSpec.

Module LootStoreSpec.
Import LootService.

(** The store and the world agree, every drop sits under its own id, lives
    for [LOOT_EXPIRE_TIME], and has an id that was issued. *)
Definition storeOk (s : t) : Prop :=
  lootModels s = dom (activeLootDrops s)
  ∧ ∀ (k : string) d, activeLootDrops s !! k = Some d →
      id d = k
      ∧ expiresAt d = (timestamp d + LOOT_EXPIRE_TIME)%Q
      ∧ ∃ n : N, k = "loot_" +:+ pretty n ∧ (n < nextLootId s)%N.

End LootStoreSpec.

Module NPCStoreSpec.
Import NPCService.

(** Every NPC is stored under its own id, the id was issued by the
    counter, and a dead NPC that is still stored awaits its removal. *)
Definition storeOk (s : t) : Prop :=
  ∀ (key : string) npc, spawnedNPCs s !! key = Some npc →
    id npc = key
    ∧ (∃ n : N, key = "npc_" +:+ pretty n ∧ (n < nextNPCId s)%N)
    ∧ (isAlive npc = false → key ∈ waiting s).

End NPCStoreSpec.

Module WorldSpec.
Import Roblox WorldService.
Local Open Scope Q_scope.

(** The position lies in the box of the zone, faces included. *)
Definition inside (zone : WorldZone) (position : Vector3) : Prop :=
  v_X (min (bounds zone)) <= v_X position <= v_X (max (bounds zone))
  ∧ v_Y (min (bounds zone)) <= v_Y position <= v_Y (max (bounds zone))
  ∧ v_Z (min (bounds zone)) <= v_Z position <= v_Z (max (bounds zone)).

End WorldSpec.

Module EventRunSpec.
Import EventService.

(** One call of [fire], by its arguments. *)
Record Firing (Data : Type) := {
  firedName : string;
  firedData : Data;
  firedAt : Q
}.
Arguments firedName {Data} _.
Arguments firedData {Data} _.
Arguments firedAt {Data} _.

Definition eventOf {Data} (f : Firing Data) : GameEvent Data :=
  {| name := firedName f; timestamp := firedAt f; data := firedData f |}.

Section Definitions.

Variable Data : Type.
Variable World : Type.
Variable behaviour : nat → Data → Env Data World → Completion * Env Data World.

(** A sequence of calls of [fire], stopping at the first that throws. *)
Fixpoint fires (fuel : nat) (fs : list (Firing Data))
  : Eff Data World unit :=
  match fs with
  | [] => ret Data World tt
  | f :: rest =>
      bind Data World
        (fire Data World behaviour fuel (firedName f) (firedData f)
           (firedAt f))
        (λ _, fires fuel rest)
  end.

(** No call of a subscribed listener changes the service: none calls
    [on], [off], [fire] or [clearHistory]. *)
Definition keepOut (s : t Data) : Prop :=
  ∀ (eventName : string) listeners listener d e,
    eventListeners s !! eventName = Some listeners →
    listener ∈ listeners →
    service (behaviour (handle listener) d e).2 = service e.

(** The fuel covers a call of every listener of any one topic. *)
Definition covers (fuel : nat) (s : t Data) : Prop :=
  ∀ (eventName : string) listeners,
    eventListeners s !! eventName = Some listeners →
    length listeners ≤ fuel.

End Definitions.

End EventRunSpec.

Module ValidationSpec.

(** The message holds [k] equal bytes in a row. *)
Definition hasRun (k : nat) (message : string) : Prop :=
  ∃ pre c post,
    String.list_ascii_of_string message = pre ++ replicate k c ++ post.

End ValidationSpec.

Module ConfigSpec.
Import ConfigService.

(** The calls that write the configuration without handing it a table. *)
Inductive Call :=
| Set_ (path : string) (value : option Value)
| SetFeature (feature : string) (enabled : bool)
| Reset.

(** A call of [setFeature] that raises leaves the service as it was. *)
Definition call (s : t) (c : Call) : t :=
  match c with
  | Set_ path value => (set s path value).2
  | SetFeature feature enabled => default s (setFeature s feature enabled)
  | Reset => resetToDefaults s
  end.

Definition run (s : t) (cs : list Call) : t := foldl call s cs.

(** A value that is no table: a number, a boolean, a string, a vector,
    or [undefined]. *)
Definition plain (value : option Value) : Prop :=
  match value with
  | Some (VTable _) => False
  | _ => True
  end.

Definition plainCall (c : Call) : Prop :=
  match c with
  | Set_ _ value => plain value
  | _ => True
  end.

End ConfigSpec.

(** ** Sample inputs

    Concrete tables, streams and states on which the properties below are
    evaluated. *)

Module Samples.
Local Open Scope Q_scope.

(** A stream whose every draw is one half. *)
Definition halves : Rng.t := {| Rng.draws := λ _, 1 # 2; Rng.pos := 0 |}.

(** One guaranteed gem and a single weightless entry, rolled once. *)
Definition zeroTable : LootService.LootTableMeta :=
  {| LootService.entries :=
       [{| LootService.drop := "gold"; LootService.weight := 0;
           LootService.quantity := LootService.Scalar 1;
           LootService.unique := false |}];
     LootService.rolls := (1, 1)%Z;
     LootService.guaranteed :=
       Some [{| LootService.g_drop := "gem";
                LootService.g_quantity := LootService.Scalar 1 |}] |}.

(** A relic that may be granted once and coins that pile up. *)
Definition relicTable : LootService.LootTableMeta :=
  {| LootService.entries :=
       [{| LootService.drop := "relic"; LootService.weight := 1;
           LootService.quantity := LootService.Scalar 1;
           LootService.unique := true |};
        {| LootService.drop := "coin"; LootService.weight := 1;
           LootService.quantity := LootService.Range 2 4;
           LootService.unique := false |}];
     LootService.rolls := (3, 3)%Z;
     LootService.guaranteed := None |}.

(** Three resources with the defaults of the Health 100/100 scenario. *)
Definition RESOURCE_KEYS : list string := ["Health"; "Mana"; "Stamina"].

Definition DEFAULT_RESOURCES (resourceKey : string) : option (Q * Q) :=
  if String.eqb resourceKey "Health" then Some (100, 100)
  else if String.eqb resourceKey "Mana" then Some (50, 50)
  else if String.eqb resourceKey "Stamina" then Some (100, 100)
  else None.

Definition ResourceMetaRecord (resourceKey : string) : option string :=
  if bool_decide (resourceKey ∈ RESOURCE_KEYS)
  then Some resourceKey else None.

Definition alice : Roblox.Player :=
  {| Roblox.UserId := 7; Roblox.Name := "alice" |}.

Definition ledger : ResourceService.t :=
  ResourceService.initializePlayerResources RESOURCE_KEYS DEFAULT_RESOURCES
    ResourceService.empty alice 0.

(** One kind of NPC, the zombie of the server entry point. *)
Definition NPCMetaMap (npcKey : string) : option NPCService.NPCMeta :=
  if String.eqb npcKey "ZOMBIE"
  then Some {| NPCService.baseStats_maxHealth := 100;
               NPCService.lootTable := Some "ZOMBIE_COMMON" |}
  else None.

Definition origin : Roblox.Vector3 :=
  {| Roblox.v_X := 10; Roblox.v_Y := 5; Roblox.v_Z := 10 |}.

Definition zombie (health : Q) (isAlive : bool) : NPCService.SpawnedNPC :=
  {| NPCService.id := "npc_1"; NPCService.npcKey := "ZOMBIE";
     NPCService.model := 1; NPCService.spawned := 0;
     NPCService.health := health; NPCService.maxHealth := 100;
     NPCService.isAlive := isAlive; NPCService.position := origin |}.

Definition spawnZombie : NPCService.Call :=
  NPCService.Spawn "ZOMBIE" origin (Some 1%nat) 0.

(** Message ids numbered in the order of their creation, and no
    severity with a colour of its own. *)
Definition generateUniqueId (n : N) : string := "msg_" +:+ pretty n.

Definition MessageMetaRecord (severity : string)
  : option MessageService.Color3 := None.

(** Listeners on a counter: the first and the third count and return,
    the second counts and throws, the fourth unsubscribes itself from
    ["npcDefeated"] and throws, the fifth subscribes itself to it once
    more and returns. *)
Definition listener (handle : nat) : EventService.EventCallback :=
  {| EventService.handle := handle |}.

Definition counted (step : nat) (e : EventService.Env string nat)
  : EventService.Env string nat :=
  {| EventService.service := EventService.service e;
     EventService.world := (EventService.world e + step)%nat;
     EventService.console := EventService.console e |}.

Definition behaviour (handle : nat) (d : string)
    (e : EventService.Env string nat)
  : EventService.Completion * EventService.Env string nat :=
  match handle with
  | 1%nat => (EventService.Normal, counted 1 e)
  | 2%nat => (EventService.Throws "boom", counted 10 e)
  | 3%nat => (EventService.Normal, counted 100 e)
  | 4%nat =>
      (EventService.Throws "gone",
       {| EventService.service :=
            EventService.off _ (EventService.service e) "npcDefeated"
              (listener 4);
          EventService.world := EventService.world e;
          EventService.console := EventService.console e |})
  | 5%nat =>
      (EventService.Normal,
       {| EventService.service :=
            EventService.on _ (EventService.service e) "npcDefeated"
              (listener 5);
          EventService.world := EventService.world e;
          EventService.console := EventService.console e |})
  | _ => (EventService.Normal, e)
  end.

Definition bus : EventService.t string :=
  EventService.on _
    (EventService.on _
       (EventService.on _ (EventService.empty _) "npcDefeated" (listener 1))
       "npcDefeated" (listener 2))
    "npcDefeated" (listener 3).

Definition quiet : EventService.Env string nat :=
  {| EventService.service := bus; EventService.world := 0%nat;
     EventService.console := [] |}.


(** The listener that subscribes itself again, alone on its topic. *)
Definition echo : EventService.Env string nat :=
  {| EventService.service :=
       EventService.on _ (EventService.empty _) "npcDefeated" (listener 5);
     EventService.world := 0%nat; EventService.console := [] |}.

Definition bob : Roblox.Player :=
  {| Roblox.UserId := 9; Roblox.Name := "bob" |}.

(** The profile of bob as a new player, by its two clock fields. *)
Definition bobProfile (lastLogin totalPlayTime : Q)
  : PlayerDataService.PlayerProfile :=
  {| PlayerDataService.playerId := 9;
     PlayerDataService.playerName := "bob";
     PlayerDataService.level := 1;
     PlayerDataService.experience := 0;
     PlayerDataService.currency := {["gold" := 100; "gems" := 10]};
     PlayerDataService.inventory := [];
     PlayerDataService.settings := ∅;
     PlayerDataService.lastLogin := lastLogin;
     PlayerDataService.totalPlayTime := totalPlayTime |}.

(** The scenario of a new player: loaded at time 5, saved at time 10,
    loaded again at time 20, the data store serving each request. *)
Definition firstLoad
  : option PlayerDataService.PlayerProfile * PlayerDataService.t :=
  PlayerDataService.loadPlayerData PlayerDataService.empty bob 5
    PlayerDataService.Served.
Definition firstSave : bool * PlayerDataService.t :=
  PlayerDataService.savePlayerData firstLoad.2 bob 10
    PlayerDataService.Served.
Definition secondLoad
  : option PlayerDataService.PlayerProfile * PlayerDataService.t :=
  PlayerDataService.loadPlayerData firstSave.2 bob 20
    PlayerDataService.Served.

End Samples.

(** ** Further sample inputs *)

Module WorldSamples.
Local Open Scope Q_scope.

Definition corner (x y z : Q) : Roblox.Vector3 :=
  {| Roblox.v_X := x; Roblox.v_Y := y; Roblox.v_Z := z |}.

(** Two zones that share the face [x = 10]. *)
Definition meadow : WorldService.WorldZone :=
  {| WorldService.id := "meadow"; WorldService.name := "Meadow";
     WorldService.bounds :=
       {| WorldService.min := corner 0 0 0;
          WorldService.max := corner 10 10 10 |};
     WorldService.level := 1; WorldService.spawns := [] |}.

Definition swamp : WorldService.WorldZone :=
  {| WorldService.id := "swamp"; WorldService.name := "Swamp";
     WorldService.bounds :=
       {| WorldService.min := corner 10 0 0;
          WorldService.max := corner 20 10 10 |};
     WorldService.level := 5; WorldService.spawns := [] |}.

Definition world : WorldService.t :=
  WorldService.registerZone
    (WorldService.registerZone WorldService.empty meadow) swamp.

End WorldSamples.

(** * Properties

    ** Sweeps over a [Map] *)

Module StoreLemmas.

Section Sweep.
Context {K : Type} `{Countable K} {V : Type}.
Implicit Types (m : gmap K V) (test : V → bool).

Lemma elem_of_keysWhere test m k :
  k ∈ Luau.keysWhere test m ↔ ∃ v, m !! k = Some v ∧ test v = true.
Proof.
  unfold Luau.keysWhere. rewrite list_elem_of_fmap. split.
  - intros ([k' v] & -> & Hin).
    apply list_elem_of_filter in Hin as [Ht Hin].
    apply elem_of_map_to_list in Hin. eauto.
  - intros (v & Hk & Ht). exists (k, v). split; [done|].
    apply list_elem_of_filter. split; [done|].
    by apply elem_of_map_to_list.
Qed.

Lemma lookup_foldl_delete m (ks : list K) k :
  foldl (λ q id, delete id q) m ks !! k
  = if decide (k ∈ ks) then None else m !! k.
Proof.
  revert m. induction ks as [|j ks IH]; intros m; simpl.
  - destruct (decide (k ∈ [])) as [Hin|]; [|done].
    by apply elem_of_nil in Hin.
  - rewrite IH. destruct (decide (k ∈ ks)) as [Hin|Hin].
    + rewrite decide_True; [done | by right].
    + destruct (decide (j = k)) as [->|Hne].
      * rewrite decide_True by left. apply lookup_delete_eq.
      * rewrite lookup_delete_ne by done.
        rewrite decide_False; [done|].
        intros [->|?]%elem_of_cons; done.
Qed.

(** A sweep keeps exactly the entries that fail the test. *)
Lemma lookup_sweep test m k :
  foldl (λ q id, delete id q) m (Luau.keysWhere test m) !! k
  = match m !! k with
    | Some v => if test v then None else Some v
    | None => None
    end.
Proof.
  rewrite lookup_foldl_delete.
  destruct (decide (k ∈ Luau.keysWhere test m)) as [Hin|Hin].
  - apply elem_of_keysWhere in Hin as (v & -> & ->). done.
  - destruct (m !! k) as [v|] eqn:Hk; [|done].
    destruct (test v) eqn:Ht; [|done].
    exfalso. apply Hin. apply elem_of_keysWhere. eauto.
Qed.

End Sweep.

Lemma Qgeb_false (a b : Q) : (a < b)%Q → Num.Qgeb a b = false.
Proof.
  intros Hlt. unfold Num.Qgeb. apply not_true_iff_false.
  rewrite Qle_bool_iff. by apply Qlt_not_le.
Qed.

Lemma Qgeb_true (a b : Q) : (b <= a)%Q → Num.Qgeb a b = true.
Proof. intros. unfold Num.Qgeb. by apply Qle_bool_iff. Qed.

Lemma prefixed_pretty_inj (prefix : string) (a b : N) :
  prefix +:+ pretty a = prefix +:+ pretty b → a = b.
Proof. intros Heq. apply String.app_inj in Heq. by apply (inj pretty). Qed.

End StoreLemmas.
(** ** LootService *)

Module LootServiceProofs.
Import LootService LootSpec.

Lemma fold_weight_zero (es : list LootEntry) (acc : Q) :
  Forall (λ entry, weight entry == 0) es → acc == 0 →
  fold_left (λ sum entry, (sum + weight entry)%Q) es acc == 0.
Proof.
  intros Hes. revert acc. induction Hes as [|e es He _ IH]; intros acc Hacc.
  - exact Hacc.
  - simpl. apply IH. rewrite Hacc, He. reflexivity.
Qed.

Lemma totalWeight_zero lootTable :
  zeroWeights lootTable → totalWeight lootTable == 0.
Proof. intros H. apply fold_weight_zero; [exact H | reflexivity]. Qed.

Lemma selectEntry_zero (es : list LootEntry) (rv cw : Q) :
  Forall (λ entry, weight entry == 0) es → rv == 0 → cw == 0 →
  selectEntry rv cw es = head es.
Proof.
  intros Hes Hrv Hcw. destruct Hes as [|e es He _]; [reflexivity|].
  simpl. assert (Hle : Qle_bool rv (cw + weight e) = true).
  { apply Qle_bool_iff. rewrite Hrv, Hcw, He. discriminate. }
  rewrite Hle. reflexivity.
Qed.

Lemma selectEntry_elem (es : list LootEntry) (rv cw : Q) entry :
  selectEntry rv cw es = Some entry → entry ∈ es.
Proof.
  revert cw. induction es as [|e es IH]; intros cw; simpl; [discriminate|].
  destruct (Qle_bool rv (cw + weight e)).
  - intros [= ->]. left.
  - intros H. right. eauto.
Qed.

Lemma rollLoop_no_entries lootTable multiplier n results g :
  entries lootTable = [] →
  fst <$> rollLoop lootTable multiplier n results g = Some results.
Proof.
  intros He. revert g. induction n as [|n IH]; intros g; [reflexivity|].
  cbn [rollLoop]. unfold mbind, rng_bind, Rng.bind, rollOnce at 1.
  unfold mbind, rng_bind, Rng.bind. rewrite He. cbn. apply IH.
Qed.

(** C1 (amended): in a table whose entries all have weight 0 the walk stops
    at the first entry for every draw, so each roll grants the first entry
    (merged by the usual rule); only a table without entries yields the
    guaranteed drops alone. *)
Theorem C1_zero_weight_roll_selects_first lootTable multiplier results g :
  zeroWeights lootTable →
  (∀ u, selectEntry (u * totalWeight lootTable) 0 (entries lootTable)
        = head (entries lootTable))
  ∧ rollOnce lootTable multiplier results g =
      match head (entries lootTable) with
      | Some entry =>
          (quantity ← calculateQuantity (quantity entry) multiplier;
           mret (mergeResult results entry quantity)) (Rng.next g).2
      | None => Some (results, (Rng.next g).2)
      end
  ∧ (entries lootTable = [] →
     fst <$> generateLootFromTable lootTable multiplier g
     = fst <$> (Rng.math_random_range (rolls lootTable).1 (rolls lootTable).2
                  ≫= λ _, guaranteedDrops lootTable multiplier) g).
Proof.
  intros Hz.
  assert (Hsel : ∀ u, selectEntry (u * totalWeight lootTable) 0
                        (entries lootTable) = head (entries lootTable)).
  { intros u. apply selectEntry_zero; [exact Hz | | reflexivity].
    rewrite (totalWeight_zero _ Hz). ring. }
  split; [exact Hsel|]. split.
  - unfold rollOnce, mbind, rng_bind, Rng.bind, Rng.math_random.
    destruct (Rng.next g) as [u g'] eqn:Hn. cbn [snd].
    rewrite Hsel. destruct (head (entries lootTable)); reflexivity.
  - intros He. unfold generateLootFromTable, mbind, rng_bind, Rng.bind.
    destruct (Rng.math_random_range _ _ g) as [[rc g1]|]; [|reflexivity].
    destruct (guaranteedDrops lootTable multiplier g1) as [[res g2]|];
      [|reflexivity].
    rewrite rollLoop_no_entries by exact He. reflexivity.
Qed.

(** *** The merge rule *)

Lemma grants_nonempty d (results : list LootResult) :
  grants d results ≠ [] ↔ ∃ r, r ∈ results ∧ r_drop r = d.
Proof.
  unfold grants. split.
  - intros H. destruct (filter _ results) as [|r rs] eqn:Hf; [done|].
    exists r.
    assert (r ∈ filter (λ r, r_drop r = d) results) as Hr
      by (rewrite Hf; left).
    apply list_elem_of_filter in Hr as [? ?]. done.
  - intros (r & Hin & Hd) Hf.
    assert (r ∈ filter (λ r, r_drop r = d) results) as Hr
      by (apply list_elem_of_filter; done).
    rewrite Hf in Hr. by apply elem_of_nil in Hr.
Qed.

Lemma find_present (results : list LootResult) d :
  (∃ r, r ∈ results ∧ r_drop r = d) →
  ∃ i existing, list_find (λ r, r_drop r = d) results = Some (i, existing).
Proof.
  intros (r & Hin & Hd).
  destruct (list_find_elem_of (λ r, r_drop r = d) results r Hin Hd)
    as [[i x] Hx].
  eauto.
Qed.

Lemma find_absent (results : list LootResult) d :
  grants d results = [] → list_find (λ r, r_drop r = d) results = None.
Proof.
  intros Hg. destruct (list_find _ results) as [[i x]|] eqn:Hf; [|done].
  apply list_find_Some in Hf as (Hi & Hx & _).
  exfalso. apply (proj2 (grants_nonempty d results)); [|exact Hg].
  exists x. split; [|done]. by eapply list_elem_of_lookup_2.
Qed.

Lemma filter_insert_other (P : LootResult → Prop) `{!∀ x, Decision (P x)}
    (l : list LootResult) i x y :
  l !! i = Some y → ¬ P y → ¬ P x → filter P (<[i:=x]> l) = filter P l.
Proof.
  revert i. induction l as [|a l IH]; intros [|i] Hi Hy Hx; simpl in *;
    try done.
  - injection Hi as ->. rewrite !filter_cons.
    destruct (decide (P x)), (decide (P y)); done.
  - rewrite !filter_cons. rewrite (IH i) by done. done.
Qed.

Lemma grants_merge_other d results entry q :
  drop entry ≠ d →
  grants d (mergeResult results entry q) = grants d results.
Proof.
  intros Hne. unfold mergeResult.
  destruct (list_find _ results) as [[i x]|] eqn:Hf.
  - destruct (unique entry); simpl; [done|].
    apply list_find_Some in Hf as (Hi & Hx & _).
    unfold grants. eapply filter_insert_other; [exact Hi| |]; simpl;
      congruence.
  - unfold grants. rewrite filter_app, filter_cons, filter_nil.
    simpl. destruct (decide (drop entry = d)); [done|].
    by rewrite app_nil_r.
Qed.

Lemma rollOnce_cases lootTable multiplier results g r1 g1 :
  rollOnce lootTable multiplier results g = Some (r1, g1) →
  r1 = results ∨
  ∃ entry q g' g'',
    entry ∈ entries lootTable
    ∧ calculateQuantity (quantity entry) multiplier g' = Some (q, g'')
    ∧ r1 = mergeResult results entry q.
Proof.
  unfold rollOnce, mbind, rng_bind, Rng.bind, Rng.math_random.
  destruct (Rng.next g) as [u g'].
  destruct (selectEntry _ _ _) as [entry|] eqn:Hs.
  - destruct (calculateQuantity _ _ g') as [[q g2]|] eqn:Hq; [|discriminate].
    intros [= <- <-]. right. exists entry, q, g', g2.
    split; [by eapply selectEntry_elem | done].
  - intros [= <- <-]. by left.
Qed.

(** Over the roll loop, an item whose entries are all unique keeps the
    grants it has, and otherwise ends with none, or with one grant of one
    resolved quantity of one of its entries. *)
Lemma rollLoop_unique_grants lootTable multiplier d :
  (∀ e, e ∈ entries lootTable → drop e = d → unique e = true) →
  ∀ n results g res g',
    rollLoop lootTable multiplier n results g = Some (res, g') →
    (grants d results ≠ [] → grants d res = grants d results)
    ∧ (grants d results = [] →
       grants d res = []
       ∨ ∃ e q g1 g2,
           e ∈ entries lootTable ∧ drop e = d
           ∧ calculateQuantity (quantity e) multiplier g1 = Some (q, g2)
           ∧ grants d res = [{| r_drop := d; r_quantity := q |}]).
Proof.
  intros Hu. induction n as [|n IH]; intros results g res g'.
  - intros [= <- <-]. split; [done|]. intros ->. by left.
  - cbn [rollLoop]. unfold mbind at 1, rng_bind at 1, Rng.bind at 1.
    destruct (rollOnce _ _ results g) as [[r1 g1]|] eqn:Hr; [|discriminate].
    intros Hl. destruct (IH _ _ _ _ Hl) as [IH1 IH2].
    apply rollOnce_cases in Hr as [->|(e & q & ga & gb & He & Hq & ->)];
      [done|].
    destruct (decide (drop e = d)) as [Hd|Hd].
    + pose proof (Hu e He Hd) as Hue. split.
      * intros Hg. pose proof Hg as Hg'.
        apply grants_nonempty, find_present in Hg' as (i & x & Hf).
        unfold mergeResult in IH1. rewrite <- Hd in Hf.
        rewrite Hf, Hue in IH1. simpl in IH1. by apply IH1.
      * intros Hg. pose proof (find_absent _ _ Hg) as Hf.
        assert (Hm : grants d (mergeResult results e q)
                     = [{| r_drop := d; r_quantity := q |}]).
        { unfold mergeResult. rewrite <- Hd in Hf. rewrite Hf.
          unfold grants. rewrite filter_app, filter_cons, filter_nil.
          fold (grants d results). rewrite Hg. simpl.
          destruct (decide (drop e = d)); [by rewrite Hd | done]. }
        right. exists e, q, ga, gb. repeat (split; [done|]).
        rewrite IH1 by (rewrite Hm; done). exact Hm.
    + rewrite (grants_merge_other d results e q Hd) in IH1, IH2. done.
Qed.

(** C4: a roll draws once, walks the entries to the one its draw
    selects, resolves the quantity of that entry and merges it into the
    result list; the roll loop is these rolls in sequence, each on the
    list the roll before it left.  When the roll selects an item that is
    already in the list, a non-unique entry adds the resolved quantity to
    the first element that holds the item and changes nothing else, and a
    unique entry leaves the list as it is; hence over any number of rolls
    an item whose entries are all unique keeps the grants it already has,
    and when it had none it ends with none or with a single grant of one
    resolved quantity. *)
Theorem C4_merge_rule :
  (∀ results entry quantity,
     (∃ r, r ∈ results ∧ r_drop r = drop entry) →
     (unique entry = false →
        ∃ i existing,
          results !! i = Some existing ∧ r_drop existing = drop entry
          ∧ (∀ j y, results !! j = Some y → j < i → r_drop y ≠ drop entry)
          ∧ mergeResult results entry quantity
            = <[i := {| r_drop := drop entry;
                        r_quantity := (r_quantity existing + quantity)%Z |}]>
                results
          ∧ length (mergeResult results entry quantity) = length results)
     ∧ (unique entry = true → mergeResult results entry quantity = results))
  ∧ (∀ lootTable multiplier d n results g res g',
       (∀ e, e ∈ entries lootTable → drop e = d → unique e = true) →
       rollLoop lootTable multiplier n results g = Some (res, g') →
       (grants d results ≠ [] → grants d res = grants d results)
       ∧ (grants d results = [] →
          grants d res = []
          ∨ ∃ e q g1 g2,
              e ∈ entries lootTable ∧ drop e = d
              ∧ calculateQuantity (quantity e) multiplier g1 = Some (q, g2)
              ∧ grants d res = [{| r_drop := d; r_quantity := q |}]))
  ∧ (∀ lootTable multiplier results g,
       rollOnce lootTable multiplier results g
       = match selectEntry
                 (Rng.draws g (Rng.pos g) * totalWeight lootTable) 0
                 (entries lootTable) with
         | Some entry =>
             match calculateQuantity (quantity entry) multiplier
                     (Rng.next g).2 with
             | Some (q, g') => Some (mergeResult results entry q, g')
             | None => None
             end
         | None => Some (results, (Rng.next g).2)
         end)
  ∧ (∀ lootTable multiplier results g entry q g',
       selectEntry (Rng.draws g (Rng.pos g) * totalWeight lootTable) 0
         (entries lootTable) = Some entry →
       calculateQuantity (quantity entry) multiplier (Rng.next g).2
       = Some (q, g') →
       (∃ r, r ∈ results ∧ r_drop r = drop entry) →
       (unique entry = false →
          ∃ i existing,
            results !! i = Some existing ∧ r_drop existing = drop entry
            ∧ (∀ j y, results !! j = Some y → j < i →
                 r_drop y ≠ drop entry)
            ∧ rollOnce lootTable multiplier results g
              = Some (<[i := {| r_drop := drop entry;
                                r_quantity :=
                                  (r_quantity existing + q)%Z |}]> results,
                      g'))
       ∧ (unique entry = true →
          rollOnce lootTable multiplier results g = Some (results, g')))
  ∧ (∀ lootTable multiplier n results g,
       rollLoop lootTable multiplier (S n) results g
       = match rollOnce lootTable multiplier results g with
         | Some (results', g') => rollLoop lootTable multiplier n results' g'
         | None => None
         end).
Proof.
  assert (Hmerge : ∀ results entry quantity,
     (∃ r, r ∈ results ∧ r_drop r = drop entry) →
     (unique entry = false →
        ∃ i existing,
          results !! i = Some existing ∧ r_drop existing = drop entry
          ∧ (∀ j y, results !! j = Some y → j < i → r_drop y ≠ drop entry)
          ∧ mergeResult results entry quantity
            = <[i := {| r_drop := drop entry;
                        r_quantity := (r_quantity existing + quantity)%Z |}]>
                results
          ∧ length (mergeResult results entry quantity) = length results)
     ∧ (unique entry = true → mergeResult results entry quantity = results)).
  { intros results entry quantity Hex.
    destruct (find_present _ _ Hex) as (i & x & Hf). split.
    + intros Hu. exists i, x. unfold mergeResult. rewrite Hf, Hu. simpl.
      apply list_find_Some in Hf as (Hi & Hx & Hlt).
      rewrite Hx. repeat split; try done. by rewrite length_insert.
    + intros Hu. unfold mergeResult. by rewrite Hf, Hu. }
  assert (Hroll : ∀ lootTable multiplier results g,
       rollOnce lootTable multiplier results g
       = match selectEntry
                 (Rng.draws g (Rng.pos g) * totalWeight lootTable) 0
                 (entries lootTable) with
         | Some entry =>
             match calculateQuantity (quantity entry) multiplier
                     (Rng.next g).2 with
             | Some (q, g') => Some (mergeResult results entry q, g')
             | None => None
             end
         | None => Some (results, (Rng.next g).2)
         end).
  { intros lootTable multiplier results g.
    unfold rollOnce, mbind, rng_bind, Rng.bind, Rng.math_random, Rng.next.
    cbn [fst snd].
    destruct (selectEntry _ _ _) as [entry|]; [|done].
    by destruct (calculateQuantity _ _ _) as [[q g']|]. }
  split; [exact Hmerge|]. split.
  { intros lootTable multiplier d n results g res g' Hu Hl.
    by eapply rollLoop_unique_grants. }
  split; [exact Hroll|]. split.
  - intros lootTable multiplier results g entry q g' Hs Hq Hex.
    rewrite Hroll, Hs, Hq.
    destruct (Hmerge results entry q Hex) as [Hplain Hunique]. split.
    + intros Hu. destruct (Hplain Hu) as (i & x & H1 & H2 & H3 & H4 & _).
      exists i, x. by rewrite H4.
    + intros Hu. by rewrite (Hunique Hu).
  - intros lootTable multiplier n results g.
    cbn [rollLoop]. unfold mbind, rng_bind, Rng.bind.
    by destruct (rollOnce lootTable multiplier results g) as [[r g1]|].
Qed.

Lemma C4_merge_rule_witness :
  (∃ r, r ∈ [{| r_drop := "relic"; r_quantity := 1 |}]
        ∧ r_drop r = "relic")
  ∧ mergeResult [{| r_drop := "relic"; r_quantity := 1 |}]
      {| drop := "relic"; weight := 1; quantity := Scalar 1;
         unique := true |} 5
    = [{| r_drop := "relic"; r_quantity := 1 |}]
  ∧ fst <$> rollOnce Samples.relicTable 1
              [{| r_drop := "coin"; r_quantity := 2 |}]
              {| Rng.draws := λ _, 3 # 4; Rng.pos := 0 |}
    = Some [{| r_drop := "coin"; r_quantity := 6 |}].
Proof.
  assert (H : ∃ r, r ∈ [{| r_drop := "relic"; r_quantity := 1 |}]
                   ∧ r_drop r = "relic").
  { eexists. split; [left | reflexivity]. }
  split; [exact H|]. split.
  - exact (proj2 (proj1 C4_merge_rule
      [{| r_drop := "relic"; r_quantity := 1 |}]
      {| drop := "relic"; weight := 1; quantity := Scalar 1;
         unique := true |}
      5%Z H) eq_refl).
  - rewrite (proj1 (proj2 (proj2 C4_merge_rule))). reflexivity.
Defined.

Example relic_granted_once :
  fst <$> generateLootFromTable Samples.relicTable 1 Samples.halves
  = Some [{| r_drop := "relic"; r_quantity := 1 |}].
Proof. vm_compute. reflexivity. Qed.

Example coins_accumulate :
  fst <$> generateLootFromTable Samples.relicTable 2
            {| Rng.draws := λ _, 3 # 4; Rng.pos := 0 |}
  = Some [{| r_drop := "coin"; r_quantity := 24 |}].
Proof. vm_compute. reflexivity. Qed.

Lemma C1_zero_weight_witness :
  zeroWeights Samples.zeroTable
  ∧ selectEntry ((1 # 2) * totalWeight Samples.zeroTable) 0
      (entries Samples.zeroTable)
    = head (entries Samples.zeroTable).
Proof.
  assert (Hz : zeroWeights Samples.zeroTable).
  { apply Forall_cons. split; [reflexivity | apply Forall_nil]. done. }
  split; [exact Hz|].
  exact (proj1 (C1_zero_weight_roll_selects_first
                  Samples.zeroTable 1 [] Samples.halves Hz) (1 # 2)).
Defined.

(** C1 as stated fails: every weight of the table is 0, the draws are
    proper, and the result holds the weightless entry besides the
    guaranteed drop. *)
Lemma C1_zero_weight_counterexample :
  zeroWeights Samples.zeroTable
  ∧ Rng.unit_draws Samples.halves
  ∧ fst <$> guaranteedDrops Samples.zeroTable 1 Samples.halves
    = Some [{| r_drop := "gem"; r_quantity := 1 |}]
  ∧ fst <$> generateLootFromTable Samples.zeroTable 1 Samples.halves
    = Some [{| r_drop := "gem"; r_quantity := 1 |};
            {| r_drop := "gold"; r_quantity := 1 |}].
Proof.
  split; [|split; [|split]].
  - apply Forall_cons. split; [reflexivity | apply Forall_nil]. done.
  - intros i. split; simpl; [discriminate | reflexivity].
  - vm_compute. reflexivity.
  - vm_compute. reflexivity.
Qed.
End LootServiceProofs.

(** ** The store of loot drops *)

Module LootStoreProofs.
Import LootService LootSpec StoreLemmas.
Local Open Scope Q_scope.

Lemma cleanup_fields s now :
  activeLootDrops (cleanupExpiredLoot s now)
  = foldl (λ q id, delete id q) (activeLootDrops s)
      (Luau.keysWhere (λ loot, Num.Qgeb now (expiresAt loot))
         (activeLootDrops s))
  ∧ nextLootId (cleanupExpiredLoot s now) = nextLootId s.
Proof.
  unfold cleanupExpiredLoot.
  generalize (Luau.keysWhere (λ loot, Num.Qgeb now (expiresAt loot))
                (activeLootDrops s)).
  intros ks. revert s. induction ks as [|k ks IH]; intros s; [done|].
  simpl. destruct (IH (removeLootModel
    {| activeLootDrops := delete k (activeLootDrops s);
       lootModels := lootModels s; nextLootId := nextLootId s |} k))
    as [-> ->]. done.
Qed.

Lemma lookup_cleanup s now (k : string) :
  activeLootDrops (cleanupExpiredLoot s now) !! k
  = match activeLootDrops s !! k with
    | Some loot => if Num.Qgeb now (expiresAt loot) then None else Some loot
    | None => None
    end.
Proof.
  rewrite (proj1 (cleanup_fields s now)).
  apply (lookup_sweep (λ loot, Num.Qgeb now (expiresAt loot))).
Qed.

(** The counter only grows, and a call writes no key below it. *)
Lemma loot_call_counter s c : (nextLootId s <= nextLootId (call s c))%N.
Proof.
  destruct c as [item q pos now|k|now]; simpl.
  - lia.
  - unfold collectLoot. destruct (activeLootDrops s !! k); simpl; lia.
  - rewrite (proj2 (cleanup_fields s now)). lia.
Qed.

Lemma loot_call_lookup s c (n : N) :
  (n < nextLootId s)%N →
  activeLootDrops (call s c) !! ("loot_" +:+ pretty n)
  = match c with
    | Create _ _ _ _ => activeLootDrops s !! ("loot_" +:+ pretty n)
    | Collect k =>
        if decide (k = "loot_" +:+ pretty n) then None
        else activeLootDrops s !! ("loot_" +:+ pretty n)
    | Sweep now =>
        match activeLootDrops s !! ("loot_" +:+ pretty n) with
        | Some loot =>
            if Num.Qgeb now (expiresAt loot) then None else Some loot
        | None => None
        end
    end.
Proof.
  intros Hn. destruct c as [item q pos now|k|now]; simpl.
  - apply lookup_insert_ne. intros Heq%prefixed_pretty_inj. lia.
  - unfold collectLoot.
    destruct (activeLootDrops s !! k) as [loot|] eqn:Hk; simpl.
    + destruct (decide (k = _)) as [->|Hne];
        [apply lookup_delete_eq | by apply lookup_delete_ne].
    + destruct (decide (k = _)) as [->|Hne]; done.
  - apply lookup_cleanup.
Qed.

Lemma loot_run_keeps cs s (n : N) d t :
  (n < nextLootId s)%N →
  activeLootDrops s !! ("loot_" +:+ pretty n) = Some d →
  Forall (notCollected ("loot_" +:+ pretty n)) cs →
  Forall (sweptBy t) cs →
  t < expiresAt d →
  activeLootDrops (run s cs) !! ("loot_" +:+ pretty n) = Some d.
Proof.
  intros Hn Hd Hnc Hsw Ht. revert s Hn Hd Hsw.
  induction Hnc as [|c cs Hc _ IH]; intros s Hn Hd Hsw; [done|].
  apply Forall_cons in Hsw as [Hct Hsw]. simpl. apply IH; [| |done].
  - pose proof (loot_call_counter s c). lia.
  - rewrite loot_call_lookup by done. destruct c as [item q pos now|k|now];
      simpl in *.
    + done.
    + by rewrite decide_False.
    + rewrite Hd, Qgeb_false; [done|]. by eapply Qle_lt_trans.
Qed.

Lemma loot_run_stays_absent cs s (n : N) :
  (n < nextLootId s)%N →
  activeLootDrops s !! ("loot_" +:+ pretty n) = None →
  activeLootDrops (run s cs) !! ("loot_" +:+ pretty n) = None.
Proof.
  revert s. induction cs as [|c cs IH]; intros s Hn Hd; [done|].
  simpl. apply IH.
  - pose proof (loot_call_counter s c). lia.
  - rewrite loot_call_lookup by done. rewrite Hd.
    destruct c; [done | by case_decide | done].
Qed.

Lemma loot_run_same_or_absent cs s (n : N) d :
  (n < nextLootId s)%N →
  activeLootDrops s !! ("loot_" +:+ pretty n) = Some d →
  (n < nextLootId (run s cs))%N
  ∧ (activeLootDrops (run s cs) !! ("loot_" +:+ pretty n) = Some d
     ∨ activeLootDrops (run s cs) !! ("loot_" +:+ pretty n) = None).
Proof.
  revert s. induction cs as [|c cs IH]; intros s Hn Hd; [by auto|].
  simpl. pose proof (loot_call_counter s c) as Hc.
  destruct (activeLootDrops (call s c) !! ("loot_" +:+ pretty n))
    as [d'|] eqn:Hd'.
  - assert (d' = d) as ->.
    { pose proof Hd' as H'. rewrite loot_call_lookup in H' by done.
      rewrite Hd in H'. destruct c; [congruence | case_decide; congruence |].
      destruct (Num.Qgeb _ _); congruence. }
    apply IH; [lia | done].
  - split.
    + pose proof (loot_call_counter s c).
      assert (Hle : (nextLootId (call s c) <= nextLootId (run (call s c) cs))%N).
      { clear. generalize (call s c). induction cs as [|c' cs IH];
          intros s'; simpl; [lia|].
        pose proof (loot_call_counter s' c'). specialize (IH (call s' c')). lia. }
      lia.
    + right. apply loot_run_stays_absent; [lia | done].
Qed.

(** The life of one drop: present until the first sweep whose clock has
    reached its expiry, absent from then on. *)
Lemma loot_lifetime s0 itemId quantity position T :
  let d := (createLootDrop s0 itemId quantity position T).1 in
  let s1 := (createLootDrop s0 itemId quantity position T).2 in
  timestamp d = T ∧ expiresAt d = T + 60
  ∧ getActiveLootDrops s1 !! id d = Some d
  ∧ (∀ cs t,
       Forall (notCollected (id d)) cs → Forall (sweptBy t) cs →
       t < T + 60 →
       getActiveLootDrops (run s1 cs) !! id d = Some d)
  ∧ (∀ cs now cs',
       T + 60 <= now →
       getActiveLootDrops (run s1 (cs ++ Sweep now :: cs')) !! id d = None).
Proof.
  simpl. unfold getActiveLootDrops.
  set (d := {| id := "loot_" +:+ pretty (nextLootId s0); itemId := itemId;
               dropQuantity := quantity; position := position;
               timestamp := T; expiresAt := T + LOOT_EXPIRE_TIME |}).
  set (s1 := createLootModel _ d).
  assert (Hn : (nextLootId s0 < nextLootId s1)%N) by (simpl; lia).
  assert (Hd : activeLootDrops s1 !! ("loot_" +:+ pretty (nextLootId s0))
               = Some d) by apply lookup_insert_eq.
  split; [done|]. split; [done|]. split; [done|]. split.
  - intros cs t Hnc Hsw Ht. by eapply loot_run_keeps.
  - intros cs now cs' Hnow. unfold run. rewrite foldl_app. simpl.
    destruct (loot_run_same_or_absent cs s1 _ d Hn Hd) as [Hn' Hd'].
    apply loot_run_stays_absent.
    + pose proof (loot_call_counter (run s1 cs) (Sweep now)). simpl in *.
      unfold run in *. lia.
    + rewrite lookup_cleanup. fold (run s1 cs).
      destruct Hd' as [-> | ->]; [|done].
      by rewrite Qgeb_true.
Qed.

End LootStoreProofs.

(** ** MessageService *)

Module MessageServiceProofs.
Import Roblox MessageService MessageSpec StoreLemmas.
Local Open Scope Q_scope.

(** *** The bounded history *)

Lemma iter_shift {A} (n : nat) (l : list A) : Nat.iter n shift l = drop n l.
Proof.
  revert l. induction n as [|n IH]; intros l; [by rewrite drop_0|].
  rewrite Nat.iter_succ_r, IH. destruct l; simpl; [by rewrite drop_nil|done].
Qed.

Lemma length_mostRecent {A} (k : nat) (l : list A) :
  (length (mostRecent k l) ≤ k)%nat.
Proof. unfold mostRecent. rewrite length_drop. lia. Qed.

Lemma mostRecent_short {A} (k : nat) (l : list A) :
  (length l ≤ k)%nat → mostRecent k l = l.
Proof.
  intros Hl. unfold mostRecent. replace (length l - k)%nat with 0%nat by lia.
  apply drop_0.
Qed.

Lemma mostRecent_app {A} (k : nat) (l ms : list A) :
  mostRecent k (mostRecent k l ++ ms) = mostRecent k (l ++ ms).
Proof.
  unfold mostRecent. rewrite !length_app, length_drop.
  rewrite !drop_app, drop_drop, length_drop. f_equal; f_equal; lia.
Qed.

Lemma addToPlayerHistory_lookup s pid m (pid' : Z) :
  playerMessageHistory (addToPlayerHistory s pid m) !! pid'
  = if decide (pid = pid')
    then Some (mostRecent MAX_HISTORY_PER_PLAYER
                 (default [] (playerMessageHistory s !! pid) ++ [m]))
    else playerMessageHistory s !! pid'.
Proof.
  unfold addToPlayerHistory. simpl.
  destruct (decide (pid = pid')) as [<-|Hne];
    [|by rewrite lookup_insert_ne].
  rewrite lookup_insert_eq. f_equal.
  set (h := default [] (playerMessageHistory s !! pid) ++ [m]).
  destruct (decide (MAX_HISTORY_PER_PLAYER < length h)%nat) as [Hlt|Hge].
  - by rewrite iter_shift.
  - symmetry. apply mostRecent_short. lia.
Qed.

Lemma addToPlayerHistory_fields s pid m :
  messageQueue (addToPlayerHistory s pid m) = messageQueue s
  ∧ idsIssued (addToPlayerHistory s pid m) = idsIssued s.
Proof. done. Qed.

Lemma addToPlayerHistory_bounded s pid m :
  historiesBounded s → historiesBounded (addToPlayerHistory s pid m).
Proof.
  intros Hs pid' h. rewrite addToPlayerHistory_lookup.
  destruct (decide (pid = pid')) as [_|_]; [|apply Hs].
  intros [= <-]. apply length_mostRecent.
Qed.

Lemma broadcast_fields s (players : list Player) m :
  messageQueue
    (foldl (λ s player, addToPlayerHistory s (UserId player) m) s players)
  = messageQueue s
  ∧ idsIssued
      (foldl (λ s player, addToPlayerHistory s (UserId player) m) s players)
    = idsIssued s.
Proof.
  revert s. induction players as [|p ps IH]; intros s; [done|].
  simpl. destruct (IH (addToPlayerHistory s (UserId p) m)) as [-> ->]. done.
Qed.

Lemma broadcast_bounded s (players : list Player) m :
  historiesBounded s →
  historiesBounded
    (foldl (λ s player, addToPlayerHistory s (UserId player) m) s players).
Proof.
  revert s. induction players as [|p ps IH]; intros s Hs; [done|].
  simpl. by apply IH, addToPlayerHistory_bounded.
Qed.

(** A run of additions to one history leaves its most recent fifty. *)
Lemma history_after_adds s pid ms :
  (length (default [] (playerMessageHistory s !! pid))
   ≤ MAX_HISTORY_PER_PLAYER)%nat →
  default []
    (playerMessageHistory (foldl (λ s m, addToPlayerHistory s pid m) s ms)
       !! pid)
  = mostRecent MAX_HISTORY_PER_PLAYER
      (default [] (playerMessageHistory s !! pid) ++ ms).
Proof.
  revert s. induction ms as [|m ms IH]; intros s Hs; simpl.
  - rewrite app_nil_r. symmetry. by apply mostRecent_short.
  - rewrite IH.
    + rewrite addToPlayerHistory_lookup, decide_True by done. simpl.
      rewrite mostRecent_app, <- app_assoc. done.
    + rewrite addToPlayerHistory_lookup, decide_True by done. simpl.
      apply length_mostRecent.
Qed.

Section Proofs.

Variable generateUniqueId : N → string.
Variable MessageMetaRecord : SeverityKey → option Color3.

Local Abbreviation createMessage :=
  (createMessage generateUniqueId MessageMetaRecord).
Local Abbreviation sendMessageToPlayer :=
  (sendMessageToPlayer generateUniqueId MessageMetaRecord).
Local Abbreviation broadcastMessage :=
  (broadcastMessage generateUniqueId MessageMetaRecord).
Local Abbreviation call := (call generateUniqueId MessageMetaRecord).
Local Abbreviation run := (run generateUniqueId MessageMetaRecord).

Lemma call_bounded s c : historiesBounded s → historiesBounded (call s c).
Proof.
  intros Hs. destruct c as [p c t sev now|ps c t sev now|k|p|p|now]; simpl.
  - by apply addToPlayerHistory_bounded.
  - by apply broadcast_bounded.
  - done.
  - intros pid h Hh. simpl in Hh.
    apply lookup_delete_Some in Hh as [_ Hh]. by eapply Hs.
  - intros pid h Hh. simpl in Hh.
    apply lookup_delete_Some in Hh as [_ Hh]. by eapply Hs.
  - done.
Qed.

Lemma run_bounded cs s : historiesBounded s → historiesBounded (run s cs).
Proof.
  revert s. induction cs as [|c cs IH]; intros s Hs; [done|].
  simpl. by apply IH, call_bounded.
Qed.

(** C7: after any sequence of calls from the empty service every
    per-recipient history holds at most 50 messages; a send appends
    its message and keeps the 50 most recent, so that a send to a full
    history evicts exactly its oldest message; and any run of
    additions leaves the 50 most recent of what was there and what
    was added, in order. *)
Theorem C7_history_bound :
  (∀ cs (pid : Z) h,
     playerMessageHistory (run empty cs) !! pid = Some h →
     (length h ≤ 50)%nat)
  ∧ (∀ s player content title severity now,
       let old := getPlayerMessageHistory s player in
       let sent := sendMessageToPlayer s player content title severity now in
       ∃ msg,
         id msg = sent.1 ∧ MessageService.content msg = content
         ∧ getPlayerMessageHistory sent.2 player
           = mostRecent 50 (old ++ [msg])
         ∧ (length (getPlayerMessageHistory sent.2 player) ≤ 50)%nat
         ∧ (length old = 50%nat →
            getPlayerMessageHistory sent.2 player = tail old ++ [msg]))
  ∧ (∀ s (pid : Z) ms,
       (length (default [] (playerMessageHistory s !! pid)) ≤ 50)%nat →
       default []
         (playerMessageHistory
            (foldl (λ s m, addToPlayerHistory s pid m) s ms) !! pid)
       = mostRecent 50 (default [] (playerMessageHistory s !! pid) ++ ms)).
Proof.
  split; [|split].
  - intros cs pid h Hh. eapply (run_bounded cs empty); [|exact Hh].
    intros ? ?. simpl. by rewrite lookup_empty.
  - intros s player c t sev now. simpl.
    exists {| id := generateUniqueId (idsIssued s); timestamp := now;
              title := t; content := c; severity := sev;
              textColor := default (255, 255, 255)%Z
                             (MessageMetaRecord sev) |}.
    split; [reflexivity|]. split; [reflexivity|].
    unfold getPlayerMessageHistory.
    rewrite addToPlayerHistory_lookup, decide_True by done. simpl.
    split; [reflexivity|]. split; [apply length_mostRecent|].
    intros Hlen. unfold mostRecent, MAX_HISTORY_PER_PLAYER.
    rewrite length_app, Hlen. simpl.
    by destruct (default [] (playerMessageHistory s !! UserId player)).
  - intros s pid ms Hlen. by apply history_after_adds.
Qed.

(** *** The queue *)

Lemma cleanupPlayer_lookup s p (k : string) :
  messageQueue (cleanupPlayer s p) !! k
  = match messageQueue s !! k with
    | Some q => if bool_decide (recipientId q = Some (UserId p))
                then None else Some q
    | None => None
    end.
Proof.
  apply (lookup_sweep
           (λ q, bool_decide (recipientId q = Some (UserId p)))).
Qed.

Lemma cleanupExpired_lookup s now (k : string) :
  messageQueue (cleanupExpiredMessages s now) !! k
  = match messageQueue s !! k with
    | Some q => if Num.Qgeb now (expiresAt q) then None else Some q
    | None => None
    end.
Proof. apply (lookup_sweep (λ q, Num.Qgeb now (expiresAt q))). Qed.

Lemma queue_call_counter s c : (idsIssued s <= idsIssued (call s c))%N.
Proof.
  destruct c as [p c t sev now|ps c t sev now|k|p|p|now]; simpl;
    try lia.
  rewrite (proj2 (broadcast_fields _ ps _)). simpl. lia.
Qed.

Lemma queue_run_counter cs s : (idsIssued s <= idsIssued (run s cs))%N.
Proof.
  revert s. induction cs as [|c cs IH]; intros s; simpl; [lia|].
  pose proof (queue_call_counter s c). specialize (IH (call s c)). lia.
Qed.

Hypothesis unique_ids : Inj (=) (=) generateUniqueId.

Lemma queue_call_lookup s c (n : N) :
  (n < idsIssued s)%N →
  messageQueue (call s c) !! generateUniqueId n
  = match c with
    | Cancel k =>
        if decide (k = generateUniqueId n) then None
        else messageQueue s !! generateUniqueId n
    | CleanupPlayer p =>
        match messageQueue s !! generateUniqueId n with
        | Some q => if bool_decide (recipientId q = Some (UserId p))
                    then None else Some q
        | None => None
        end
    | Sweep now =>
        match messageQueue s !! generateUniqueId n with
        | Some q => if Num.Qgeb now (expiresAt q) then None else Some q
        | None => None
        end
    | _ => messageQueue s !! generateUniqueId n
    end.
Proof.
  intros Hn. destruct c as [p c t sev now|ps c t sev now|k|p|p|now]; simpl.
  - apply lookup_insert_ne. intros Heq%unique_ids. lia.
  - rewrite (proj1 (broadcast_fields _ ps _)). simpl.
    apply lookup_insert_ne. intros Heq%unique_ids. lia.
  - destruct (decide (k = _)) as [->|Hne];
      [apply lookup_delete_eq | by apply lookup_delete_ne].
  - done.
  - apply cleanupPlayer_lookup.
  - apply cleanupExpired_lookup.
Qed.

Lemma queue_run_keeps cs s (n : N) q t :
  (n < idsIssued s)%N →
  messageQueue s !! generateUniqueId n = Some q →
  Forall (notRemoved (generateUniqueId n) (recipientId q)) cs →
  Forall (sweptBy t) cs →
  t < expiresAt q →
  messageQueue (run s cs) !! generateUniqueId n = Some q.
Proof.
  intros Hn Hq Hnr Hsw Ht. revert s Hn Hq Hsw.
  induction Hnr as [|c cs Hc _ IH]; intros s Hn Hq Hsw; [done|].
  apply Forall_cons in Hsw as [Hct Hsw]. simpl. apply IH; [| |done].
  - pose proof (queue_call_counter s c). lia.
  - rewrite queue_call_lookup by done.
    destruct c as [p c t' sev now|ps c t' sev now|k|p|p|now];
      simpl in *; try done.
    + by rewrite decide_False.
    + rewrite Hq. by rewrite bool_decide_eq_false_2.
    + rewrite Hq, Qgeb_false; [done|]. by eapply Qle_lt_trans.
Qed.

Lemma queue_run_stays_absent cs s (n : N) :
  (n < idsIssued s)%N →
  messageQueue s !! generateUniqueId n = None →
  messageQueue (run s cs) !! generateUniqueId n = None.
Proof.
  revert s. induction cs as [|c cs IH]; intros s Hn Hq; [done|].
  simpl. apply IH.
  - pose proof (queue_call_counter s c). lia.
  - rewrite queue_call_lookup by done. rewrite Hq.
    destruct c; try done. by case_decide.
Qed.

Lemma queue_run_same_or_absent cs s (n : N) q :
  (n < idsIssued s)%N →
  messageQueue s !! generateUniqueId n = Some q →
  messageQueue (run s cs) !! generateUniqueId n = Some q
  ∨ messageQueue (run s cs) !! generateUniqueId n = None.
Proof.
  revert s. induction cs as [|c cs IH]; intros s Hn Hq; [by auto|].
  simpl. pose proof (queue_call_counter s c) as Hc.
  destruct (messageQueue (call s c) !! generateUniqueId n)
    as [q'|] eqn:Hq'.
  - assert (q' = q) as ->.
    { pose proof Hq' as H'. rewrite queue_call_lookup in H' by done.
      rewrite Hq in H'.
      destruct c; try congruence;
        [case_decide; congruence
        | destruct (bool_decide _); congruence
        | destruct (Num.Qgeb _ _); congruence]. }
    apply IH; [lia | done].
  - right. apply queue_run_stays_absent; [lia | done].
Qed.

(** The life of a queued message stored in [s] under an id that was
    issued before. *)
Lemma queued_lifetime s (n : N) q :
  (n < idsIssued s)%N →
  messageQueue s !! generateUniqueId n = Some q →
  (∀ cs t,
     Forall (notRemoved (generateUniqueId n) (recipientId q)) cs →
     Forall (sweptBy t) cs → t < expiresAt q →
     getMessage (run s cs) (generateUniqueId n) = Some q)
  ∧ (∀ cs now cs',
       expiresAt q <= now →
       getMessage (run s (cs ++ Sweep now :: cs')) (generateUniqueId n)
       = None).
Proof.
  intros Hn Hq. unfold getMessage. split.
  - intros cs t Hnr Hsw Ht. by eapply queue_run_keeps.
  - intros cs now cs' Hnow. unfold MessageService.run.
    rewrite foldl_app. simpl. apply queue_run_stays_absent.
    + pose proof (queue_run_counter cs s). simpl.
      unfold MessageService.run in *. lia.
    + rewrite cleanupExpired_lookup.
      destruct (queue_run_same_or_absent cs s n q Hn Hq) as [Hs | Hs];
        unfold MessageService.run in Hs; rewrite Hs; [|done].
      by rewrite Qgeb_true.
Qed.

Lemma message_lifetime s0 player content title severity T :
  let i := (sendMessageToPlayer s0 player content title severity T).1 in
  let s1 := (sendMessageToPlayer s0 player content title severity T).2 in
  ∃ q,
    getMessage s1 i = Some q ∧ id (message q) = i
    ∧ timestamp (message q) = T ∧ expiresAt q = T + 300
    ∧ recipientId q = Some (UserId player)
    ∧ (∀ cs t,
         Forall (notRemoved i (recipientId q)) cs →
         Forall (sweptBy t) cs → t < T + 300 →
         getMessage (run s1 cs) i = Some q)
    ∧ (∀ cs now cs',
         T + 300 <= now →
         getMessage (run s1 (cs ++ Sweep now :: cs')) i = None).
Proof.
  simpl.
  exists {| message :=
              {| id := generateUniqueId (idsIssued s0); timestamp := T;
                 title := title; content := content; severity := severity;
                 textColor := default (255, 255, 255)%Z
                                (MessageMetaRecord severity) |};
            recipientId := Some (UserId player);
            expiresAt := T + MESSAGE_EXPIRE_TIME |}.
  split; [apply lookup_insert_eq|].
  do 4 (split; [reflexivity|]).
  apply queued_lifetime; [simpl; lia | apply lookup_insert_eq].
Qed.

Lemma broadcast_lifetime s0 connected content title severity T :
  let i := (broadcastMessage s0 connected content title severity T).1 in
  let s1 := (broadcastMessage s0 connected content title severity T).2 in
  ∃ q,
    getMessage s1 i = Some q ∧ id (message q) = i
    ∧ timestamp (message q) = T ∧ expiresAt q = T + 300
    ∧ recipientId q = None
    ∧ (∀ cs t,
         Forall (notRemoved i (recipientId q)) cs →
         Forall (sweptBy t) cs → t < T + 300 →
         getMessage (run s1 cs) i = Some q)
    ∧ (∀ cs now cs',
         T + 300 <= now →
         getMessage (run s1 (cs ++ Sweep now :: cs')) i = None).
Proof.
  simpl.
  set (m := {| id := generateUniqueId (idsIssued s0); timestamp := T;
               title := title; content := content; severity := severity;
               textColor := default (255, 255, 255)%Z
                              (MessageMetaRecord severity) |}).
  set (q := {| message := m; recipientId := None;
               expiresAt := T + MESSAGE_EXPIRE_TIME |}).
  exists q.
  assert (Hq : ∀ s, messageQueue s = <[id m := q]> (messageQueue s0) →
               messageQueue
                 (foldl (λ s player, addToPlayerHistory s (UserId player) m)
                    s connected) !! generateUniqueId (idsIssued s0)
               = Some q).
  { intros s Hs. rewrite (proj1 (broadcast_fields _ connected _)), Hs.
    apply lookup_insert_eq. }
  split; [by apply Hq|]. do 4 (split; [reflexivity|]).
  apply queued_lifetime; [|by apply Hq].
  rewrite (proj2 (broadcast_fields _ connected _)). simpl. lia.
Qed.

End Proofs.

Lemma C7_history_bound_witness :
  length
    (getPlayerMessageHistory
       (run Samples.generateUniqueId Samples.MessageMetaRecord empty
          ((λ n : nat, SendToPlayer Samples.alice (pretty n) "" "info" 0)
             <$> seq 1 51))
       Samples.alice) ≤ 50.
Proof.
  unfold getPlayerMessageHistory.
  destruct (playerMessageHistory _ !! UserId Samples.alice) as [h|] eqn:Hh.
  - exact (proj1 (C7_history_bound Samples.generateUniqueId
                    Samples.MessageMetaRecord) _ _ _ Hh).
  - simpl. lia.
Defined.

Example fifty_first_send_evicts_the_oldest :
  let sends :=
    (λ n : nat, SendToPlayer Samples.alice (pretty n) "" "info" 0)
      <$> seq 1 51 in
  let history :=
    getPlayerMessageHistory
      (run Samples.generateUniqueId Samples.MessageMetaRecord empty sends)
      Samples.alice in
  length history = 50%nat
  ∧ content <$> head history = Some "2"
  ∧ content <$> last history = Some "51".
Proof. vm_compute. repeat split. Qed.

End MessageServiceProofs.

(** ** The two timed stores together *)

Module TimedEntityStoreProofs.
Import Roblox StoreLemmas.
Local Open Scope Q_scope.

(** C6: a loot drop created at time [T] (60 s to live) and a message
    queued at time [T] (300 s to live, sent to one player or broadcast)
    are returned by the lookup of their store after any calls that do
    not remove them explicitly, as long as the clock of every sweep so
    far reads at most some [t] before the expiry; and they are absent
    after any sweep whose clock has reached the expiry, whatever calls
    come before and after it.  The ids of messages are assumed distinct. *)
Theorem C6_entry_lifetime (generateUniqueId : N → string)
    (MessageMetaRecord : string → option MessageService.Color3) :
  Inj (=) (=) generateUniqueId →
  (∀ s0 itemId quantity position T,
     let d := (LootService.createLootDrop s0 itemId quantity position T).1 in
     let s1 := (LootService.createLootDrop s0 itemId quantity position T).2 in
     LootService.timestamp d = T ∧ LootService.expiresAt d = T + 60
     ∧ LootService.getActiveLootDrops s1 !! LootService.id d = Some d
     ∧ (∀ cs t,
          Forall (LootSpec.notCollected (LootService.id d)) cs →
          Forall (LootSpec.sweptBy t) cs →
          t < T + 60 →
          LootService.getActiveLootDrops (LootService.run s1 cs)
            !! LootService.id d = Some d)
     ∧ (∀ cs now cs',
          T + 60 <= now →
          LootService.getActiveLootDrops
            (LootService.run s1 (cs ++ LootService.Sweep now :: cs'))
            !! LootService.id d = None))
  ∧ (∀ s0 player content title severity T,
       let sent :=
         MessageService.sendMessageToPlayer generateUniqueId
           MessageMetaRecord s0 player content title severity T in
       ∃ q,
         MessageService.getMessage sent.2 sent.1 = Some q
         ∧ MessageService.timestamp (MessageService.message q) = T
         ∧ MessageService.expiresAt q = T + 300
         ∧ MessageService.recipientId q = Some (UserId player)
         ∧ (∀ cs t,
              Forall (MessageSpec.notRemoved sent.1
                        (MessageService.recipientId q)) cs →
              Forall (MessageSpec.sweptBy t) cs →
              t < T + 300 →
              MessageService.getMessage
                (MessageService.run generateUniqueId MessageMetaRecord
                   sent.2 cs) sent.1 = Some q)
         ∧ (∀ cs now cs',
              T + 300 <= now →
              MessageService.getMessage
                (MessageService.run generateUniqueId MessageMetaRecord
                   sent.2 (cs ++ MessageService.Sweep now :: cs')) sent.1
              = None))
  ∧ (∀ s0 connected content title severity T,
       let sent :=
         MessageService.broadcastMessage generateUniqueId
           MessageMetaRecord s0 connected content title severity T in
       ∃ q,
         MessageService.getMessage sent.2 sent.1 = Some q
         ∧ MessageService.timestamp (MessageService.message q) = T
         ∧ MessageService.expiresAt q = T + 300
         ∧ MessageService.recipientId q = None
         ∧ (∀ cs t,
              Forall (MessageSpec.notRemoved sent.1
                        (MessageService.recipientId q)) cs →
              Forall (MessageSpec.sweptBy t) cs →
              t < T + 300 →
              MessageService.getMessage
                (MessageService.run generateUniqueId MessageMetaRecord
                   sent.2 cs) sent.1 = Some q)
         ∧ (∀ cs now cs',
              T + 300 <= now →
              MessageService.getMessage
                (MessageService.run generateUniqueId MessageMetaRecord
                   sent.2 (cs ++ MessageService.Sweep now :: cs')) sent.1
              = None)).
Proof.
  intros Hinj. split; [|split].
  - intros s0 itemId quantity position T.
    apply LootStoreProofs.loot_lifetime.
  - intros s0 player content title severity T.
    destruct (MessageServiceProofs.message_lifetime generateUniqueId
                MessageMetaRecord Hinj s0 player content title severity T)
      as (q & H1 & _ & H3 & H4 & H5 & H6 & H7).
    exists q. auto 10.
  - intros s0 connected content title severity T.
    destruct (MessageServiceProofs.broadcast_lifetime generateUniqueId
                MessageMetaRecord Hinj s0 connected content title severity T)
      as (q & H1 & _ & H3 & H4 & H5 & H6 & H7).
    exists q. auto 10.
Qed.

Lemma sample_ids_distinct : Inj (=) (=) Samples.generateUniqueId.
Proof. intros a b. apply prefixed_pretty_inj. Qed.

Lemma C6_entry_lifetime_witness :
  Inj (=) (=) Samples.generateUniqueId
  ∧ LootService.getActiveLootDrops
      (LootService.run
         (LootService.createLootDrop LootService.empty "gold" 3
            Samples.origin 0).2
         [LootService.Sweep 50])
      !! LootService.id
           (LootService.createLootDrop LootService.empty "gold" 3
              Samples.origin 0).1
    = Some (LootService.createLootDrop LootService.empty "gold" 3
              Samples.origin 0).1
  ∧ LootService.getActiveLootDrops
      (LootService.run
         (LootService.createLootDrop LootService.empty "gold" 3
            Samples.origin 0).2
         ([LootService.Sweep 50] ++ LootService.Sweep 60 :: []))
      !! LootService.id
           (LootService.createLootDrop LootService.empty "gold" 3
              Samples.origin 0).1
    = None.
Proof.
  split; [exact sample_ids_distinct|].
  destruct (C6_entry_lifetime Samples.generateUniqueId
              Samples.MessageMetaRecord sample_ids_distinct)
    as (Hloot & _ & _).
  destruct (Hloot LootService.empty "gold" 3%Z Samples.origin 0)
    as (_ & _ & _ & Hkeep & Hgone).
  split.
  - apply (Hkeep [LootService.Sweep 50] 50).
    + repeat constructor.
    + repeat constructor. simpl. discriminate.
    + reflexivity.
  - apply Hgone. discriminate.
Defined.

Example loot_sweeps :
  let s1 := LootService.run LootService.empty
              [LootService.Create "gold" 3 Samples.origin 0;
               LootService.Create "gem" 1 Samples.origin 15] in
  dom (LootService.activeLootDrops (LootService.run s1 [LootService.Sweep 50]))
  = {["loot_1"; "loot_2"]}
  ∧ dom (LootService.activeLootDrops
           (LootService.run s1 [LootService.Sweep 60]))
    = {["loot_2"]}
  ∧ LootService.lootModels (LootService.run s1 [LootService.Sweep 60])
    = {["loot_2"]}
  ∧ LootService.activeLootDrops (LootService.run s1 [LootService.Sweep 75])
    = ∅.
Proof. vm_compute. repeat split. Qed.

Example message_sweeps :
  let run := MessageService.run Samples.generateUniqueId
               Samples.MessageMetaRecord in
  let s1 := run MessageService.empty
              [MessageService.SendToPlayer Samples.alice "hello" "Welcome"
                 "info" 10] in
  is_Some (MessageService.getMessage
             (run s1 [MessageService.Sweep 309]) "msg_0")
  ∧ MessageService.getMessage (run s1 [MessageService.Sweep 310]) "msg_0"
    = None
  ∧ length (MessageService.getPlayerMessageHistory
              (run s1 [MessageService.Sweep 310]) Samples.alice) = 1%nat.
Proof. vm_compute. repeat split. eexists. reflexivity. Qed.

End TimedEntityStoreProofs.

(** ** ResourceService *)

Module ResourceServiceProofs.
Import Roblox ResourceService ResourceSpec.
Local Open Scope Q_scope.

Lemma clamp_range (v mx : Q) :
  0 <= mx →
  0 <= Num.math_max 0 (Num.math_min v mx)
  ∧ Num.math_max 0 (Num.math_min v mx) <= mx.
Proof.
  intros Hmx. unfold Num.math_max, Num.math_min.
  destruct (Qle_bool v mx) eqn:Hv.
  - apply Qle_bool_iff in Hv.
    destruct (Qle_bool 0 v) eqn:H0.
    + apply Qle_bool_iff in H0. done.
    + split; [apply Qle_refl | done].
  - destruct (Qle_bool 0 mx) eqn:H0.
    + split; [done | apply Qle_refl].
    + split; [apply Qle_refl | done].
Qed.


(** *** Initialisation *)

Lemma initialResources_bounds DEFAULT_RESOURCES keys acc :
  (∀ k c m, DEFAULT_RESOURCES k = Some (c, m) → 0 <= c ∧ c <= m) →
  tablesInRange acc →
  tablesInRange (initialResources DEFAULT_RESOURCES keys acc).
Proof.
  intros Hd. revert acc. induction keys as [|key keys IH]; intros acc Hacc;
    [done|].
  simpl. apply IH. destruct (DEFAULT_RESOURCES key) as [[c m]|] eqn:Hk;
    [|done].
  destruct (Hd _ _ _ Hk) as [Hc Hm]. destruct Hacc as [H1 H2]. split; simpl.
  - intros k c'. destruct (decide (key = k)) as [<-|Hne].
    + rewrite !lookup_insert_eq. intros [= <-]. eauto.
    + rewrite !lookup_insert_ne by done. apply H1.
  - intros k m'. destruct (decide (key = k)) as [<-|Hne].
    + rewrite lookup_insert_eq. intros [= <-]. by eapply Qle_trans.
    + rewrite lookup_insert_ne by done. apply H2.
Qed.

Lemma initializePlayerResources_bounds KEYS DEFAULT_RESOURCES s p now :
  (∀ k c m, DEFAULT_RESOURCES k = Some (c, m) → 0 <= c ∧ c <= m) →
  inRange s → ceilingsNonneg s →
  inRange (initializePlayerResources KEYS DEFAULT_RESOURCES s p now)
  ∧ ceilingsNonneg (initializePlayerResources KEYS DEFAULT_RESOURCES s p now).
Proof.
  intros Hd Hr Hc. unfold initializePlayerResources.
  pose proof (initialResources_bounds DEFAULT_RESOURCES KEYS (∅, ∅) Hd) as Hi.
  destruct (initialResources _ _ _) as [rs ms].
  destruct Hi as [H1 H2]; [split; intros ? ?; simpl; by rewrite lookup_empty|].
  split.
  - intros pid pd key cur. simpl.
    destruct (decide (UserId p = pid)) as [<-|Hne].
    + rewrite lookup_insert_eq. intros [= <-]. simpl. apply H1.
    + rewrite lookup_insert_ne by done. apply Hr.
  - intros pid pd key mx. simpl.
    destruct (decide (UserId p = pid)) as [<-|Hne].
    + rewrite lookup_insert_eq. intros [= <-]. simpl. apply H2.
    + rewrite lookup_insert_ne by done. apply Hc.
Qed.

Lemma empty_bounds : inRange empty ∧ ceilingsNonneg empty.
Proof. split; intros pid pd ? ?; simpl; by rewrite lookup_empty. Qed.

Section Proofs.

Variable ResourceMeta : Type.
Variable ResourceMetaRecord : ResourceKey → option ResourceMeta.

Local Abbreviation onResourceChanged := (onResourceChanged ResourceMeta ResourceMetaRecord).
Local Abbreviation setPlayerResource := (setPlayerResource ResourceMeta ResourceMetaRecord).
Local Abbreviation mutate := (mutate ResourceMeta ResourceMetaRecord).

Lemma playerResources_onResourceChanged s p k v mx :
  playerResources (onResourceChanged s p k v mx) = playerResources s.
Proof.
  unfold onResourceChanged. destruct (getResourceMeta _ _ k); [|done].
  destruct (Qle_bool v 0), (div_le v mx (1 # 5)); done.
Qed.


(** What a successful [setPlayerResource] leaves behind. *)
Lemma setPlayerResource_true s p k v now s' :
  setPlayerResource s p k v now = (true, s') →
  ∃ pd mx,
    playerResources s !! UserId p = Some pd
    ∧ maxResources pd !! k = Some mx
    ∧ playerResources s'
      = <[UserId p :=
            {| playerId := playerId pd;
               resources :=
                 <[k := Num.math_max 0 (Num.math_min v mx)]> (resources pd);
               maxResources := maxResources pd;
               lastUpdated := now |}]> (playerResources s)
    ∧ s' = onResourceChanged
             {| playerResources :=
                  <[UserId p :=
                      {| playerId := playerId pd;
                         resources :=
                           <[k := Num.math_max 0 (Num.math_min v mx)]>
                             (resources pd);
                         maxResources := maxResources pd;
                         lastUpdated := now |}]> (playerResources s);
                events := events s |}
             p k (Num.math_max 0 (Num.math_min v mx)) mx.
Proof.
  unfold ResourceService.setPlayerResource.
  destruct (playerResources s !! UserId p) as [pd|] eqn:Hpd;
    [|discriminate].
  destruct (maxResources pd !! k) as [mx|] eqn:Hmx; [|discriminate].
  intros [= <-]. exists pd, mx.
  rewrite playerResources_onResourceChanged. auto.
Qed.

Lemma setPlayerResource_false s p k v now s' :
  setPlayerResource s p k v now = (false, s') → s' = s.
Proof.
  unfold ResourceService.setPlayerResource.
  destruct (playerResources s !! UserId p) as [pd|]; [|congruence].
  destruct (maxResources pd !! k) as [mx|]; [|congruence].
  discriminate.
Qed.

(** Every mutation but [SetMax] is one [setPlayerResource], or fails
    and leaves the state as it was. *)
Lemma mutate_as_set s m now :
  isSetMax m = false →
  (∃ v, mutate s m now
        = setPlayerResource s (mutationPlayer m) (mutationKey m) v now)
  ∨ mutate s m now = (false, s).
Proof.
  destruct m as [p k v|p k d|p k a|p k|p k mx]; simpl; intros Hm;
    try discriminate.
  - left. by exists v.
  - unfold modifyPlayerResource.
    destruct (getPlayerResource s p k) as [c|]; [left; eauto | by right].
  - unfold consumeResource, modifyPlayerResource, hasEnoughResource.
    destruct (getPlayerResource s p k) as [c|]; [|by right].
    destruct (Num.Qgeb c a); [left; eauto | by right].
  - unfold restoreResource.
    destruct (getPlayerMaxResource s p k) as [c|]; [left; eauto | by right].
Qed.

Lemma setPlayerResource_bounds s p k v now :
  inRange s → ceilingsNonneg s →
  inRange (setPlayerResource s p k v now).2
  ∧ ceilingsNonneg (setPlayerResource s p k v now).2.
Proof.
  intros Hr Hc.
  destruct (setPlayerResource s p k v now) as [[] s'] eqn:Hs; simpl;
    [|apply setPlayerResource_false in Hs as ->; done].
  apply setPlayerResource_true in Hs as (pd & mx & Hpd & Hmx & Hmap & _).
  split.
  - intros pid pd' key cur. rewrite Hmap.
    destruct (decide (UserId p = pid)) as [<-|Hne].
    + rewrite lookup_insert_eq. intros [= <-]. simpl.
      destruct (decide (k = key)) as [<-|Hk].
      * rewrite lookup_insert_eq. intros [= <-]. exists mx.
        split; [done|]. apply clamp_range. by eapply Hc.
      * rewrite lookup_insert_ne by done. by eapply Hr.
    + rewrite lookup_insert_ne by done. apply Hr.
  - intros pid pd' key mx'. rewrite Hmap.
    destruct (decide (UserId p = pid)) as [<-|Hne].
    + rewrite lookup_insert_eq. intros [= <-]. simpl. by eapply Hc.
    + rewrite lookup_insert_ne by done. apply Hc.
Qed.

Lemma Qgtb_true (a b : Q) : Num.Qgtb a b = true ↔ b < a.
Proof.
  unfold Num.Qgtb. rewrite negb_true_iff, <- not_true_iff_false,
    Qle_bool_iff. split; [apply Qnot_le_lt | apply Qlt_not_le].
Qed.

Lemma Qgtb_false (a b : Q) : Num.Qgtb a b = false ↔ a <= b.
Proof.
  unfold Num.Qgtb. rewrite negb_false_iff. apply Qle_bool_iff.
Qed.

Lemma setPlayerMaxResource_bounds s p k mx now :
  inRange s → ceilingsNonneg s → 0 <= mx →
  inRange (setPlayerMaxResource s p k mx now).2
  ∧ ceilingsNonneg (setPlayerMaxResource s p k mx now).2.
Proof.
  intros Hr Hc Hmx. unfold setPlayerMaxResource.
  destruct (playerResources s !! UserId p) as [pd|] eqn:Hpd; [|done].
  simpl. split.
  - intros pid pd' key cur. simpl.
    destruct (decide (UserId p = pid)) as [<-|Hne].
    + rewrite lookup_insert_eq. intros [= <-]. simpl.
      destruct (decide (k = key)) as [<-|Hk].
      * rewrite lookup_insert_eq.
        destruct (resources pd !! k) as [c|] eqn:Hcur; [|by rewrite Hcur].
        destruct (Num.Qgtb c mx) eqn:Hgt.
        -- rewrite lookup_insert_eq. intros [= <-]. exists mx.
           split; [done|]. split; [done | apply Qle_refl].
        -- rewrite Hcur. intros [= <-]. exists mx. split; [done|].
           apply Qgtb_false in Hgt. split; [|done].
           by destruct (Hr _ _ _ _ Hpd Hcur) as (? & _ & ? & _).
      * rewrite lookup_insert_ne by done. intros Hcur.
        apply (Hr _ _ _ _ Hpd).
        destruct (resources pd !! k) as [c|]; [|done].
        destruct (Num.Qgtb c mx); [|done].
        by rewrite lookup_insert_ne in Hcur.
    + rewrite lookup_insert_ne by done. apply Hr.
  - intros pid pd' key mx'. simpl.
    destruct (decide (UserId p = pid)) as [<-|Hne].
    + rewrite lookup_insert_eq. intros [= <-]. simpl.
      destruct (decide (k = key)) as [<-|Hk].
      * rewrite lookup_insert_eq. by intros [= <-].
      * rewrite lookup_insert_ne by done. by eapply Hc.
    + rewrite lookup_insert_ne by done. apply Hc.
Qed.

(** C2 (amended): from a state in which every stored value lies between
    0 and its ceiling and every ceiling is non-negative, each mutation
    (set, modify, consume, restoreToMax, and setMax with a non-negative
    new ceiling) leads to such a state again, for every player and key;
    a setMax below the stored current stores the new ceiling as current. *)
Theorem C2_bounds_preserved s m now :
  inRange s → ceilingsNonneg s →
  (∀ p k mx, m = SetMax p k mx → 0 <= mx) →
  inRange (mutate s m now).2 ∧ ceilingsNonneg (mutate s m now).2
  ∧ (∀ p k mx cur,
       m = SetMax p k mx → getPlayerResource s p k = Some cur → mx < cur →
       getPlayerResource (mutate s m now).2 p k = Some mx
       ∧ getPlayerMaxResource (mutate s m now).2 p k = Some mx).
Proof.
  intros Hr Hc Hmax.
  assert (Hinv : inRange (mutate s m now).2
                 ∧ ceilingsNonneg (mutate s m now).2).
  { destruct (isSetMax m) eqn:Hm.
    - destruct m; try discriminate. simpl.
      apply setPlayerMaxResource_bounds; eauto.
    - destruct (mutate_as_set s m now Hm) as [[v ->] | ->]; [|done].
      by apply setPlayerResource_bounds. }
  destruct Hinv as [H1 H2]. split; [done|]. split; [done|].
  intros p k mx cur -> Hcur Hlt. simpl.
  unfold getPlayerResource, getPlayerMaxResource, setPlayerMaxResource in *.
  destruct (playerResources s !! UserId p) as [pd|] eqn:Hpd;
    [|discriminate].
  simpl in *. rewrite lookup_insert_eq. simpl. rewrite Hcur.
  apply Qgtb_true in Hlt. rewrite Hlt. by rewrite !lookup_insert_eq.
Qed.


End Proofs.

(** *** The sample ledger *)

Lemma ledger_bounds : inRange Samples.ledger ∧ ceilingsNonneg Samples.ledger.
Proof.
  apply initializePlayerResources_bounds; try apply empty_bounds.
  intros k c m. unfold Samples.DEFAULT_RESOURCES.
  repeat (destruct (String.eqb k _)); intros H; try discriminate;
    injection H as <- <-; split; discriminate.
Qed.

Example consume_30_then_70 :
  let s1 := (consumeResource _ Samples.ResourceMetaRecord Samples.ledger
               Samples.alice "Health" 30 1).2 in
  let s2 := (consumeResource _ Samples.ResourceMetaRecord s1
               Samples.alice "Health" 70 2).2 in
  (∃ c, getPlayerResource s1 Samples.alice "Health" = Some c ∧ c == 70)
  ∧ events s1 = []
  ∧ (∃ c, getPlayerResource s2 Samples.alice "Health" = Some c ∧ c == 0)
  ∧ events s2 = [resourceDepleted 7 "Health"; resourceLow 7 "Health"].
Proof.
  vm_compute. repeat split; eexists; split; reflexivity.
Qed.

Lemma C2_bounds_witness :
  inRange Samples.ledger ∧ ceilingsNonneg Samples.ledger
  ∧ (∀ p k mx, Consume Samples.alice "Health" 30 = SetMax p k mx → 0 <= mx)
  ∧ inRange (mutate _ Samples.ResourceMetaRecord Samples.ledger
               (Consume Samples.alice "Health" 30) 1).2.
Proof.
  assert (H3 : ∀ p k mx,
             Consume Samples.alice "Health" 30 = SetMax p k mx → 0 <= mx)
    by discriminate.
  split; [apply ledger_bounds|]. split; [apply ledger_bounds|].
  split; [exact H3|].
  exact (proj1 (C2_bounds_preserved _ Samples.ResourceMetaRecord
                  Samples.ledger (Consume Samples.alice "Health" 30) 1
                  (proj1 ledger_bounds) (proj2 ledger_bounds) H3)).
Defined.

(** C2 as stated fails: a negative new ceiling is stored as it is and the
    current value is cut down to it, below 0. *)
Lemma C2_negative_ceiling_counterexample :
  inRange Samples.ledger
  ∧ getPlayerResource
      (mutate _ Samples.ResourceMetaRecord Samples.ledger
         (SetMax Samples.alice "Health" (-5)) 1).2 Samples.alice "Health"
    = Some (-5)
  ∧ getPlayerMaxResource
      (mutate _ Samples.ResourceMetaRecord Samples.ledger
         (SetMax Samples.alice "Health" (-5)) 1).2 Samples.alice "Health"
    = Some (-5)
  ∧ ¬ 0 <= -5
  ∧ ¬ inRange (mutate _ Samples.ResourceMetaRecord Samples.ledger
                 (SetMax Samples.alice "Health" (-5)) 1).2.
Proof.
  assert (Hc : getPlayerResource
                 (mutate _ Samples.ResourceMetaRecord Samples.ledger
                    (SetMax Samples.alice "Health" (-5)) 1).2
                 Samples.alice "Health" = Some (-5))
    by (vm_compute; reflexivity).
  split; [apply ledger_bounds|]. split; [exact Hc|].
  split; [vm_compute; reflexivity|]. split; [intros H; by apply H|].
  intros Hr. unfold getPlayerResource in Hc.
  destruct (playerResources _ !! UserId Samples.alice) as [pd|] eqn:Hpd;
    [|discriminate].
  simpl in Hc. destruct (Hr _ _ _ _ Hpd Hc) as (mx & _ & H0 & _).
  by apply H0.
Qed.


End ResourceServiceProofs.

(** ** NPCService *)

Module NPCServiceProofs.
Import Roblox NPCService NPCSpec.
Local Open Scope Q_scope.

Lemma max0_nonneg (x : Q) : 0 <= Num.math_max 0 x.
Proof.
  unfold Num.math_max. destruct (Qle_bool 0 x) eqn:H.
  - by apply Qle_bool_iff. - apply Qle_refl.
Qed.

Lemma max0_le (x y : Q) : 0 <= y → x <= y → Num.math_max 0 x <= y.
Proof. intros. unfold Num.math_max. by destruct (Qle_bool 0 x). Qed.

Section Proofs.

Variable NPCMetaMap : NPCKey → option NPCMeta.

Local Abbreviation spawnNPC := (spawnNPC NPCMetaMap).
Local Abbreviation damageNPC := (damageNPC NPCMetaMap).
Local Abbreviation handleNPCDeath := (handleNPCDeath NPCMetaMap).
Local Abbreviation call := (call NPCMetaMap).
Local Abbreviation run := (run NPCMetaMap).
Local Abbreviation positiveHealth := (positiveHealth NPCMetaMap).

Lemma spawnedNPCs_handleNPCDeath s ref npc :
  spawnedNPCs (handleNPCDeath s ref npc)
  = <[ref := {| id := id npc; npcKey := npcKey npc; model := model npc;
                spawned := spawned npc; health := health npc;
                maxHealth := maxHealth npc; isAlive := false;
                position := position npc |}]> (spawnedNPCs s).
Proof.
  unfold NPCService.handleNPCDeath. simpl.
  destruct (getNPCMeta _ _) as [meta|]; [|done].
  destruct (lootTable meta); done.
Qed.

(** The store after any call: an entry is an old one, a fresh spawn at
    full health, or the damaged NPC. *)
Lemma npc_call_lookup s c key npc :
  spawnedNPCs (call s c) !! key = Some npc →
  spawnedNPCs s !! key = Some npc
  ∨ (∃ meta, NPCMetaMap (npcKey npc) = Some meta
             ∧ health npc = baseStats_maxHealth meta
             ∧ maxHealth npc = baseStats_maxHealth meta
             ∧ isAlive npc = true)
  ∨ (∃ old damage,
       c = Damage key damage ∧ spawnedNPCs s !! key = Some old
       ∧ isAlive old = true
       ∧ health npc = Num.math_max 0 (health old - damage)
       ∧ maxHealth npc = maxHealth old
       ∧ isAlive npc = negb (Qle_bool (health npc) 0)).
Proof.
  destruct c as [k pos created now|k|k damage|k]; simpl.
  - unfold NPCService.spawnNPC, getNPCMeta.
    destruct (NPCMetaMap k) as [meta|] eqn:Hmeta; [|by left].
    destruct created as [m|]; [|by left]. simpl.
    destruct (decide ("npc_" +:+ pretty (nextNPCId s) = key)) as [<-|Hne].
    + rewrite lookup_insert_eq. intros [= <-]. right. left. simpl. eauto.
    + rewrite lookup_insert_ne by done. by left.
  - unfold despawnNPC. destruct (spawnedNPCs s !! k); [|by left]. simpl.
    intros H. apply lookup_delete_Some in H as [_ H]. by left.
  - unfold NPCService.damageNPC.
    destruct (spawnedNPCs s !! k) as [old|] eqn:Hold; [|by left].
    destruct (isAlive old) eqn:Halive; cbn [negb]; [|by left].
    cbn [health].
    destruct (Qle_bool (Num.math_max 0 (health old - damage)) 0) eqn:Hle;
      cbn [snd].
    + rewrite spawnedNPCs_handleNPCDeath. cbn [spawnedNPCs].
      destruct (decide (k = key)) as [<-|Hne].
      * rewrite lookup_insert_eq. intros [= <-]. right. right.
        exists old, damage. simpl. rewrite Hle. done.
      * rewrite !lookup_insert_ne by done. by left.
    + cbn [spawnedNPCs]. destruct (decide (k = key)) as [<-|Hne].
      * rewrite lookup_insert_eq. intros [= <-]. right. right.
        exists old, damage. simpl. rewrite Hle. done.
      * rewrite lookup_insert_ne by done. by left.
  - destruct (bool_decide (k ∈ waiting s)); [|by left]. simpl.
    unfold despawnNPC. destruct (spawnedNPCs s !! k); [|by left]. simpl.
    intros H. apply lookup_delete_Some in H as [_ H]. by left.
Qed.

Lemma call_deadAtZero s c :
  positiveHealth → deadAtZero s → deadAtZero (call s c).
Proof.
  intros Hpos Hs key npc Hnpc.
  apply npc_call_lookup in Hnpc
    as [Hold | [(meta & Hm & Hh & _ & Ha)
               | (old & d & _ & _ & _ & Hh & _ & Ha)]].
  - by eapply Hs.
  - rewrite Hh. pose proof (Hpos _ _ Hm) as Hlt. split.
    + by apply Qlt_le_weak.
    + intros Hle. exfalso. by apply (Qlt_not_le _ _ Hlt).
  - rewrite Hh in *. split; [apply max0_nonneg|].
    intros Hle. apply Qle_bool_iff in Hle. by rewrite Ha, Hle.
Qed.

Lemma call_belowMax s c :
  nonnegDamage c → deadAtZero s → belowMax s → belowMax (call s c).
Proof.
  intros Hc Hd Hs key npc Hnpc.
  apply npc_call_lookup in Hnpc
    as [Hold | [(meta & Hm & Hh & Hmx & _)
               | (old & d & -> & Hold & _ & Hh & Hmx & _)]].
  - by eapply Hs.
  - rewrite Hh, Hmx. apply Qle_refl.
  - rewrite Hh, Hmx. simpl in Hc.
    pose proof (Hs _ _ Hold) as Hle. destruct (Hd _ _ Hold) as [H0 _].
    apply max0_le; [by eapply Qle_trans|].
    apply Qle_trans with (health old); [|done].
    rewrite <- (Qplus_0_r (health old)) at 2.
    unfold Qminus. apply Qplus_le_r.
    apply (Qopp_le_compat 0 d) in Hc. done.
Qed.

Lemma run_deadAtZero cs s :
  positiveHealth → deadAtZero s → deadAtZero (run s cs).
Proof.
  intros Hpos. revert s. induction cs as [|c cs IH]; intros s Hs; [done|].
  simpl. apply IH. by apply call_deadAtZero.
Qed.

Lemma run_belowMax cs s :
  positiveHealth → Forall nonnegDamage cs →
  deadAtZero s → belowMax s → belowMax (run s cs).
Proof.
  intros Hpos Hcs. revert s.
  induction Hcs as [|c cs Hc _ IH]; intros s Hd Hs; [done|].
  simpl. apply IH; [by apply call_deadAtZero | by apply call_belowMax].
Qed.

(** C5 (amended): after any sequence of spawn, despawn, damage and
    resume calls, with base health above 0 in every metadata entry,
    each stored NPC has health at least 0 and is dead once its health
    is 0, whatever the damage amounts; its health stays at most
    maxHealth when no damage amount is negative. *)
Theorem C5_health_invariant cs key npc :
  positiveHealth →
  spawnedNPCs (run empty cs) !! key = Some npc →
  0 <= health npc
  ∧ (health npc == 0 → isAlive npc = false)
  ∧ (Forall nonnegDamage cs → health npc <= maxHealth npc).
Proof.
  intros Hpos Hnpc.
  assert (He : deadAtZero empty)
    by (intros ? ?; simpl; by rewrite lookup_empty).
  destruct (run_deadAtZero cs empty Hpos He _ _ Hnpc) as [H0 Hdead].
  split; [done|]. split.
  - intros Hz. apply Hdead. rewrite Hz. apply Qle_refl.
  - intros Hcs. eapply run_belowMax; done.
Qed.

(** C10: [damageNPC] on an id without a stored NPC, or on an NPC whose
    alive flag is false, returns false and leaves the whole service
    state as it was: store, pending death handling and effects. *)
Theorem C10_damage_refused s npcId damage :
  (spawnedNPCs s !! npcId = None
   ∨ ∃ npc, spawnedNPCs s !! npcId = Some npc ∧ isAlive npc = false) →
  damageNPC s npcId damage = (Returned false, s).
Proof.
  intros [Hnone | (npc & Hnpc & Hdead)]; unfold NPCService.damageNPC.
  - by rewrite Hnone.
  - by rewrite Hnpc, Hdead.
Qed.

End Proofs.

(** *** The sample zombie *)

Lemma zombie_positiveHealth : positiveHealth Samples.NPCMetaMap.
Proof.
  intros k meta. unfold Samples.NPCMetaMap.
  destruct (String.eqb k "ZOMBIE"); intros [= <-]. reflexivity.
Qed.

Example zombie_dies_and_is_removed :
  let s1 := run Samples.NPCMetaMap empty
              [Samples.spawnZombie; Damage "npc_1" 100] in
  let s2 := run Samples.NPCMetaMap s1 [Resume "npc_1"] in
  spawnedNPCs s1 !! "npc_1" = Some (Samples.zombie 0 false)
  ∧ waiting s1 = ["npc_1"]
  ∧ effects s1 = [lootDropped "ZOMBIE" "ZOMBIE_COMMON"]
  ∧ spawnedNPCs s2 = ∅ ∧ waiting s2 = []
  ∧ effects s2 = [lootDropped "ZOMBIE" "ZOMBIE_COMMON"; modelDestroyed 1].
Proof. vm_compute. repeat split. Qed.

Lemma C5_health_witness :
  positiveHealth Samples.NPCMetaMap
  ∧ spawnedNPCs (run Samples.NPCMetaMap empty
                   [Samples.spawnZombie; Damage "npc_1" 30]) !! "npc_1"
    = Some (Samples.zombie 70 true)
  ∧ 0 <= health (Samples.zombie 70 true).
Proof.
  assert (H : spawnedNPCs (run Samples.NPCMetaMap empty
                             [Samples.spawnZombie; Damage "npc_1" 30])
              !! "npc_1" = Some (Samples.zombie 70 true))
    by (vm_compute; reflexivity).
  split; [exact zombie_positiveHealth|]. split; [exact H|].
  exact (proj1 (C5_health_invariant Samples.NPCMetaMap _ _ _
                  zombie_positiveHealth H)).
Defined.

(** C5 as stated fails: a negative damage amount raises the health of
    the zombie above its maxHealth. *)
Lemma C5_negative_damage_counterexample :
  positiveHealth Samples.NPCMetaMap
  ∧ spawnedNPCs (run Samples.NPCMetaMap empty
                   [Samples.spawnZombie; Damage "npc_1" (-50)]) !! "npc_1"
    = Some (Samples.zombie 150 true)
  ∧ ¬ health (Samples.zombie 150 true) <= maxHealth (Samples.zombie 150 true).
Proof.
  split; [exact zombie_positiveHealth|].
  split; [vm_compute; reflexivity|].
  intros H. by apply H.
Qed.

Lemma C10_damage_refused_witness :
  (spawnedNPCs (run Samples.NPCMetaMap empty
                  [Samples.spawnZombie; Damage "npc_1" 100]) !! "npc_1"
   = None
   ∨ ∃ npc,
       spawnedNPCs (run Samples.NPCMetaMap empty
                      [Samples.spawnZombie; Damage "npc_1" 100]) !! "npc_1"
       = Some npc ∧ isAlive npc = false)
  ∧ damageNPC Samples.NPCMetaMap
      (run Samples.NPCMetaMap empty
         [Samples.spawnZombie; Damage "npc_1" 100]) "npc_1" 10
    = (Returned false,
       run Samples.NPCMetaMap empty
         [Samples.spawnZombie; Damage "npc_1" 100]).
Proof.
  assert (H : spawnedNPCs (run Samples.NPCMetaMap empty
                  [Samples.spawnZombie; Damage "npc_1" 100]) !! "npc_1"
              = None
              ∨ ∃ npc,
                  spawnedNPCs (run Samples.NPCMetaMap empty
                    [Samples.spawnZombie; Damage "npc_1" 100]) !! "npc_1"
                  = Some npc ∧ isAlive npc = false).
  { right. exists (Samples.zombie 0 false).
    split; vm_compute; reflexivity. }
  split; [exact H|].
  exact (C10_damage_refused Samples.NPCMetaMap _ "npc_1" 10 H).
Defined.

End NPCServiceProofs.

(** ** EventService *)

Module EventServiceProofs.
Import EventService EventSpec.

Section Proofs.

Variable Data : Type.
Variable World : Type.
Variable behaviour : nat → Data → Env Data World → Completion * Env Data World.

Local Abbreviation Env := (Env Data World).
Local Abbreviation fire := (fire Data World behaviour).
Local Abbreviation dispatch := (dispatch Data World behaviour).
Local Abbreviation afterCall := (afterCall Data World behaviour).
Local Abbreviation keepSubscriptions :=
  (keepSubscriptions Data World behaviour).
Local Abbreviation recorded := (recorded Data World).

(** The call of a listener inside its [try] block never throws. *)
Lemma guarded_call eventName listener d (e : Env) :
  try_catch Data World (callListener Data World behaviour listener d)
    (λ error,
       warn Data World
         ("EventService: Error in event listener for "
          +:+ eventName +:+ ": " +:+ error)) e
  = Some (Ok tt, afterCall eventName d e listener).
Proof.
  unfold try_catch, callListener, warn, EventSpec.afterCall.
  by destruct (behaviour (handle listener) d e) as [[|error] e'].
Qed.

Lemma afterCall_listeners eventName listeners listener d (e : Env) :
  keepSubscriptions eventName listeners → listener ∈ listeners →
  eventListeners (service (afterCall eventName d e listener)) !! eventName
  = eventListeners (service e) !! eventName.
Proof.
  intros Hkeep Hin. specialize (Hkeep listener d e Hin).
  unfold EventSpec.afterCall.
  by destruct (behaviour (handle listener) d e) as [[|error] e'].
Qed.


(** The loop over listeners that leave the subscriptions of the topic
    alone: every listener from [index] on is called, in order. *)
Lemma dispatch_complete eventName listeners d fuel index called (e : Env) :
  keepSubscriptions eventName listeners →
  eventListeners (service e) !! eventName = Some listeners →
  length listeners ≤ index + fuel →
  dispatch fuel eventName index d called e
  = Some (Ok (called ++ ((λ cb, (handle cb, d)) <$> drop index listeners)),
          foldl (afterCall eventName d) e (drop index listeners)).
Proof.
  intros Hkeep. revert index called e.
  induction fuel as [|fuel IH]; intros index called e Hl Hlen.
  - simpl. rewrite Hl. simpl.
    rewrite (lookup_ge_None_2 listeners index) by lia.
    rewrite drop_ge by lia. simpl. by rewrite app_nil_r.
  - simpl. rewrite Hl. simpl.
    destruct (listeners !! index) as [listener|] eqn:Hi.
    + unfold bind. rewrite guarded_call.
      assert (Hin : listener ∈ listeners) by by eapply list_elem_of_lookup_2.
      rewrite IH.
      * rewrite (drop_S _ _ _ Hi). simpl. by rewrite <- app_assoc.
      * by rewrite (afterCall_listeners _ listeners).
      * lia.
    + apply lookup_ge_None_1 in Hi. rewrite drop_ge by lia. simpl.
      by rewrite app_nil_r.
Qed.


End Proofs.




(** A listener that subscribes itself to the topic at every call keeps
    the loop of [fire] from ever reaching the end of the array. *)
Lemma resubscribing_dispatch fuel n index called
    (e : Env string nat) :
  eventListeners (service e) !! "npcDefeated"
  = Some (replicate n (Samples.listener 5)) →
  index < n →
  EventService.dispatch _ _ Samples.behaviour fuel "npcDefeated" index
    "npc_1" called e = None.
Proof.
  revert n index called e.
  induction fuel as [|fuel IH]; intros n index called e Hl Hlt.
  - simpl. rewrite Hl. simpl. by rewrite lookup_replicate_2.
  - simpl. rewrite Hl. simpl. rewrite lookup_replicate_2 by done.
    unfold bind, try_catch, callListener. simpl.
    apply (IH (S n)); [|lia].
    simpl. rewrite Hl. simpl. rewrite lookup_insert_eq.
    by rewrite <- replicate_S_end.
Qed.

Example resubscribing_listener_never_returns fuel :
  EventService.fire _ _ Samples.behaviour fuel "npcDefeated" "npc_1" 0
    Samples.echo = None.
Proof.
  unfold EventService.fire.
  replace (eventListeners _ !! "npcDefeated")
    with (Some [Samples.listener 5]) by (vm_compute; reflexivity).
  apply (resubscribing_dispatch fuel 1); [vm_compute; reflexivity | lia].
Qed.

Example faulty_listener_is_isolated :
  ∃ s',
    EventService.fire _ _ Samples.behaviour 3 "npcDefeated" "npc_1" 0
      Samples.quiet
    = Some (Ok [(1, "npc_1"); (2, "npc_1"); (3, "npc_1")]%nat,
            {| service := s'; world := 111%nat;
               console := ["EventService: Error in event listener for "
                           +:+ "npcDefeated: boom"] |})
    ∧ length (eventHistory s') = 1%nat.
Proof. eexists. split; [vm_compute; reflexivity | reflexivity]. Qed.

Example fire_without_listeners :
  EventService.fire _ _ Samples.behaviour 0 "playerLevelUp" "alice" 0
    Samples.quiet
  = Some (Ok [], EventSpec.recorded _ _ "playerLevelUp" "alice" 0
                   Samples.quiet).
Proof. vm_compute. reflexivity. Qed.

End EventServiceProofs.

(** ** PlayerDataService *)

Module PlayerDataServiceProofs.
Import Roblox PlayerDataService.
Local Open Scope Q_scope.

Lemma updatePlayTime_dataStore s player now :
  dataStore (updatePlayTime s player now) = dataStore s.
Proof.
  unfold updatePlayTime.
  destruct (playerProfiles s !! UserId player); [|done].
  destruct (sessionStartTimes s !! UserId player) as [start|]; [|done].
  by destruct (Qeq_bool start 0).
Qed.

Lemma updatePlayTime_profile s player now cached :
  playerProfiles s !! UserId player = Some cached →
  ∃ profile,
    playerProfiles (updatePlayTime s player now) !! UserId player
    = Some profile
    ∧ withLastLogin profile 0 = withLastLogin
        {| playerId := playerId cached; playerName := playerName cached;
           level := level cached; experience := experience cached;
           currency := currency cached; inventory := inventory cached;
           settings := settings cached; lastLogin := lastLogin cached;
           totalPlayTime := totalPlayTime profile |} 0.
Proof.
  intros Hc. unfold updatePlayTime. rewrite Hc.
  destruct (sessionStartTimes s !! UserId player) as [start|];
    [|exists cached; by destruct cached].
  destruct (Qeq_bool start 0); [exists cached; by destruct cached|].
  simpl. rewrite lookup_insert_eq. eexists. split; [reflexivity|]. done.
Qed.

(** C9 (amended): a load for a player without a stored profile returns
    the default profile, level 1 and experience 0, and caches it; a
    served save of a cached profile writes it (with the play time of the
    session added, every other field as cached) under the key of the
    player, and a later served load returns what was written with
    [lastLogin] set to the time of the load, every other field as
    written. *)
Theorem C9_default_and_round_trip s player :
  (∀ now,
     dataStore s !! profileKey player = None →
     ∃ profile s',
       loadPlayerData s player now Served = (Some profile, s')
       ∧ profile = createDefaultProfile player now
       ∧ level profile = 1 ∧ experience profile = 0
       ∧ getPlayerProfile s' player = Some profile)
  ∧ (∀ cached t1,
       getPlayerProfile s player = Some cached →
       ∃ saved s1,
         savePlayerData s player t1 Served = (true, s1)
         ∧ dataStore s1 !! profileKey player = Some saved
         ∧ getPlayerProfile s1 player = Some saved
         ∧ playerId saved = playerId cached
         ∧ playerName saved = playerName cached
         ∧ level saved = level cached
         ∧ experience saved = experience cached
         ∧ currency saved = currency cached
         ∧ inventory saved = inventory cached
         ∧ settings saved = settings cached
         ∧ lastLogin saved = lastLogin cached
         ∧ (∀ t2,
              ∃ s2,
                loadPlayerData s1 player t2 Served
                = (Some (withLastLogin saved t2), s2)
                ∧ getPlayerProfile s2 player
                  = Some (withLastLogin saved t2))).
Proof.
  split.
  - intros now Hnone. unfold loadPlayerData. rewrite Hnone.
    do 2 eexists. split; [reflexivity|]. split; [reflexivity|].
    split; [reflexivity|]. split; [reflexivity|].
    unfold getPlayerProfile. simpl. apply lookup_insert_eq.
  - intros cached t1 Hc. unfold getPlayerProfile in *.
    unfold savePlayerData. rewrite Hc.
    destruct (updatePlayTime_profile s player t1 cached Hc)
      as (saved & Hsaved & Heq).
    rewrite Hsaved. exists saved. eexists. split; [reflexivity|]. simpl.
    split; [apply lookup_insert_eq|]. split; [exact Hsaved|].
    injection Heq as H1 H2 H3 H4 H5 H6 H7.
    repeat (split; [done|]). split.
    { unfold updatePlayTime in Hsaved. rewrite Hc in Hsaved.
      destruct (sessionStartTimes s !! UserId player) as [start|];
        [|congruence].
      destruct (Qeq_bool start 0); [congruence|].
      simpl in Hsaved. rewrite lookup_insert_eq in Hsaved.
      by injection Hsaved as <-. }
    intros t2. unfold loadPlayerData. simpl. rewrite lookup_insert_eq.
    eexists. split; [reflexivity|]. simpl. apply lookup_insert_eq.
Qed.

Lemma C9_round_trip_witness :
  getPlayerProfile Samples.firstLoad.2 Samples.bob
  = Some (createDefaultProfile Samples.bob 5)
  ∧ ∃ saved,
      dataStore Samples.firstSave.2 !! profileKey Samples.bob = Some saved
      ∧ Samples.secondLoad.1 = Some (withLastLogin saved 20).
Proof.
  assert (Hc : getPlayerProfile Samples.firstLoad.2 Samples.bob
               = Some (createDefaultProfile Samples.bob 5))
    by apply lookup_insert_eq.
  split; [exact Hc|].
  destruct (proj2 (C9_default_and_round_trip Samples.firstLoad.2 Samples.bob)
              _ 10 Hc)
    as (saved & s1 & Hsave & Hstore & _ & _ & _ & _ & _ & _ & _ & _ & _
        & Hload).
  exists saved. unfold Samples.secondLoad, Samples.firstSave.
  rewrite Hsave. cbn [fst snd].
  split; [exact Hstore|].
  destruct (Hload 20) as (s2 & -> & _). reflexivity.
Defined.

(** C9 as stated fails in one field: the profile that the second load
    returns is not the profile that was saved, its [lastLogin] being the
    time of the load. *)
Lemma C9_round_trip_counterexample :
  Samples.firstLoad.1 = Some (Samples.bobProfile 5 0)
  ∧ Samples.firstSave.1 = true
  ∧ dataStore Samples.firstSave.2 !! profileKey Samples.bob
    = Some (Samples.bobProfile 5 5)
  ∧ Samples.secondLoad.1 = Some (Samples.bobProfile 20 5)
  ∧ Samples.bobProfile 20 5 ≠ Samples.bobProfile 5 5.
Proof.
  split; [vm_compute; reflexivity|]. split; [vm_compute; reflexivity|].
  split; [vm_compute; reflexivity|]. split; [vm_compute; reflexivity|].
  intros Heq. apply (f_equal lastLogin) in Heq. discriminate.
Qed.

End PlayerDataServiceProofs.

(** ** LootService: generation *)

Module LootGenerationProofs.
Import LootService LootSpec LootTableSpec.
Local Open Scope Q_scope.

Lemma unit_draws_next g : Rng.unit_draws g → Rng.unit_draws (Rng.next g).2.
Proof. intros H i. apply H. Qed.

Lemma math_random_unit g :
  Rng.unit_draws g → 0 <= (Rng.next g).1 ∧ (Rng.next g).1 < 1.
Proof. intros H. apply H. Qed.

(** [math.random(m, n)] on a proper stream: an integer of [m..n]. *)
Lemma math_random_range_bounds (m n : Z) g :
  Rng.unit_draws g → (m ≤ n)%Z →
  ∃ r, Rng.math_random_range m n g = Some (r, (Rng.next g).2)
       ∧ (m ≤ r ≤ n)%Z.
Proof.
  intros Hg Hmn. unfold Rng.math_random_range.
  destruct (n <? m)%Z eqn:Hlt; [apply Z.ltb_lt in Hlt; lia|].
  destruct (Rng.next g) as [u g'] eqn:Hn. cbn [snd].
  eexists. split; [reflexivity|].
  destruct (math_random_unit g Hg) as [H0 H1]. rewrite Hn in H0, H1.
  simpl in H0, H1.
  assert (Hk : 0 < inject_Z (n - m + 1)).
  { rewrite <- (Zlt_Qlt 0). lia. }
  assert (Hlo : (0 ≤ Qfloor (u * inject_Z (n - m + 1)))%Z).
  { rewrite <- (Qfloor_Z 0). apply Qfloor_resp_le.
    apply Qmult_le_0_compat; [done | by apply Qlt_le_weak]. }
  assert (Hhi : (Qfloor (u * inject_Z (n - m + 1)) < n - m + 1)%Z).
  { rewrite Zlt_Qlt. eapply Qle_lt_trans; [apply Qfloor_le|].
    rewrite <- (Qmult_1_l (inject_Z (n - m + 1))) at 2.
    by apply Qmult_lt_compat_r. }
  lia.
Qed.

Lemma math_random_range_some (m n : Z) g :
  (m ≤ n)%Z → is_Some (Rng.math_random_range m n g).
Proof.
  intros Hmn. unfold Rng.math_random_range.
  destruct (n <? m)%Z eqn:Hlt; [apply Z.ltb_lt in Hlt; lia|].
  by destruct (Rng.next g).
Qed.

Lemma calculateQuantity_some spec multiplier g :
  quantityOk spec → is_Some (calculateQuantity spec multiplier g).
Proof.
  intros Hok. unfold calculateQuantity, mbind, rng_bind, Rng.bind.
  destruct spec as [q|lo hi]; [by eexists|].
  unfold fmap, rng_fmap, Rng.bind.
  destruct (math_random_range_some lo hi g Hok) as [[r g'] ->]. by eexists.
Qed.

Lemma addGuaranteed_some gs multiplier results g :
  Forall (λ gd, quantityOk (g_quantity gd)) gs →
  is_Some (addGuaranteed gs multiplier results g).
Proof.
  intros Hgs. revert results g.
  induction Hgs as [|gd gs Hgd _ IH]; intros results g; [by eexists|].
  cbn [addGuaranteed]. unfold mbind, rng_bind, Rng.bind.
  destruct (calculateQuantity_some _ multiplier g Hgd) as [[q g'] ->].
  apply IH.
Qed.

Lemma selectEntry_elem_of (es : list LootEntry) (rv cw : Q) entry :
  selectEntry rv cw es = Some entry → entry ∈ es.
Proof.
  revert cw. induction es as [|e es IH]; intros cw; simpl; [discriminate|].
  destruct (Qle_bool rv (cw + weight e)).
  - intros [= ->]. left.
  - intros H. right. eauto.
Qed.

Lemma rollOnce_some lootTable multiplier results g :
  Forall (λ entry, quantityOk (quantity entry)) (entries lootTable) →
  is_Some (rollOnce lootTable multiplier results g).
Proof.
  intros Hes. unfold rollOnce, mbind, rng_bind, Rng.bind, Rng.math_random.
  destruct (Rng.next g) as [u g'].
  destruct (selectEntry _ _ _) as [entry|] eqn:Hs; [|by eexists].
  apply selectEntry_elem_of in Hs.
  rewrite Forall_forall in Hes.
  destruct (calculateQuantity_some _ multiplier g' (Hes _ Hs)) as [[q g2] ->].
  by eexists.
Qed.

Lemma rollLoop_some lootTable multiplier n results g :
  Forall (λ entry, quantityOk (quantity entry)) (entries lootTable) →
  is_Some (rollLoop lootTable multiplier n results g).
Proof.
  intros Hes. revert results g. induction n as [|n IH]; intros results g;
    [by eexists|].
  cbn [rollLoop]. unfold mbind at 1, rng_bind at 1, Rng.bind at 1.
  destruct (rollOnce_some lootTable multiplier results g Hes) as [[r g'] ->].
  apply IH.
Qed.

(** X1: [generateLootFromTable] returns a result for every stream of draws
    when the roll range and every quantity range of the table have their
    lower bound at most their upper bound; with a roll range whose upper
    bound is below its lower bound it raises, whatever the rest of the
    table. *)
Theorem generate_returns_iff_ranges lootTable multiplier g :
  (tableOk lootTable →
   is_Some (generateLootFromTable lootTable multiplier g))
  ∧ (((rolls lootTable).2 < (rolls lootTable).1)%Z →
     generateLootFromTable lootTable multiplier g = None).
Proof.
  split.
  - intros (Hr & Hes & Hgs).
    unfold generateLootFromTable, mbind, rng_bind, Rng.bind.
    destruct (math_random_range_some _ _ g Hr) as [[rc g1] ->].
    unfold guaranteedDrops.
    destruct (guaranteed lootTable) as [gs|]; simpl in Hgs.
    + destruct (addGuaranteed_some gs multiplier [] g1 Hgs) as [[res g2] ->].
      by apply rollLoop_some.
    + by apply rollLoop_some.
  - intros Hlt. unfold generateLootFromTable, mbind, rng_bind, Rng.bind.
    unfold Rng.math_random_range.
    apply Z.ltb_lt in Hlt. by rewrite Hlt.
Qed.

Lemma generate_returns_witness :
  tableOk Samples.relicTable
  ∧ is_Some (generateLootFromTable Samples.relicTable 1 Samples.halves).
Proof.
  assert (H : tableOk Samples.relicTable).
  { split; [simpl; lia|]. split; repeat constructor. simpl. lia. }
  split; [exact H|].
  exact (proj1 (generate_returns_iff_ranges Samples.relicTable 1
                  Samples.halves) H).
Defined.

(** *** The shape of the result *)

Lemma names_mergeResult results entry q :
  r_drop <$> mergeResult results entry q
  = (r_drop <$> results)
    ++ (if decide (drop entry ∈ r_drop <$> results) then [] else [drop entry]).
Proof.
  unfold mergeResult.
  destruct (list_find _ results) as [[i x]|] eqn:Hf.
  - apply list_find_Some in Hf as (Hi & Hx & _).
    rewrite decide_True, app_nil_r.
    2:{ apply list_elem_of_fmap. exists x. split; [done|].
        by eapply list_elem_of_lookup_2. }
    destruct (unique entry); simpl; [done|].
    rewrite list_fmap_insert. simpl. apply list_insert_id.
    by rewrite list_lookup_fmap, Hi.
  - apply list_find_None in Hf. rewrite decide_False.
    + by rewrite fmap_app.
    + intros (x & Hx & Hin)%list_elem_of_fmap.
      rewrite Forall_forall in Hf. by apply (Hf x Hin).
Qed.

Lemma rollOnce_names lootTable multiplier results g r1 g1 :
  rollOnce lootTable multiplier results g = Some (r1, g1) →
  (r_drop <$> results) `prefix_of` (r_drop <$> r1)
  ∧ (length r1 ≤ S (length results))%nat.
Proof.
  unfold rollOnce, mbind, rng_bind, Rng.bind, Rng.math_random.
  destruct (Rng.next g) as [u g'].
  destruct (selectEntry _ _ _) as [entry|].
  - destruct (calculateQuantity _ _ g') as [[q g2]|]; [|discriminate].
    intros [= <- <-]. split.
    + rewrite names_mergeResult. by eexists.
    + rewrite <- (length_fmap r_drop), names_mergeResult, length_app,
        length_fmap.
      case_decide; simpl; lia.
  - intros [= <- <-]. split; [done | lia].
Qed.

Lemma rollLoop_names lootTable multiplier n results g res g' :
  rollLoop lootTable multiplier n results g = Some (res, g') →
  (r_drop <$> results) `prefix_of` (r_drop <$> res)
  ∧ (length res ≤ length results + n)%nat.
Proof.
  revert results g. induction n as [|n IH]; intros results g.
  - intros [= <- <-]. split; [done | lia].
  - cbn [rollLoop]. unfold mbind at 1, rng_bind at 1, Rng.bind at 1.
    destruct (rollOnce _ _ results g) as [[r1 g1]|] eqn:Hr; [|discriminate].
    intros Hl. apply IH in Hl as [Hp Hlen].
    apply rollOnce_names in Hr as [Hp1 Hlen1]. split; [by etrans | lia].
Qed.

Lemma addGuaranteed_names gs multiplier results g res g' :
  addGuaranteed gs multiplier results g = Some (res, g') →
  r_drop <$> res = (r_drop <$> results) ++ (g_drop <$> gs).
Proof.
  revert results g. induction gs as [|gd gs IH]; intros results g.
  - intros [= <- <-]. by rewrite app_nil_r.
  - cbn [addGuaranteed]. unfold mbind, rng_bind, Rng.bind.
    destruct (calculateQuantity _ _ g) as [[q g1]|]; [|discriminate].
    intros Hl. apply IH in Hl. rewrite Hl, fmap_app, <- app_assoc. done.
Qed.

(** X2: whatever the draws, the result of [generateLootFromTable] starts
    with the guaranteed drops, in the order of the table, before any
    rolled item; on a proper stream of draws it holds at most one element
    for each guaranteed drop and one for each of the [maxRolls] rolls. *)
Theorem generate_guaranteed_first lootTable multiplier g res g' :
  generateLootFromTable lootTable multiplier g = Some (res, g') →
  (g_drop <$> default [] (guaranteed lootTable))
    `prefix_of` (r_drop <$> res)
  ∧ (Rng.unit_draws g →
     (length res ≤ length (default [] (guaranteed lootTable))
                   + Z.to_nat (rolls lootTable).2)%nat).
Proof.
  unfold generateLootFromTable, mbind, rng_bind, Rng.bind.
  destruct (Rng.math_random_range _ _ g) as [[rc g1]|] eqn:Hrc;
    [|discriminate].
  destruct (guaranteedDrops lootTable multiplier g1) as [[gres g2]|] eqn:Hg;
    [|discriminate].
  intros Hl. apply rollLoop_names in Hl as [Hp Hlen].
  assert (Hnames : r_drop <$> gres
                   = g_drop <$> default [] (guaranteed lootTable)).
  { unfold guaranteedDrops in Hg. destruct (guaranteed lootTable) as [gs|].
    - by apply addGuaranteed_names in Hg.
    - by injection Hg as <- _. }
  rewrite <- Hnames. split; [done|].
  intros Hu. rewrite <- (length_fmap g_drop), <- Hnames, length_fmap.
  assert (Hle : ((rolls lootTable).1 ≤ (rolls lootTable).2)%Z).
  { unfold Rng.math_random_range in Hrc.
    destruct ((rolls lootTable).2 <? (rolls lootTable).1)%Z eqn:Hlt;
      [discriminate|]. apply Z.ltb_ge in Hlt. lia. }
  destruct (math_random_range_bounds _ _ g Hu Hle) as (r & Hr & Hb).
  rewrite Hr in Hrc. injection Hrc as -> _. lia.
Qed.

Lemma generate_guaranteed_first_witness :
  (∃ res g',
     generateLootFromTable Samples.zeroTable 1 Samples.halves
     = Some (res, g'))
  ∧ (∀ res g',
       generateLootFromTable Samples.zeroTable 1 Samples.halves
       = Some (res, g') →
       ["gem"] `prefix_of` (r_drop <$> res)).
Proof.
  split.
  - destruct (generateLootFromTable Samples.zeroTable 1 Samples.halves)
      as [[res g']|] eqn:H; [by eauto|].
    vm_compute in H. discriminate.
  - intros res g' H.
    exact (proj1 (generate_guaranteed_first Samples.zeroTable 1
                    Samples.halves res g' H)).
Defined.

(** *** The roulette walk *)

Lemma fold_weights (es : list LootEntry) (acc : Q) :
  fold_left (λ sum entry, sum + weight entry) es acc == acc + sumWeights es.
Proof.
  revert acc. induction es as [|e es IH]; intros acc; simpl; [ring|].
  rewrite IH. ring.
Qed.

Lemma totalWeight_sum lootTable :
  totalWeight lootTable == sumWeights (entries lootTable).
Proof. unfold totalWeight. rewrite fold_weights. ring. Qed.

Lemma sumWeights_nonneg (es : list LootEntry) :
  Forall (λ entry, 0 <= weight entry) es → 0 <= sumWeights es.
Proof.
  induction 1 as [|e es He _ IH]; simpl; [apply Qle_refl|].
  rewrite <- (Qplus_0_r 0). by apply Qplus_le_compat.
Qed.

Lemma selectEntry_finds (es : list LootEntry) (rv cw : Q) :
  es ≠ [] → rv <= cw + sumWeights es → is_Some (selectEntry rv cw es).
Proof.
  revert cw. induction es as [|e es IH]; intros cw Hne Hle; [done|].
  simpl. destruct (Qle_bool rv (cw + weight e)) eqn:Hb; [by eexists|].
  apply IH.
  - intros ->. simpl in Hle. apply not_true_iff_false in Hb. apply Hb.
    apply Qle_bool_iff. rewrite Qplus_0_r in Hle. done.
  - simpl in Hle. by rewrite <- Qplus_assoc.
Qed.

Lemma selectEntry_split (es : list LootEntry) (rv cw : Q) entry :
  Forall (λ e, 0 <= weight e) es →
  selectEntry rv cw es = Some entry →
  ∃ pre post,
    es = pre ++ entry :: post
    ∧ rv <= cw + sumWeights pre + weight entry
    ∧ (pre = [] ∨ cw + sumWeights pre < rv).
Proof.
  intros Hes. revert cw. induction Hes as [|e es He Hes IH]; intros cw;
    simpl; [discriminate|].
  destruct (Qle_bool rv (cw + weight e)) eqn:Hb.
  - intros [= ->]. exists [], es. simpl. split; [done|].
    apply Qle_bool_iff in Hb. rewrite Qplus_0_r. auto.
  - intros Hs. apply IH in Hs as (pre & post & -> & Hle & Hgt).
    exists (e :: pre), post. simpl. split; [done|].
    split; [by rewrite Qplus_assoc|]. right.
    assert (Hlt : cw + weight e < rv).
    { apply Qnot_le_lt. intros Hc. apply Qle_bool_iff in Hc. congruence. }
    destruct Hgt as [-> | Hgt]; simpl.
    + by rewrite Qplus_0_r.
    + by rewrite Qplus_assoc.
Qed.

(** X3: with no negative weight and a positive total weight, a roll on a
    proper draw always selects an entry, and the entry selected is the
    first whose cumulative weight reaches the drawn value: the weights
    before it sum to less than the value (or it is the first entry), and
    with its own weight they reach it. *)
Theorem roll_selects_by_cumulative_weight lootTable (u : Q) :
  Forall (λ entry, 0 <= weight entry) (entries lootTable) →
  0 < totalWeight lootTable →
  0 <= u → u < 1 →
  ∃ entry pre post,
    selectEntry (u * totalWeight lootTable) 0 (entries lootTable)
    = Some entry
    ∧ entries lootTable = pre ++ entry :: post
    ∧ u * totalWeight lootTable <= sumWeights pre + weight entry
    ∧ (pre = [] ∨ sumWeights pre < u * totalWeight lootTable).
Proof.
  intros Hw Htot Hu0 Hu1.
  assert (Hne : entries lootTable ≠ []).
  { intros He. unfold totalWeight in Htot. rewrite He in Htot.
    by apply Qlt_irrefl in Htot. }
  assert (Hle : u * totalWeight lootTable
                <= 0 + sumWeights (entries lootTable)).
  { rewrite Qplus_0_l, <- totalWeight_sum.
    rewrite <- (Qmult_1_l (totalWeight lootTable)) at 2.
    apply Qmult_le_compat_r; by apply Qlt_le_weak. }
  destruct (selectEntry_finds _ _ _ Hne Hle) as [entry Hs].
  destruct (selectEntry_split _ _ _ _ Hw Hs) as (pre & post & He & H1 & H2).
  exists entry, pre, post. split; [done|]. split; [done|].
  rewrite !Qplus_0_l in H1. split; [done|].
  destruct H2 as [-> | H2]; [by left | right]. by rewrite Qplus_0_l in H2.
Qed.

Lemma roll_selects_witness :
  Forall (λ entry, 0 <= weight entry) (entries Samples.relicTable)
  ∧ 0 < totalWeight Samples.relicTable
  ∧ ∃ entry,
      selectEntry ((3 # 4) * totalWeight Samples.relicTable) 0
        (entries Samples.relicTable) = Some entry.
Proof.
  assert (Hw : Forall (λ entry, 0 <= weight entry)
                 (entries Samples.relicTable))
    by (repeat constructor; discriminate).
  assert (Ht : 0 < totalWeight Samples.relicTable) by reflexivity.
  split; [exact Hw|]. split; [exact Ht|].
  destruct (roll_selects_by_cumulative_weight Samples.relicTable (3 # 4)
              Hw Ht) as (entry & _ & _ & Hs & _);
    [discriminate | reflexivity |].
  by exists entry.
Defined.

(** *** Quantities *)

(** [calculateQuantity] on a scalar returns the floor of the scalar
    times the multiplier and reads no draw; on a range with [lo <= hi], a
    proper stream and a multiplier that is not negative, it returns a
    quantity between the floors of [lo] and of [hi] times the multiplier. *)
Theorem calculateQuantity_bounds spec multiplier g :
  Rng.unit_draws g → quantityOk spec → 0 <= multiplier →
  ∃ q g',
    calculateQuantity spec multiplier g = Some (q, g')
    ∧ match spec with
      | Scalar s => q = Qfloor (s * multiplier) ∧ g' = g
      | Range lo hi =>
          (Qfloor (inject_Z lo * multiplier) ≤ q
           ≤ Qfloor (inject_Z hi * multiplier))%Z
      end.
Proof.
  intros Hg Hok Hm. unfold calculateQuantity, mbind, rng_bind, Rng.bind.
  destruct spec as [s|lo hi]; [by do 2 eexists|].
  unfold fmap, rng_fmap, Rng.bind.
  destruct (math_random_range_bounds lo hi g Hg Hok) as (r & -> & Hlo & Hhi).
  do 2 eexists. split; [reflexivity|]. unfold Num.math_floor.
  split; apply Qfloor_resp_le, Qmult_le_compat_r; try done;
    by rewrite <- Zle_Qle.
Qed.

Lemma calculateQuantity_bounds_witness :
  Rng.unit_draws Samples.halves ∧ quantityOk (Range 2 4) ∧ 0 <= 3
  ∧ ∃ q g',
      calculateQuantity (Range 2 4) 3 Samples.halves = Some (q, g')
      ∧ (6 ≤ q ≤ 12)%Z.
Proof.
  assert (Hg : Rng.unit_draws Samples.halves)
    by (intros i; split; simpl; [discriminate | reflexivity]).
  assert (Hok : quantityOk (Range 2 4)) by (simpl; lia).
  assert (Hm : 0 <= 3) by discriminate.
  split; [exact Hg|]. split; [exact Hok|]. split; [exact Hm|].
  destruct (calculateQuantity_bounds (Range 2 4) 3 Samples.halves Hg Hok Hm)
    as (q & g' & Hq & Hb).
  exists q, g'. split; [exact Hq | exact Hb].
Defined.

(** *** A table with a single entry *)

Lemma rollOnce_single lootTable multiplier entry q x g :
  entries lootTable = [entry] → 0 < weight entry →
  quantity entry = Scalar q → Rng.unit_draws g →
  rollOnce lootTable multiplier x g
  = Some (mergeResult x entry (Qfloor (q * multiplier)), (Rng.next g).2).
Proof.
  intros He Hw Hq Hg.
  unfold rollOnce, mbind, rng_bind, Rng.bind, Rng.math_random.
  destruct (math_random_unit g Hg) as [H0 H1].
  destruct (Rng.next g) as [u g']. simpl in H0, H1. cbn [snd].
  unfold totalWeight. rewrite He. simpl.
  assert (Hle : Qle_bool (u * (0 + weight entry)) (0 + weight entry) = true).
  { apply Qle_bool_iff. rewrite Qplus_0_l.
    rewrite <- (Qmult_1_l (weight entry)) at 2.
    apply Qmult_le_compat_r; by apply Qlt_le_weak. }
  rewrite Hle, Hq. reflexivity.
Qed.

Lemma rollLoop_single lootTable multiplier entry q :
  entries lootTable = [entry] → 0 < weight entry →
  quantity entry = Scalar q →
  ∀ (k : nat) (x : Z) g, Rng.unit_draws g →
    fst <$> rollLoop lootTable multiplier k
              [{| r_drop := drop entry; r_quantity := x |}] g
    = Some [{| r_drop := drop entry;
               r_quantity :=
                 if unique entry then x
                 else (x + Z.of_nat k * Qfloor (q * multiplier))%Z |}].
Proof.
  intros He Hw Hq.
  pose proof (rollOnce_single lootTable multiplier entry q) as Hroll.
  remember (Qfloor (q * multiplier)) as f eqn:Hf. clear Hf.
  induction k as [|k IH]; intros x g Hg.
  - simpl. destruct (unique entry); [done|]. do 3 f_equal. lia.
  - cbn [rollLoop]. unfold mbind at 1, rng_bind at 1, Rng.bind at 1.
    rewrite (Hroll _ _ He Hw Hq Hg).
    unfold mergeResult. simpl. rewrite decide_True by done. simpl.
    destruct (unique entry) eqn:Hu; simpl.
    + apply IH. intros i. apply Hg.
    + rewrite IH by (intros i; apply Hg). do 3 f_equal. lia.
Qed.

(** A table with one entry of positive weight and a scalar quantity,
    no guaranteed drops and a roll range [n..n] with [n >= 1] yields, on
    every proper stream, exactly that item: once with the floored
    quantity when the entry is unique, and with [n] times the floored
    quantity otherwise. *)
Theorem generate_single_entry lootTable multiplier entry q (n : Z) g :
  entries lootTable = [entry] → 0 < weight entry →
  quantity entry = Scalar q →
  guaranteed lootTable = None → rolls lootTable = (n, n) → (1 ≤ n)%Z →
  Rng.unit_draws g →
  fst <$> generateLootFromTable lootTable multiplier g
  = Some [{| r_drop := drop entry;
             r_quantity :=
               if unique entry then Qfloor (q * multiplier)
               else (n * Qfloor (q * multiplier))%Z |}].
Proof.
  intros He Hw Hq Hgu Hr Hn Hg.
  pose proof (rollOnce_single lootTable multiplier entry q) as Hroll.
  pose proof (rollLoop_single lootTable multiplier entry q He Hw Hq) as Hloop.
  remember (Qfloor (q * multiplier)) as f eqn:Hf. clear Hf.
  unfold generateLootFromTable, mbind, rng_bind, Rng.bind.
  rewrite Hr. cbn [fst snd].
  destruct (math_random_range_bounds n n g Hg (Z.le_refl n))
    as (r & -> & Hb).
  assert (r = n) as -> by lia.
  unfold guaranteedDrops. rewrite Hgu. simpl.
  destruct (Z.to_nat n) as [|k] eqn:Hk; [lia|].
  cbn [rollLoop]. unfold mbind at 1, rng_bind at 1, Rng.bind at 1.
  rewrite (Hroll _ _ He Hw Hq (unit_draws_next _ Hg)).
  unfold mergeResult at 1. simpl.
  rewrite Hloop by (intros i; apply Hg).
  destruct (unique entry); [done|]. do 3 f_equal. lia.
Qed.

Lemma generate_single_entry_witness :
  fst <$> generateLootFromTable
            {| entries := [{| drop := "coin"; weight := 1;
                              quantity := Scalar (3 # 2); unique := false |}];
               rolls := (4, 4)%Z; guaranteed := None |}
            3 Samples.halves
  = Some [{| r_drop := "coin"; r_quantity := 16 |}].
Proof.
  assert (Hn : (1 ≤ 4)%Z) by lia.
  assert (Hg : Rng.unit_draws Samples.halves)
    by (intros i; split; simpl; [discriminate | reflexivity]).
  exact (generate_single_entry
           {| entries := [{| drop := "coin"; weight := 1;
                             quantity := Scalar (3 # 2); unique := false |}];
              rolls := (4, 4)%Z; guaranteed := None |}
           3 {| drop := "coin"; weight := 1;
                quantity := Scalar (3 # 2); unique := false |}
           (3 # 2) 4 Samples.halves
           eq_refl eq_refl eq_refl eq_refl eq_refl Hn Hg).
Defined.

End LootGenerationProofs.

(** ** LootService: the drops in the world *)

Module LootDropsProofs.
Import LootService LootSpec LootStoreSpec StoreLemmas.
Local Open Scope Q_scope.

Lemma removeStep_ok s (k : string) :
  storeOk s →
  storeOk (removeLootModel
             {| activeLootDrops := delete k (activeLootDrops s);
                lootModels := lootModels s; nextLootId := nextLootId s |} k).
Proof.
  intros [Hm Hd]. split; simpl.
  - rewrite dom_delete_L, Hm. done.
  - intros k' d Hk. apply lookup_delete_Some in Hk as [_ Hk]. by apply Hd.
Qed.

Lemma loot_call_storeOk s c : storeOk s → storeOk (call s c).
Proof.
  intros Hs. destruct c as [item q pos now|k|now]; simpl.
  - destruct Hs as [Hm Hd]. split; simpl.
    + rewrite dom_insert_L, Hm. done.
    + intros k d. destruct (decide ("loot_" +:+ pretty (nextLootId s) = k))
        as [<-|Hne].
      * rewrite lookup_insert_eq. intros [= <-]. simpl.
        split; [done|]. split; [done|]. exists (nextLootId s). split; [done|].
        lia.
      * rewrite lookup_insert_ne by done. intros Hk.
        destruct (Hd _ _ Hk) as (H1 & H2 & n & H3 & H4).
        split; [done|]. split; [done|]. exists n. split; [done | lia].
  - unfold collectLoot. destruct (activeLootDrops s !! k); [|done].
    by apply removeStep_ok.
  - unfold cleanupExpiredLoot.
    generalize (Luau.keysWhere (λ loot, Num.Qgeb now (expiresAt loot))
                  (activeLootDrops s)).
    intros ks. revert s Hs. induction ks as [|k ks IH]; intros s Hs; [done|].
    simpl. by apply IH, removeStep_ok.
Qed.

Lemma collectLoot_absent s (k : string) :
  activeLootDrops s !! k = None → collectLoot s k = (None, s).
Proof. intros H. unfold collectLoot. by rewrite H. Qed.

Lemma loot_run_storeOk cs s : storeOk s → storeOk (run s cs).
Proof.
  revert s. induction cs as [|c cs IH]; intros s Hs; [done|].
  simpl. by apply IH, loot_call_storeOk.
Qed.

Lemma loot_empty_storeOk : storeOk empty.
Proof.
  split; [simpl; by rewrite dom_empty_L|].
  intros k d. simpl. by rewrite lookup_empty.
Qed.

(** X4: after any sequence of creations, collections and sweeps from the
    empty service, the ids that have a model in the world are exactly the
    ids of the active drops, every drop is stored under its own id with
    [expiresAt = timestamp + 60], and every id in the store is
    ["loot_" n] for an [n] below the id counter. *)
Theorem loot_store_consistent cs : storeOk (run empty cs).
Proof.
  apply loot_run_storeOk. split; [simpl; by rewrite dom_empty_L|].
  intros k d. simpl. by rewrite lookup_empty.
Qed.

(** X5: [collectLoot] returns the drop stored under the id, if any; a drop
    that was collected from a store reached from the empty service is not
    in the store after any later calls, and collecting it again returns
    nothing; collecting an id that is not stored leaves the service as it
    was. *)
Theorem collect_once cs0 (k : string) :
  let s := run empty cs0 in
  (collectLoot s k).1 = activeLootDrops s !! k
  ∧ (is_Some (collectLoot s k).1 →
     ∀ cs,
       activeLootDrops (run (collectLoot s k).2 cs) !! k = None
       ∧ collectLoot (run (collectLoot s k).2 cs) k
         = (None, run (collectLoot s k).2 cs))
  ∧ ((collectLoot s k).1 = None → (collectLoot s k).2 = s).
Proof.
  simpl. set (s := run empty cs0).
  destruct (loot_run_storeOk cs0 empty loot_empty_storeOk) as [_ Hd]. fold s in Hd.
  destruct (collectLoot s k) as [r s1] eqn:Hc. unfold collectLoot in Hc.
  destruct (activeLootDrops s !! k) as [d|] eqn:Hk;
    injection Hc as <- <-; simpl.
  - split; [done|]. split; [|done]. intros _ cs.
    destruct (Hd _ _ Hk) as (_ & _ & n & -> & Hn).
    match goal with |- ?l = None ∧ _ => assert (Habs : l = None) end.
    { apply LootStoreProofs.loot_run_stays_absent; [done|].
      simpl. apply lookup_delete_eq. }
    split; [done|]. by apply collectLoot_absent.
  - split; [done|]. split; [by intros [? ?] | done].
Qed.

(** *** [dropLoot] *)

Lemma createLootDrops_as_run s generated position now :
  (createLootDrops s generated position now).2
  = run s ((λ loot, Create (r_drop loot) (r_quantity loot) position now)
             <$> generated).
Proof.
  revert s. induction generated as [|loot rest IH]; intros s; [done|].
  cbn [createLootDrops]. destruct (createLootDrop s _ _ _ _) as [d s1] eqn:Hc.
  specialize (IH s1).
  destruct (createLootDrops s1 rest position now) as [ds s2].
  cbn [snd] in *. rewrite IH, fmap_cons. unfold run. cbn [foldl call].
  by rewrite Hc.
Qed.

Lemma createLootDrops_spec s generated position now :
  let drops := (createLootDrops s generated position now).1 in
  let s' := (createLootDrops s generated position now).2 in
  (λ d, (itemId d, dropQuantity d)) <$> drops
  = (λ r, (r_drop r, r_quantity r)) <$> generated
  ∧ Forall (λ d, LootService.position d = position ∧ timestamp d = now
                 ∧ expiresAt d = now + LOOT_EXPIRE_TIME) drops
  ∧ id <$> drops
    = (λ i : nat, "loot_" +:+ pretty (nextLootId s + N.of_nat i)%N)
        <$> seq 0 (length generated)
  ∧ nextLootId s' = (nextLootId s + N.of_nat (length generated))%N
  ∧ (∀ d, d ∈ drops → activeLootDrops s' !! id d = Some d).
Proof.
  revert s. induction generated as [|loot rest IH]; intros s.
  - simpl. repeat split; try done. { lia. } intros d Hd.
    by apply elem_of_nil in Hd.
  - cbn [createLootDrops].
    destruct (createLootDrop s (r_drop loot) (r_quantity loot) position now)
      as [d s1] eqn:Hc.
    pose proof (createLootDrops_as_run s1 rest position now) as Hrun.
    specialize (IH s1).
    destruct (createLootDrops s1 rest position now) as [ds s2].
    cbn [fst snd] in *. destruct IH as (H1 & H2 & H3 & H4 & H5).
    unfold createLootDrop in Hc. cbn in Hc. injection Hc as <- <-.
    cbn [length]. rewrite !fmap_cons. cbn [itemId dropQuantity id].
    split; [by rewrite H1|]. split; [by constructor|]. split.
    { cbn [seq]. rewrite fmap_cons. f_equal.
      { by rewrite N.add_0_r. }
      rewrite H3, <- fmap_S_seq, <- list_fmap_compose.
      apply list_fmap_ext. intros _ i _. cbn. do 2 f_equal. lia. }
    split; [cbn in H4; lia|].
    intros d' [->|Hin]%elem_of_cons; [|by apply H5].
    cbn [id]. rewrite Hrun.
    apply (LootStoreProofs.loot_run_keeps _ _ (nextLootId s) _ now).
    + cbn. lia.
    + cbn. apply lookup_insert_eq.
    + apply Forall_fmap, Forall_true. done.
    + apply Forall_fmap, Forall_true. done.
    + cbn [expiresAt]. rewrite <- (Qplus_0_r now) at 1.
      apply Qplus_lt_r. reflexivity.
Qed.

Section Proofs.

Variable LootTableMetaMap : string → option LootTableMeta.

Local Abbreviation dropLoot := (dropLoot LootTableMetaMap).

(** X6: [dropLoot] with an unknown table key returns no drops, reads no
    draw and leaves the service as it was; it raises when the generation
    raises; otherwise it creates one drop for each generated item, in the
    order of the result, with the item and quantity generated, at the
    given position and time, with consecutive ids from the id counter, and
    every one of them is in the store afterwards. *)
Theorem dropLoot_creates_generated s tableKey position multiplier now g :
  match LootTableMetaMap tableKey with
  | None => dropLoot s tableKey position multiplier now g = Some ([], s, g)
  | Some lootTable =>
      match generateLootFromTable lootTable multiplier g with
      | None => dropLoot s tableKey position multiplier now g = None
      | Some (generated, g') =>
          ∃ drops s',
            dropLoot s tableKey position multiplier now g
            = Some (drops, s', g')
            ∧ (λ d, (itemId d, dropQuantity d)) <$> drops
              = (λ r, (r_drop r, r_quantity r)) <$> generated
            ∧ Forall (λ d, LootService.position d = position
                           ∧ timestamp d = now
                           ∧ expiresAt d = now + LOOT_EXPIRE_TIME) drops
            ∧ id <$> drops
              = (λ i : nat,
                   "loot_" +:+ pretty (nextLootId s + N.of_nat i)%N)
                  <$> seq 0 (length generated)
            ∧ nextLootId s' = (nextLootId s + N.of_nat (length generated))%N
            ∧ (∀ d, d ∈ drops → activeLootDrops s' !! id d = Some d)
      end
  end.
Proof.
  unfold LootService.dropLoot, getLootTable.
  destruct (LootTableMetaMap tableKey) as [lootTable|]; [|done].
  unfold mbind, rng_bind, Rng.bind.
  destruct (generateLootFromTable lootTable multiplier g)
    as [[generated g']|]; [|done].
  pose proof (createLootDrops_spec s generated position now) as Hspec.
  destruct (createLootDrops s generated position now) as [drops s'].
  exists drops, s'. split; [done|]. exact Hspec.
Qed.

End Proofs.

Example zombie_loot_is_dropped :
  ∃ drops s' g',
    LootService.dropLoot
      (λ key, if String.eqb key "ZOMBIE_COMMON"
              then Some Samples.zeroTable else None)
      empty "ZOMBIE_COMMON" Samples.origin 1 7 Samples.halves
    = Some (drops, s', g')
    ∧ (λ d, (id d, itemId d, dropQuantity d, expiresAt d)) <$> drops
      = [("loot_1", "gem", 1%Z, 67); ("loot_2", "gold", 1%Z, 67)]
    ∧ dom (activeLootDrops s') = {["loot_1"; "loot_2"]}.
Proof. do 3 eexists. vm_compute. repeat split. Qed.

End LootDropsProofs.

(** ** ResourceService: what each call stores, and what it leaves alone *)

Module ResourceLedgerProofs.
Import Roblox ResourceService ResourceSpec.
Local Open Scope Q_scope.

Lemma clamp_inside (x mx : Q) :
  0 <= x → x <= mx → Num.math_max 0 (Num.math_min x mx) = x.
Proof.
  intros H0 H1. apply Qle_bool_iff in H0, H1.
  unfold Num.math_max, Num.math_min. by rewrite H1, H0.
Qed.

Lemma clamp_below (x mx : Q) :
  x <= 0 → 0 <= mx → Num.math_max 0 (Num.math_min x mx) == 0.
Proof.
  intros H0 Hm. unfold Num.math_max, Num.math_min.
  destruct (Qle_bool x mx) eqn:H1.
  - destruct (Qle_bool 0 x) eqn:H2; [|reflexivity].
    apply Qle_bool_iff in H2. by apply Qle_antisym.
  - destruct (Qle_bool 0 mx) eqn:H2; [|reflexivity].
    assert (¬ x <= mx) as []; [by rewrite <- Qle_bool_iff, H1|].
    by eapply Qle_trans.
Qed.

Lemma clamp_above (x mx : Q) :
  mx <= x → 0 <= mx → Num.math_max 0 (Num.math_min x mx) == mx.
Proof.
  intros H0 Hm. unfold Num.math_max, Num.math_min.
  destruct (Qle_bool x mx) eqn:H1.
  - apply Qle_bool_iff in H1.
    assert (0 <= x) as H2%Qle_bool_iff by by eapply Qle_trans.
    rewrite H2. by apply Qle_antisym.
  - apply Qle_bool_iff in Hm. rewrite Hm. reflexivity.
Qed.

(** *** Initialisation *)

Lemma initialResources_lookup DEFAULT_RESOURCES keys acc (k : ResourceKey) :
  (initialResources DEFAULT_RESOURCES keys acc).1 !! k
  = match (if bool_decide (k ∈ keys) then DEFAULT_RESOURCES k else None) with
    | Some (c, _) => Some c
    | None => acc.1 !! k
    end
  ∧ (initialResources DEFAULT_RESOURCES keys acc).2 !! k
    = match (if bool_decide (k ∈ keys) then DEFAULT_RESOURCES k else None)
      with
      | Some (_, m) => Some m
      | None => acc.2 !! k
      end.
Proof.
  revert acc. induction keys as [|key keys IH]; intros acc; [done|].
  cbn [initialResources]. destruct (IH
    match DEFAULT_RESOURCES key with
    | Some (current, max) =>
        (<[key := current]> acc.1, <[key := max]> acc.2)
    | None => acc
    end) as [-> ->]. clear IH.
  destruct (decide (k = key)) as [->|Hne].
  - rewrite (bool_decide_eq_true_2 (key ∈ key :: keys)) by left.
    destruct (bool_decide (key ∈ keys)), (DEFAULT_RESOURCES key)
      as [[c m]|]; simpl; by rewrite ?lookup_insert_eq.
  - assert (bool_decide (k ∈ key :: keys) = bool_decide (k ∈ keys)) as ->.
    { apply bool_decide_ext. rewrite elem_of_cons.
      split; [by intros [?|?] | by right]. }
    destruct (bool_decide (k ∈ keys)), (DEFAULT_RESOURCES k) as [[c m]|];
      try done;
      destruct (DEFAULT_RESOURCES key) as [[c' m']|]; simpl;
      by rewrite ?lookup_insert_ne.
Qed.

(** X7: [initializePlayerResources] gives the player exactly the defaults:
    a key has a current value and a maximum afterwards if and only if it
    is one of [RESOURCE_KEYS] and has defaults, and they are those
    defaults, whatever record the player had before; the records of the
    other players and the events raised so far are left as they were. *)
Theorem initialize_sets_defaults RESOURCE_KEYS DEFAULT_RESOURCES s p now
    (k : ResourceKey) :
  let s' :=
    initializePlayerResources RESOURCE_KEYS DEFAULT_RESOURCES s p now in
  getPlayerResource s' p k
  = (if bool_decide (k ∈ RESOURCE_KEYS)
     then fst <$> DEFAULT_RESOURCES k else None)
  ∧ getPlayerMaxResource s' p k
    = (if bool_decide (k ∈ RESOURCE_KEYS)
       then snd <$> DEFAULT_RESOURCES k else None)
  ∧ (∀ pid, pid ≠ UserId p →
       playerResources s' !! pid = playerResources s !! pid)
  ∧ events s' = events s.
Proof.
  simpl. unfold initializePlayerResources, getPlayerResource,
    getPlayerMaxResource.
  pose proof (initialResources_lookup DEFAULT_RESOURCES RESOURCE_KEYS
                (∅, ∅) k) as [H1 H2].
  destruct (initialResources DEFAULT_RESOURCES RESOURCE_KEYS (∅, ∅))
    as [rs ms]. simpl in *. rewrite lookup_insert_eq. simpl.
  rewrite H1, H2. repeat split.
  - destruct (bool_decide _); [|done].
    by destruct (DEFAULT_RESOURCES k) as [[c m]|].
  - destruct (bool_decide _); [|done].
    by destruct (DEFAULT_RESOURCES k) as [[c m]|].
  - intros pid Hne. by rewrite lookup_insert_ne.
Qed.

Section Proofs.

Variable ResourceMeta : Type.
Variable ResourceMetaRecord : ResourceKey → option ResourceMeta.

Local Abbreviation onResourceChanged :=
  (onResourceChanged ResourceMeta ResourceMetaRecord).
Local Abbreviation setPlayerResource :=
  (setPlayerResource ResourceMeta ResourceMetaRecord).
Local Abbreviation modifyPlayerResource :=
  (modifyPlayerResource ResourceMeta ResourceMetaRecord).
Local Abbreviation consumeResource :=
  (consumeResource ResourceMeta ResourceMetaRecord).
Local Abbreviation restoreResource :=
  (restoreResource ResourceMeta ResourceMetaRecord).
Local Abbreviation mutate := (mutate ResourceMeta ResourceMetaRecord).

(** What [setPlayerResource] returns, by the two lookups it makes. *)
Lemma setPlayerResource_result s p k v now :
  match getPlayerMaxResource s p k with
  | None => setPlayerResource s p k v now = (false, s)
  | Some mx =>
      ∃ pd s',
        setPlayerResource s p k v now = (true, s')
        ∧ playerResources s !! UserId p = Some pd
        ∧ maxResources pd !! k = Some mx
        ∧ playerResources s'
          = <[UserId p :=
                {| playerId := playerId pd;
                   resources :=
                     <[k := Num.math_max 0 (Num.math_min v mx)]>
                       (resources pd);
                   maxResources := maxResources pd;
                   lastUpdated := now |}]> (playerResources s)
  end.
Proof.
  unfold getPlayerMaxResource, ResourceService.setPlayerResource.
  destruct (playerResources s !! UserId p) as [pd|] eqn:Hpd; simpl; [|done].
  destruct (maxResources pd !! k) as [mx|] eqn:Hmx; [|done].
  eexists pd, _. split; [done|]. split; [done|]. split; [done|].
  by rewrite ResourceServiceProofs.playerResources_onResourceChanged.
Qed.

Lemma setPlayerResource_stores s p k v now mx :
  getPlayerMaxResource s p k = Some mx →
  (setPlayerResource s p k v now).1 = true
  ∧ getPlayerResource (setPlayerResource s p k v now).2 p k
    = Some (Num.math_max 0 (Num.math_min v mx))
  ∧ getPlayerMaxResource (setPlayerResource s p k v now).2 p k = Some mx.
Proof.
  intros Hmx. pose proof (setPlayerResource_result s p k v now) as H.
  rewrite Hmx in H. destruct H as (pd & s' & -> & Hpd & Hk & Hs').
  simpl. unfold getPlayerResource, getPlayerMaxResource.
  rewrite Hs', lookup_insert_eq. simpl. by rewrite lookup_insert_eq.
Qed.

Lemma setPlayerResource_frame s p k v now :
  ((setPlayerResource s p k v now).1 = false →
   (setPlayerResource s p k v now).2 = s)
  ∧ (∀ pid, pid ≠ UserId p →
       playerResources (setPlayerResource s p k v now).2 !! pid
       = playerResources s !! pid)
  ∧ (∀ q k', UserId q ≠ UserId p ∨ k' ≠ k →
       getPlayerResource (setPlayerResource s p k v now).2 q k'
       = getPlayerResource s q k')
  ∧ (∀ q k',
       getPlayerMaxResource (setPlayerResource s p k v now).2 q k'
       = getPlayerMaxResource s q k').
Proof.
  pose proof (setPlayerResource_result s p k v now) as H.
  destruct (getPlayerMaxResource s p k) as [mx|]; [|by rewrite H].
  destruct H as (pd & s' & -> & Hpd & Hk & Hs'). simpl.
  unfold getPlayerResource, getPlayerMaxResource. rewrite Hs'.
  split; [done|]. split; [by intros pid Hne; rewrite lookup_insert_ne|].
  split.
  - intros q k' Hqk. destruct (decide (UserId q = UserId p)) as [Heq|Hne].
    + rewrite Heq, lookup_insert_eq, Hpd. simpl.
      destruct Hqk as [?|Hk']; [done|]. by rewrite lookup_insert_ne.
    + by rewrite lookup_insert_ne.
  - intros q k'. destruct (decide (UserId q = UserId p)) as [Heq|Hne].
    + by rewrite Heq, lookup_insert_eq, Hpd.
    + by rewrite lookup_insert_ne.
Qed.

Lemma setPlayerMaxResource_frame s p k mx now :
  ((setPlayerMaxResource s p k mx now).1 = false →
   (setPlayerMaxResource s p k mx now).2 = s)
  ∧ (∀ pid, pid ≠ UserId p →
       playerResources (setPlayerMaxResource s p k mx now).2 !! pid
       = playerResources s !! pid)
  ∧ (∀ q k', UserId q ≠ UserId p ∨ k' ≠ k →
       getPlayerResource (setPlayerMaxResource s p k mx now).2 q k'
       = getPlayerResource s q k'
       ∧ getPlayerMaxResource (setPlayerMaxResource s p k mx now).2 q k'
         = getPlayerMaxResource s q k').
Proof.
  unfold setPlayerMaxResource, getPlayerResource, getPlayerMaxResource.
  destruct (playerResources s !! UserId p) as [pd|] eqn:Hpd; simpl; [|done].
  split; [done|]. split; [by intros pid Hne; rewrite lookup_insert_ne|].
  intros q k' Hqk. destruct (decide (UserId q = UserId p)) as [Heq|Hne].
  - rewrite Heq, lookup_insert_eq, Hpd. simpl.
    destruct Hqk as [?|Hk']; [done|]. rewrite lookup_insert_ne by done.
    split; [|done].
    destruct (resources pd !! k) as [c|]; [|done].
    destruct (Num.Qgtb c mx); [|done]. by rewrite lookup_insert_ne.
  - by rewrite !lookup_insert_ne.
Qed.

(** X8: a mutation touches one entry.  A call that returns false
    returns the service as it was; the records of the other players are
    untouched; for every other player or other key the current value and
    the maximum read the same before and after; and no call but setMax
    changes any maximum. *)
Theorem mutation_frame s m now :
  ((mutate s m now).1 = false → (mutate s m now).2 = s)
  ∧ (∀ pid, pid ≠ UserId (mutationPlayer m) →
       playerResources (mutate s m now).2 !! pid = playerResources s !! pid)
  ∧ (∀ q k, UserId q ≠ UserId (mutationPlayer m) ∨ k ≠ mutationKey m →
       getPlayerResource (mutate s m now).2 q k = getPlayerResource s q k
       ∧ getPlayerMaxResource (mutate s m now).2 q k
         = getPlayerMaxResource s q k)
  ∧ (isSetMax m = false → ∀ q k,
       getPlayerMaxResource (mutate s m now).2 q k
       = getPlayerMaxResource s q k).
Proof.
  destruct (isSetMax m) eqn:Hm.
  - destruct m as [| | | |p k mx]; try discriminate. simpl.
    destruct (setPlayerMaxResource_frame s p k mx now) as (H1 & H2 & H3).
    done.
  - destruct (ResourceServiceProofs.mutate_as_set _ ResourceMetaRecord
                s m now Hm) as [[v ->] | ->]; [|done].
    destruct (setPlayerResource_frame s (mutationPlayer m) (mutationKey m)
                v now) as (H1 & H2 & H3 & H4).
    split; [done|]. split; [done|]. split; [|done].
    intros q k Hqk. split; [by apply H3 | by apply H4].
Qed.

(** X9: [consumeResource] succeeds exactly when the key has a current
    value of at least the amount (and a maximum); it then stores the
    current value less the amount, held between 0 and the maximum, which
    is the plain difference for a non-negative amount and a current value
    within its maximum; in every other case it returns false and the
    service as it was. *)
Theorem consume_subtracts s p k amount now :
  match getPlayerResource s p k, getPlayerMaxResource s p k with
  | Some cur, Some mx =>
      (amount <= cur →
       (consumeResource s p k amount now).1 = true
       ∧ getPlayerResource (consumeResource s p k amount now).2 p k
         = Some (Num.math_max 0 (Num.math_min (cur - amount) mx))
       ∧ (0 <= amount → cur <= mx →
          getPlayerResource (consumeResource s p k amount now).2 p k
          = Some (cur - amount)))
      ∧ (cur < amount → consumeResource s p k amount now = (false, s))
  | _, _ => consumeResource s p k amount now = (false, s)
  end.
Proof.
  unfold ResourceService.consumeResource, hasEnoughResource,
    ResourceService.modifyPlayerResource.
  destruct (getPlayerResource s p k) as [cur|] eqn:Hcur; [|done].
  destruct (getPlayerMaxResource s p k) as [mx|] eqn:Hmx.
  - split.
    + intros Hle. apply StoreLemmas.Qgeb_true in Hle as Hb. rewrite Hb.
      destruct (setPlayerResource_stores s p k (cur + - amount) now mx Hmx)
        as (H1 & H2 & _).
      split; [done|]. split; [done|]. intros Ha Hc. rewrite H2.
      f_equal. apply clamp_inside.
      * unfold Qminus in *. rewrite <- (Qplus_opp_r amount).
        by apply Qplus_le_l.
      * apply Qle_trans with cur; [|done].
        rewrite <- (Qplus_0_r cur) at 2. apply Qplus_le_r.
        change 0 with (- 0). by apply Qopp_le_compat.
    + intros Hlt. apply StoreLemmas.Qgeb_false in Hlt. by rewrite Hlt.
  - destruct (Num.Qgeb cur amount); [|done].
    pose proof (setPlayerResource_result s p k (cur + - amount) now) as H.
    by rewrite Hmx in H.
Qed.

(** With a non-negative maximum, [modifyPlayerResource] succeeds on a
    key that has a current value and stores the sum of the current value
    and the delta when that lies between 0 and the maximum, 0 when the
    sum is at or below 0 and the maximum when it is at or above it;
    [restoreResource] stores the maximum itself. *)
Theorem modify_saturates s p k delta now cur mx :
  getPlayerResource s p k = Some cur →
  getPlayerMaxResource s p k = Some mx →
  0 <= mx →
  (modifyPlayerResource s p k delta now).1 = true
  ∧ (∃ v, getPlayerResource (modifyPlayerResource s p k delta now).2 p k
          = Some v
          ∧ (0 <= cur + delta → cur + delta <= mx → v = cur + delta)
          ∧ (cur + delta <= 0 → v == 0)
          ∧ (mx <= cur + delta → v == mx))
  ∧ (restoreResource s p k now).1 = true
  ∧ getPlayerResource (restoreResource s p k now).2 p k = Some mx.
Proof.
  intros Hcur Hmx Hm.
  unfold ResourceService.modifyPlayerResource,
    ResourceService.restoreResource. rewrite Hcur, Hmx.
  destruct (setPlayerResource_stores s p k (cur + delta) now mx Hmx)
    as (H1 & H2 & _).
  destruct (setPlayerResource_stores s p k mx now mx Hmx) as (H3 & H4 & _).
  split; [done|]. split.
  - eexists. split; [done|]. split; [apply clamp_inside|].
    split; intros H; [by apply clamp_below | by apply clamp_above].
  - split; [done|]. rewrite H4. f_equal. apply clamp_inside; [done|].
    apply Qle_refl.
Qed.

(** X11: [setPlayerMaxResource] succeeds exactly for a player with a
    record, whatever the key; it stores the maximum, lowers a current
    value above the new maximum to it and leaves any other current value
    (or the absence of one) as it was; it raises no event, also when the
    lowered value is 0 or under a fifth of the maximum. *)
Theorem setMax_is_silent s p k mx now :
  events (setPlayerMaxResource s p k mx now).2 = events s
  ∧ (setPlayerMaxResource s p k mx now).1
    = bool_decide (is_Some (playerResources s !! UserId p))
  ∧ ((setPlayerMaxResource s p k mx now).1 = true →
     getPlayerMaxResource (setPlayerMaxResource s p k mx now).2 p k
     = Some mx
     ∧ getPlayerResource (setPlayerMaxResource s p k mx now).2 p k
       = (λ cur, if Num.Qgtb cur mx then mx else cur)
           <$> getPlayerResource s p k).
Proof.
  unfold setPlayerMaxResource, getPlayerResource, getPlayerMaxResource.
  destruct (playerResources s !! UserId p) as [pd|] eqn:Hpd; simpl;
    [|done].
  split; [done|]. split; [done|]. intros _. rewrite lookup_insert_eq. simpl.
  rewrite lookup_insert_eq. split; [done|].
  destruct (resources pd !! k) as [c|] eqn:Hc; simpl; [|done].
  destruct (Num.Qgtb c mx); [by rewrite lookup_insert_eq | done].
Qed.

Lemma no_record_fails s m now :
  playerResources s !! UserId (mutationPlayer m) = None →
  mutate s m now = (false, s).
Proof.
  destruct m as [p k v|p k d|p k a|p k|p k mx]; simpl; intros H.
  - unfold ResourceService.setPlayerResource. by rewrite H.
  - unfold ResourceService.modifyPlayerResource, getPlayerResource.
    by rewrite H.
  - unfold ResourceService.consumeResource, hasEnoughResource,
      getPlayerResource. by rewrite H.
  - unfold ResourceService.restoreResource, getPlayerMaxResource.
    by rewrite H.
  - unfold setPlayerMaxResource. by rewrite H.
Qed.

(** After [cleanupPlayer] the player has no resources: every read
    gives nothing, [hasEnoughResource] is false for every amount, and
    every mutation for the player returns false and changes nothing; the
    other players keep their records. *)
Theorem cleanupPlayer_forgets s m now :
  let p := mutationPlayer m in
  mutate (cleanupPlayer s p) m now = (false, cleanupPlayer s p)
  ∧ (∀ k amount,
       getPlayerResource (cleanupPlayer s p) p k = None
       ∧ getPlayerMaxResource (cleanupPlayer s p) p k = None
       ∧ hasEnoughResource (cleanupPlayer s p) p k amount = false)
  ∧ (∀ pid, pid ≠ UserId p →
       playerResources (cleanupPlayer s p) !! pid
       = playerResources s !! pid).
Proof.
  simpl. set (p := mutationPlayer m).
  assert (Hnone : playerResources (cleanupPlayer s p) !! UserId p = None)
    by apply lookup_delete_eq.
  assert (Hget : ∀ k, getPlayerResource (cleanupPlayer s p) p k = None).
  { intros k. unfold getPlayerResource. by rewrite Hnone. }
  assert (Hmax : ∀ k, getPlayerMaxResource (cleanupPlayer s p) p k = None).
  { intros k. unfold getPlayerMaxResource. by rewrite Hnone. }
  split; [|split].
  - by apply no_record_fails.
  - intros k amount. unfold hasEnoughResource. by rewrite Hget, Hmax.
  - intros pid Hne. simpl. by rewrite lookup_delete_ne.
Qed.

End Proofs.

Lemma modify_saturates_witness :
  ∃ v,
    getPlayerResource
      (modifyPlayerResource _ Samples.ResourceMetaRecord Samples.ledger
         Samples.alice "Health" (- 130) 1).2 Samples.alice "Health"
    = Some v
    ∧ v == 0.
Proof.
  destruct (modify_saturates _ Samples.ResourceMetaRecord Samples.ledger
              Samples.alice "Health" (- 130) 1 100 100)
    as (_ & (v & Hv & _ & H0 & _) & _); [done | done | done |].
  exists v. split; [exact Hv | by apply H0].
Defined.

End ResourceLedgerProofs.

(** ** NPCService: ids, deaths and removals *)

Module NPCLifecycleProofs.
Import Roblox NPCService NPCSpec NPCStoreSpec.
Local Open Scope Q_scope.

Section Proofs.

Variable NPCMetaMap : NPCKey → option NPCMeta.

Local Abbreviation spawnNPC := (spawnNPC NPCMetaMap).
Local Abbreviation damageNPC := (damageNPC NPCMetaMap).
Local Abbreviation handleNPCDeath := (handleNPCDeath NPCMetaMap).
Local Abbreviation call := (call NPCMetaMap).
Local Abbreviation run := (run NPCMetaMap).

Lemma handleNPCDeath_fields s ref npc :
  nextNPCId (handleNPCDeath s ref npc) = nextNPCId s
  ∧ waiting (handleNPCDeath s ref npc) = waiting s ++ [id npc]
  ∧ effects (handleNPCDeath s ref npc)
    = effects s
      ++ match NPCMetaMap (npcKey npc) ≫= lootTable with
         | Some table => [lootDropped (npcKey npc) table]
         | None => []
         end.
Proof.
  unfold NPCService.handleNPCDeath, getNPCMeta. cbn.
  destruct (NPCMetaMap (npcKey npc)) as [meta|]; cbn;
    [|by rewrite app_nil_r].
  destruct (lootTable meta); cbn; [done | by rewrite app_nil_r].
Qed.

Lemma npc_call_storeOk s c : storeOk s → storeOk (call s c).
Proof.
  intros Hs. destruct c as [k pos created now|k|k damage|k]; cbn [call].
  - unfold NPCService.spawnNPC, getNPCMeta.
    destruct (NPCMetaMap k) as [meta|]; [|done].
    destruct created as [m|]; [|done]. intros key npc. simpl.
    destruct (decide ("npc_" +:+ pretty (nextNPCId s) = key)) as [<-|Hne].
    + rewrite lookup_insert_eq. intros [= <-]. simpl.
      split; [done|]. split; [|done]. exists (nextNPCId s).
      split; [done | lia].
    + rewrite lookup_insert_ne by done. intros Hk.
      destruct (Hs _ _ Hk) as (H1 & (n & H2 & H3) & H4).
      split; [done|]. split; [|done]. exists n. split; [done | lia].
  - unfold despawnNPC. destruct (spawnedNPCs s !! k); [|done].
    intros key npc. simpl. intros Hk. apply lookup_delete_Some in Hk as [_ Hk].
    by apply Hs.
  - unfold NPCService.damageNPC.
    destruct (spawnedNPCs s !! k) as [old|] eqn:Hold; [|done].
    destruct (isAlive old) eqn:Halive; cbn [negb]; [|done].
    destruct (Hs _ _ Hold) as (Hid & Hn & _). cbn [health].
    destruct (Qle_bool (Num.math_max 0 (health old - damage)) 0);
      cbn [snd]; intros key npc.
    + match goal with
      | |- context [NPCService.handleNPCDeath _ ?s0 _ ?n0] =>
          destruct (handleNPCDeath_fields s0 k n0) as (-> & -> & _)
      end.
      rewrite NPCServiceProofs.spawnedNPCs_handleNPCDeath.
      cbn [spawnedNPCs nextNPCId waiting id].
      destruct (decide (k = key)) as [<-|Hne].
      * rewrite lookup_insert_eq. intros [= <-]. cbn.
        split; [done|]. split; [done|]. intros _. rewrite Hid.
        apply elem_of_app. right. by left.
      * rewrite !lookup_insert_ne by done. intros Hk.
        destruct (Hs _ _ Hk) as (H1 & H2 & H3).
        split; [done|]. split; [done|]. intros Hd.
        apply elem_of_app. left. by apply H3.
    + cbn [spawnedNPCs nextNPCId waiting].
      destruct (decide (k = key)) as [<-|Hne].
      * rewrite lookup_insert_eq. intros [= <-]. cbn.
        split; [done|]. split; [done|]. done.
      * rewrite lookup_insert_ne by done. apply Hs.
  - destruct (bool_decide (k ∈ waiting s)); [|done].
    unfold resumeNPCDeath, despawnNPC. intros key npc.
    destruct (spawnedNPCs s !! k) as [old|] eqn:Hold; simpl.
    + intros Hk. apply lookup_delete_Some in Hk as [Hne Hk].
      destruct (Hs _ _ Hk) as (H1 & H2 & H3).
      split; [done|]. split; [done|]. intros Hd.
      apply list_elem_of_filter. split; [congruence | by apply H3].
    + intros Hk. destruct (Hs _ _ Hk) as (H1 & H2 & H3).
      split; [done|]. split; [done|]. intros Hd.
      apply list_elem_of_filter. split; [congruence | by apply H3].
Qed.

Lemma npc_run_storeOk cs s : storeOk s → storeOk (run s cs).
Proof.
  revert s. induction cs as [|c cs IH]; intros s Hs; [done|].
  simpl. by apply IH, npc_call_storeOk.
Qed.

(** X12: after any sequence of spawn, despawn, damage and resume calls,
    every NPC is stored under its own id, an id ["npc_" n] with [n]
    below the id counter, and a dead NPC that is still stored is among
    those awaiting removal.  [spawnNPC] then returns nothing and changes
    nothing exactly when the key is unknown or no model was created;
    otherwise its NPC goes under an id that was not in use, so no NPC is
    ever replaced. *)
Theorem npc_ids_are_fresh cs npcKey position created now :
  storeOk (run empty cs)
  ∧ match spawnNPC (run empty cs) npcKey position created now with
    | (Some npc, s') =>
        spawnedNPCs (run empty cs) !! id npc = None
        ∧ spawnedNPCs s' = <[id npc := npc]> (spawnedNPCs (run empty cs))
        ∧ is_Some (NPCMetaMap npcKey) ∧ is_Some created
    | (None, s') =>
        s' = run empty cs ∧ (NPCMetaMap npcKey = None ∨ created = None)
    end.
Proof.
  assert (Hs : storeOk (run empty cs)).
  { apply npc_run_storeOk. intros key npc. cbn. by rewrite lookup_empty. }
  split; [done|]. unfold NPCService.spawnNPC, getNPCMeta.
  destruct (NPCMetaMap npcKey) as [meta|]; [|by auto].
  destruct created as [m|]; [|by auto]. cbn.
  split; [|by eauto].
  destruct (spawnedNPCs (run empty cs)
              !! ("npc_" +:+ pretty (nextNPCId (run empty cs))))
    as [npc|] eqn:Hk; [|done].
  destruct (Hs _ _ Hk) as (_ & (n & Heq & Hlt) & _).
  apply StoreLemmas.prefixed_pretty_inj in Heq. lia.
Qed.

(** X13: damage to an NPC that is alive and stored under its own id.
    Damage below its health stores the health less the damage (more
    health, for a negative damage), returns true and does nothing else.  Damage of
    at least its health leaves the call suspended with the NPC stored
    dead at no health, the loot effect raised exactly when the metadata
    of the NPC names a loot table; once the wait is over the NPC is
    removed from the store and its model destroyed. *)
Theorem damage_outcomes s npcId npc damage :
  spawnedNPCs s !! npcId = Some npc →
  isAlive npc = true →
  id npc = npcId →
  (damage < health npc →
   ∃ npc',
     damageNPC s npcId damage
     = (Returned true,
        {| spawnedNPCs := <[npcId := npc']> (spawnedNPCs s);
           nextNPCId := nextNPCId s; waiting := waiting s;
           effects := effects s |})
     ∧ isAlive npc' = true ∧ maxHealth npc' = maxHealth npc
     ∧ health npc' = health npc - damage)
  ∧ (health npc <= damage →
     ∃ npc' s1,
       damageNPC s npcId damage = (Suspended npcId, s1)
       ∧ spawnedNPCs s1 = <[npcId := npc']> (spawnedNPCs s)
       ∧ isAlive npc' = false ∧ health npc' == 0
       ∧ waiting s1 = waiting s ++ [npcId]
       ∧ effects s1
         = effects s
           ++ match NPCMetaMap (npcKey npc) ≫= lootTable with
              | Some table => [lootDropped (npcKey npc) table]
              | None => []
              end
       ∧ (resumeNPCDeath s1 npcId).1 = true
       ∧ spawnedNPCs (resumeNPCDeath s1 npcId).2
         = delete npcId (spawnedNPCs s)
       ∧ effects (resumeNPCDeath s1 npcId).2
         = effects s1 ++ [modelDestroyed (model npc)]).
Proof.
  intros Hnpc Halive Hid. unfold NPCService.damageNPC.
  rewrite Hnpc, Halive. cbn [negb health]. split.
  - intros Hlt.
    assert (Hpos : Qle_bool 0 (health npc - damage) = true).
    { apply Qle_bool_iff. unfold Qminus.
      rewrite <- (Qplus_opp_r damage). apply Qplus_le_l.
      by apply Qlt_le_weak. }
    assert (Hnz : Qle_bool (health npc - damage) 0 = false).
    { apply not_true_iff_false. rewrite Qle_bool_iff.
      apply Qlt_not_le. unfold Qminus.
      rewrite <- (Qplus_opp_r damage). by apply Qplus_lt_l. }
    unfold Num.math_max. rewrite Hpos, Hnz. eexists. split; [done|].
    cbn. done.
  - intros Hle.
    assert (Hz : Num.math_max 0 (health npc - damage) == 0).
    { unfold Num.math_max.
      destruct (Qle_bool 0 (health npc - damage)) eqn:H0; [|reflexivity].
      apply Qle_bool_iff in H0. apply Qle_antisym; [|done].
      unfold Qminus. rewrite <- (Qplus_opp_r damage).
      by apply Qplus_le_l. }
    assert (Hb : Qle_bool (Num.math_max 0 (health npc - damage)) 0 = true).
    { apply Qle_bool_iff. rewrite Hz. apply Qle_refl. }
    rewrite Hb.
    match goal with
    | |- ∃ _ _, (_, NPCService.handleNPCDeath _ ?s0 _ ?n0) = _ ∧ _ =>
        destruct (handleNPCDeath_fields s0 npcId n0) as (Hn & Hw & He);
        pose proof (NPCServiceProofs.spawnedNPCs_handleNPCDeath
                      NPCMetaMap s0 npcId n0) as Hst;
        set (s1 := NPCService.handleNPCDeath NPCMetaMap s0 npcId n0) in *
    end.
    cbn [id npcKey spawnedNPCs waiting effects] in *.
    rewrite insert_insert_eq in Hst.
    eexists _, s1. split; [by rewrite Hid|]. split; [exact Hst|].
    split; [done|]. split; [exact Hz|]. split; [by rewrite Hw, Hid|].
    split; [done|]. unfold resumeNPCDeath, despawnNPC.
    rewrite Hst, lookup_insert_eq. cbn.
    split; [done|]. split; [|done]. by rewrite delete_insert_eq.
Qed.

End Proofs.

Lemma damage_outcomes_witness :
  ∃ npc',
    NPCService.damageNPC Samples.NPCMetaMap
      (run Samples.NPCMetaMap empty [Samples.spawnZombie]) "npc_1" 30
    = (Returned true,
       {| spawnedNPCs :=
            <["npc_1" := npc']>
              (spawnedNPCs
                 (run Samples.NPCMetaMap empty [Samples.spawnZombie]));
          nextNPCId := 2; waiting := []; effects := [] |})
    ∧ health npc' = 100 - 30.
Proof.
  destruct (damage_outcomes Samples.NPCMetaMap
              (run Samples.NPCMetaMap empty [Samples.spawnZombie])
              "npc_1" (Samples.zombie 100 true) 30
              eq_refl eq_refl eq_refl) as [H _].
  destruct (H eq_refl) as (npc' & H1 & _ & _ & H2).
  exists npc'. split; [exact H1 | exact H2].
Defined.

End NPCLifecycleProofs.

(** ** CombatService *)

Module CombatServiceProofs.
Import CombatService.
Local Open Scope Q_scope.

Lemma max1_le (x : Q) : 1 <= Num.math_max 1 x ∧ x <= Num.math_max 1 x.
Proof.
  unfold Num.math_max. destruct (Qle_bool 1 x) eqn:H.
  - apply Qle_bool_iff in H. split; [done | apply Qle_refl].
  - split; [apply Qle_refl|]. apply Qlt_le_weak, Qnot_le_lt.
    rewrite <- Qle_bool_iff. by rewrite H.
Qed.

(** X14: the damage of an attack is at least 1 whatever the stats, it is
    the attack less the defense when that is at least 1, and it does not
    fall when the attack grows or the defense shrinks. *)
Theorem calculateDamage_floor attacker attacker' target target' :
  1 <= calculateDamage attacker target
  ∧ (1 <= attack attacker - defense target →
     calculateDamage attacker target = attack attacker - defense target)
  ∧ (attack attacker - defense target <= 1 →
     calculateDamage attacker target == 1)
  ∧ (attack attacker <= attack attacker' →
     defense target' <= defense target →
     calculateDamage attacker target
     <= calculateDamage attacker' target').
Proof.
  unfold calculateDamage.
  set (x := attack attacker - defense target).
  set (y := attack attacker' - defense target').
  split; [apply max1_le|]. split; [|split].
  - intros H. apply Qle_bool_iff in H. unfold Num.math_max. by rewrite H.
  - intros H. unfold Num.math_max. destruct (Qle_bool 1 x) eqn:H1.
    + apply Qle_bool_iff in H1. by apply Qle_antisym.
    + reflexivity.
  - intros Ha Hd.
    assert (Hxy : x <= y).
    { unfold x, y, Qminus. apply Qplus_le_compat; [done|].
      by apply Qopp_le_compat. }
    destruct (max1_le y) as [H1 H2]. unfold Num.math_max at 1.
    destruct (Qle_bool 1 x); [by eapply Qle_trans | done].
Qed.

(** X15: [checkHit] reads one draw and hits exactly when the draw is at
    most the accuracy; with draws of the half-open unit interval an
    accuracy of 1 or more always hits and a negative accuracy never
    does. *)
Theorem checkHit_edges accuracy g :
  Rng.unit_draws g →
  ∃ hit,
    checkHit accuracy g
    = Some (hit, {| Rng.draws := Rng.draws g; Rng.pos := S (Rng.pos g) |})
    ∧ (hit = true ↔ Rng.draws g (Rng.pos g) <= accuracy)
    ∧ (1 <= accuracy → hit = true)
    ∧ (accuracy < 0 → hit = false).
Proof.
  intros Hg. destruct (Hg (Rng.pos g)) as [H0 H1].
  exists (Qle_bool (Rng.draws g (Rng.pos g)) accuracy).
  split; [done|]. split; [apply Qle_bool_iff|]. split.
  - intros Ha. apply Qle_bool_iff, Qlt_le_weak.
    by eapply Qlt_le_trans.
  - intros Ha. apply not_true_iff_false. rewrite Qle_bool_iff.
    apply Qlt_not_le. by eapply Qlt_le_trans.
Qed.

Lemma checkHit_edges_witness :
  Rng.unit_draws Samples.halves
  ∧ ∃ hit, fst <$> checkHit (1 # 4) Samples.halves = Some hit
           ∧ ¬ hit = true.
Proof.
  assert (Hg : Rng.unit_draws Samples.halves) by (intros i; by split).
  split; [exact Hg|].
  destruct (checkHit_edges (1 # 4) Samples.halves Hg)
    as (hit & -> & Hiff & _).
  exists hit. split; [reflexivity|]. intros Hhit.
  apply Hiff in Hhit. by apply Hhit.
Defined.

End CombatServiceProofs.

(** ** WorldService *)

Module WorldServiceProofs.
Import Roblox WorldService WorldSpec.
Local Open Scope Q_scope.

Lemma contains_inside zone position :
  contains zone position = true ↔ inside zone position.
Proof.
  unfold contains, inside, Num.Qgeb.
  rewrite !andb_true_iff, !Qle_bool_iff. tauto.
Qed.

Lemma zone_found_or_none s position :
  match getZoneAtPosition s position with
  | Some zone =>
      (∃ key, activeZones s !! key = Some zone) ∧ inside zone position
  | None =>
      ∀ (key : string) zone, activeZones s !! key = Some zone →
        ¬ inside zone position
  end.
Proof.
  unfold getZoneAtPosition.
  destruct (List.find _ _) as [[key zone]|] eqn:Hfind; simpl.
  - apply find_some in Hfind as [Hin Hc]. split.
    + exists key. apply elem_of_map_to_list.
      by apply list_elem_of_In.
    + by apply contains_inside.
  - intros key zone Hk Hi.
    pose proof (find_none _ _ Hfind (key, zone)) as Hf.
    apply contains_inside in Hi. simpl in Hf. rewrite Hf in Hi; [done|].
    apply list_elem_of_In. by apply elem_of_map_to_list.
Qed.

Lemma only_zone_found s position (key : string) zone :
  activeZones s !! key = Some zone → inside zone position →
  (∀ (key' : string) zone',
     activeZones s !! key' = Some zone' → inside zone' position →
     zone' = zone) →
  getZoneAtPosition s position = Some zone.
Proof.
  intros Hk Hi Huniq. pose proof (zone_found_or_none s position) as H.
  destruct (getZoneAtPosition s position) as [zone'|].
  - destruct H as [[key' Hk'] Hi']. f_equal. by eapply Huniq.
  - exfalso. by eapply H.
Qed.

(** X16: [getZoneAtPosition] returns a registered zone whose box holds
    the position, faces included, and returns nothing only when no
    registered zone holds it; so a position that exactly one zone holds
    is resolved to that zone, whatever the order of the map.  A zone is
    registered under its id, in place of the zone that had the id, and
    is found at the positions that it alone holds. *)
Theorem zone_at_position s position :
  match getZoneAtPosition s position with
  | Some zone =>
      (∃ key, activeZones s !! key = Some zone) ∧ inside zone position
  | None =>
      ∀ (key : string) zone, activeZones s !! key = Some zone →
        ¬ inside zone position
  end
  ∧ (∀ (key : string) zone,
       activeZones s !! key = Some zone → inside zone position →
       (∀ (key' : string) zone',
          activeZones s !! key' = Some zone' → inside zone' position →
          zone' = zone) →
       getZoneAtPosition s position = Some zone)
  ∧ (∀ zone,
       activeZones (registerZone s zone) !! id zone = Some zone
       ∧ (inside zone position →
          (∀ (key : string) zone',
             key ≠ id zone → activeZones s !! key = Some zone' →
             ¬ inside zone' position) →
          getZoneAtPosition (registerZone s zone) position = Some zone)).
Proof.
  split; [apply zone_found_or_none|].
  split; [apply only_zone_found|]. intros zone.
  assert (Hk : activeZones (registerZone s zone) !! id zone = Some zone)
    by apply lookup_insert_eq.
  split; [done|]. intros Hi Hother.
  apply (only_zone_found _ _ (id zone)); [done | done |].
  intros key' zone' Hk' Hi'. simpl in Hk'.
  destruct (decide (key' = id zone)) as [->|Hne].
  - rewrite lookup_insert_eq in Hk'. congruence.
  - rewrite lookup_insert_ne in Hk' by done. exfalso. by eapply Hother.
Qed.

Example shared_face_belongs_to_a_zone :
  getZoneAtPosition WorldSamples.world (WorldSamples.corner 15 5 5)
  = Some WorldSamples.swamp
  ∧ getZoneAtPosition WorldSamples.world (WorldSamples.corner 5 5 5)
    = Some WorldSamples.meadow
  ∧ is_Some
      (getZoneAtPosition WorldSamples.world (WorldSamples.corner 10 5 5))
  ∧ getZoneAtPosition WorldSamples.world (WorldSamples.corner 21 5 5)
    = None.
Proof. vm_compute. repeat split. by eexists. Qed.

End WorldServiceProofs.

(** ** MessageService: the queue and the histories, call by call *)

Module MessageQueueProofs.
Import Roblox MessageService MessageSpec StoreLemmas.
Local Open Scope Q_scope.

(** X17: [cancelMessage] returns true exactly when the id is queued, and
    removes that message and nothing else from the queue; the histories
    are untouched, so a cancelled message stays in the history of its
    recipient; cancelling the same id again returns false and changes
    nothing. *)
Theorem cancel_removes_one s messageId :
  (cancelMessage s messageId).1
  = bool_decide (is_Some (getMessage s messageId))
  ∧ getMessage (cancelMessage s messageId).2 messageId = None
  ∧ (∀ other, other ≠ messageId →
       getMessage (cancelMessage s messageId).2 other = getMessage s other)
  ∧ playerMessageHistory (cancelMessage s messageId).2
    = playerMessageHistory s
  ∧ cancelMessage (cancelMessage s messageId).2 messageId
    = (false, (cancelMessage s messageId).2).
Proof.
  unfold cancelMessage, getMessage. simpl.
  split; [done|]. split; [apply lookup_delete_eq|].
  split; [by intros other Hne; apply lookup_delete_ne|]. split; [done|].
  by rewrite lookup_delete_eq, delete_delete_eq.
Qed.

(** X18: [cleanupPlayer] removes from the queue exactly the messages
    addressed to the player: the messages of other players and the
    broadcasts stay; the history of the player is gone and the other
    histories are as before. *)
Theorem cleanupPlayer_removes_own s player :
  (∀ messageId q,
     getMessage (cleanupPlayer s player) messageId = Some q
     ↔ getMessage s messageId = Some q
       ∧ recipientId q ≠ Some (UserId player))
  ∧ getPlayerMessageHistory (cleanupPlayer s player) player = []
  ∧ (∀ other, UserId other ≠ UserId player →
       getPlayerMessageHistory (cleanupPlayer s player) other
       = getPlayerMessageHistory s other).
Proof.
  split; [|split].
  - intros messageId q. unfold getMessage.
    rewrite MessageServiceProofs.cleanupPlayer_lookup.
    destruct (messageQueue s !! messageId) as [q'|];
      [|by split; [|intros [? _]]].
    destruct (bool_decide (recipientId q' = Some (UserId player))) eqn:Hb.
    + apply bool_decide_eq_true in Hb. split; [done|].
      by intros [[= <-] Hne].
    + apply bool_decide_eq_false in Hb. split; [by intros [= <-]|].
      by intros [? _].
  - unfold getPlayerMessageHistory, cleanupPlayer. simpl.
    by rewrite lookup_delete_eq.
  - intros other Hne. unfold getPlayerMessageHistory, cleanupPlayer. simpl.
    by rewrite lookup_delete_ne.
Qed.

Lemma broadcast_history s (players : list Player) m (pid : Z) :
  NoDup (UserId <$> players) →
  playerMessageHistory
    (foldl (λ s player, addToPlayerHistory s (UserId player) m) s players)
    !! pid
  = if bool_decide (pid ∈ UserId <$> players)
    then Some (mostRecent MAX_HISTORY_PER_PLAYER
                 (default [] (playerMessageHistory s !! pid) ++ [m]))
    else playerMessageHistory s !! pid.
Proof.
  revert s. induction players as [|p ps IH]; intros s Hnd; [done|].
  rewrite fmap_cons in Hnd. apply NoDup_cons in Hnd as [Hp Hnd].
  cbn [foldl]. rewrite IH by done.
  rewrite MessageServiceProofs.addToPlayerHistory_lookup, fmap_cons.
  destruct (decide (UserId p = pid)) as [<-|Hne].
  - rewrite (bool_decide_eq_false_2 _ Hp).
    rewrite bool_decide_eq_true_2; [done | left].
  - destruct (bool_decide (pid ∈ UserId <$> ps)) eqn:Hin.
    + apply bool_decide_eq_true in Hin.
      rewrite bool_decide_eq_true_2; [done | by right].
    + apply bool_decide_eq_false in Hin.
      rewrite bool_decide_eq_false_2; [done|].
      intros [?|?]%elem_of_cons; done.
Qed.

Section Proofs.

Variable generateUniqueId : N → string.
Variable MessageMetaRecord : SeverityKey → option Color3.

Local Abbreviation createMessage :=
  (createMessage generateUniqueId MessageMetaRecord).
Local Abbreviation sendMessageToPlayer :=
  (sendMessageToPlayer generateUniqueId MessageMetaRecord).
Local Abbreviation sendMessageToPlayers :=
  (sendMessageToPlayers generateUniqueId MessageMetaRecord).
Local Abbreviation broadcastMessage :=
  (broadcastMessage generateUniqueId MessageMetaRecord).
Local Abbreviation sendSystemNotification :=
  (sendSystemNotification generateUniqueId MessageMetaRecord).
Local Abbreviation call := (call generateUniqueId MessageMetaRecord).
Local Abbreviation run := (run generateUniqueId MessageMetaRecord).

(** X19: a broadcast to connected players with distinct user ids queues
    one message without a recipient and appends it to the history of
    each connected player, where it is the newest of at most fifty; the
    histories of the players that are not connected are as before, and
    with nobody connected the message is queued all the same. *)
Theorem broadcast_reaches_connected s connected content title severity now :
  NoDup (UserId <$> connected) →
  ∃ q,
    getMessage (broadcastMessage s connected content title severity now).2
      (broadcastMessage s connected content title severity now).1
    = Some q
    ∧ recipientId q = None
    ∧ MessageService.content (message q) = content
    ∧ id (message q)
      = (broadcastMessage s connected content title severity now).1
    ∧ (∀ player,
         getPlayerMessageHistory
           (broadcastMessage s connected content title severity now).2
           player
         = if bool_decide (UserId player ∈ UserId <$> connected)
           then mostRecent 50
                  (getPlayerMessageHistory s player ++ [message q])
           else getPlayerMessageHistory s player).
Proof.
  intros Hnd. unfold MessageService.broadcastMessage, getMessage.
  cbn [createMessage MessageService.createMessage fst snd id].
  eexists. split.
  { rewrite (proj1 (MessageServiceProofs.broadcast_fields _ connected _)).
    simpl. apply lookup_insert_eq. }
  cbn [recipientId message MessageService.content id].
  split; [done|]. split; [done|]. split; [done|].
  intros player. unfold getPlayerMessageHistory.
  rewrite broadcast_history by done. cbn [playerMessageHistory].
  by destruct (bool_decide _).
Qed.

Lemma sendMessageToPlayers_as_run s players content title severity now :
  (sendMessageToPlayers s players content title severity now).2
  = run s ((λ p, SendToPlayer p content title severity now) <$> players).
Proof.
  revert s. induction players as [|p ps IH]; intros s; [done|].
  cbn [MessageService.sendMessageToPlayers].
  destruct (sendMessageToPlayer s p content title severity now)
    as [i s1] eqn:Hs.
  specialize (IH s1).
  destruct (sendMessageToPlayers s1 ps content title severity now)
    as [ids s2].
  cbn [snd] in *. rewrite IH, fmap_cons.
  unfold MessageService.run. cbn [foldl MessageService.call].
  by rewrite Hs.
Qed.

Hypothesis unique_ids : Inj (=) (=) generateUniqueId.

(** X20: with distinct ids from the generator, [sendMessageToPlayers]
    returns one id for each player, in the order of the players, the ids
    being the next ones of the generator and so all different; after the
    call every one of them is queued for its player, with the content and
    300 seconds to live. *)
Theorem send_to_each s players content title severity now :
  (sendMessageToPlayers s players content title severity now).1
  = (λ i : nat, generateUniqueId (idsIssued s + N.of_nat i)%N)
      <$> seq 0 (length players)
  ∧ NoDup (sendMessageToPlayers s players content title severity now).1
  ∧ Forall2
      (λ player messageId,
         ∃ q,
           getMessage
             (sendMessageToPlayers s players content title severity now).2
             messageId
           = Some q
           ∧ recipientId q = Some (UserId player)
           ∧ MessageService.content (message q) = content
           ∧ expiresAt q = now + 300)
      players
      (sendMessageToPlayers s players content title severity now).1.
Proof.
  assert (Hids : ∀ s,
            (sendMessageToPlayers s players content title severity now).1
            = (λ i : nat, generateUniqueId (idsIssued s + N.of_nat i)%N)
                <$> seq 0 (length players)).
  { induction players as [|p ps IH]; intros s0; [done|].
    cbn [MessageService.sendMessageToPlayers].
    destruct (sendMessageToPlayer s0 p content title severity now)
      as [i s1] eqn:Hs.
    specialize (IH s1).
    destruct (sendMessageToPlayers s1 ps content title severity now)
      as [ids s2].
    unfold MessageService.sendMessageToPlayer in Hs. cbn in Hs.
    injection Hs as <- <-. cbn [fst length seq] in *.
    rewrite fmap_cons, N.add_0_r. f_equal.
    rewrite IH, <- fmap_S_seq, <- list_fmap_compose.
    apply list_fmap_ext. intros _ i _. cbn. f_equal. lia. }
  split; [apply Hids|]. split.
  { rewrite Hids. apply NoDup_fmap_2; [|apply NoDup_seq].
    intros i j Hij%unique_ids. lia. }
  clear Hids. revert s.
  induction players as [|p ps IH]; intros s; [constructor|].
  pose proof (sendMessageToPlayers_as_run s (p :: ps) content title
                severity now) as Hrun.
  cbn [MessageService.sendMessageToPlayers] in *.
  destruct (sendMessageToPlayer s p content title severity now)
    as [i s1] eqn:Hs.
  specialize (IH s1).
  destruct (sendMessageToPlayers s1 ps content title severity now)
    as [ids s2].
  cbn [fst snd] in *. constructor; [|exact IH].
  rewrite fmap_cons in Hrun. unfold MessageService.run in Hrun.
  cbn [foldl MessageService.call] in Hrun. rewrite Hs in Hrun.
  cbn [snd] in Hrun. fold (run s1) in Hrun.
  unfold MessageService.sendMessageToPlayer in Hs. cbn in Hs.
  injection Hs as <- <-. eexists. split.
  - unfold getMessage. rewrite Hrun.
    apply (MessageServiceProofs.queue_run_keeps generateUniqueId
             MessageMetaRecord unique_ids _ _ (idsIssued s) _ now).
    + cbn. lia.
    + cbn. apply lookup_insert_eq.
    + apply Forall_fmap, Forall_true. done.
    + apply Forall_fmap, Forall_true. done.
    + cbn. rewrite <- (Qplus_0_r now) at 1. apply Qplus_lt_r. reflexivity.
  - done.
Qed.

(** A system notification is one message to the player with the
    title and severity of its type; its content is the custom message
    when one is given and not empty, otherwise the standard text of the
    type (for a welcome, the greeting with the name of the player); the
    content is never empty. *)
Theorem notification_content s player notificationType customMessage now :
  ∃ content title severity,
    sendSystemNotification s player notificationType customMessage now
    = sendMessageToPlayer s player content title severity now
    ∧ (title, severity)
      = match notificationType with
        | level_up => ("Level Up!", "success")
        | achievement => ("Achievement", "success")
        | warning => ("Warning", "warning")
        | error => ("Error", "error")
        | welcome => ("Welcome", "info")
        end
    ∧ content ≠ ""
    ∧ (∀ custom, customMessage = Some custom → custom ≠ "" →
         content = custom)
    ∧ (customMessage = None ∨ customMessage = Some "" →
       notificationType = welcome →
       content = "Welcome to the game, " +:+ Name player +:+ "!").
Proof.
  unfold MessageService.sendSystemNotification.
  assert (Hor : ∀ text, text ≠ "" →
            orElse customMessage text ≠ ""
            ∧ (∀ custom, customMessage = Some custom → custom ≠ "" →
                 orElse customMessage text = custom)
            ∧ (customMessage = None ∨ customMessage = Some "" →
               orElse customMessage text = text)).
  { intros text Ht. unfold orElse.
    destruct customMessage as [custom|].
    - destruct (decide (custom = "")) as [->|Hne].
      + split; [done|]. split; [by intros ? [= <-] | done].
      + split; [done|]. split; [by intros ? [= <-]|].
        intros [|[= ->]]; done.
    - split; [done|]. split; [done | done]. }
  destruct notificationType; do 3 eexists; (split; [reflexivity|]);
    (split; [reflexivity|]);
    match goal with
    | |- orElse _ ?text ≠ _ ∧ _ =>
        destruct (Hor text) as (H1 & H2 & H3); [done|]
    end;
    (split; [exact H1|]); (split; [exact H2|]);
    intros Hc Hw; try discriminate; by apply H3.
Qed.

End Proofs.

Lemma broadcast_reaches_connected_witness :
  NoDup (UserId <$> [Samples.alice; Samples.bob])
  ∧ ∃ q,
      getMessage
        (broadcastMessage Samples.generateUniqueId Samples.MessageMetaRecord
           empty [Samples.alice; Samples.bob] "hello" "" "info" 0).2
        "msg_0"
      = Some q
      ∧ recipientId q = None.
Proof.
  assert (Hnd : NoDup (UserId <$> [Samples.alice; Samples.bob])).
  { cbn. apply NoDup_cons. split; [|apply NoDup_singleton].
    intros [=]%list_elem_of_singleton. }
  split; [exact Hnd|].
  destruct (broadcast_reaches_connected Samples.generateUniqueId
              Samples.MessageMetaRecord empty [Samples.alice; Samples.bob]
              "hello" "" "info" 0 Hnd) as (q & H1 & H2 & _).
  exists q. split; [exact H1 | exact H2].
Defined.

Lemma send_to_each_witness :
  Inj (=) (=) Samples.generateUniqueId
  ∧ (sendMessageToPlayers Samples.generateUniqueId Samples.MessageMetaRecord
       empty [Samples.alice; Samples.bob] "hello" "" "info" 0).1
    = ["msg_0"; "msg_1"].
Proof.
  assert (Hinj : Inj (=) (=) Samples.generateUniqueId)
    by (intros a b; apply prefixed_pretty_inj).
  split; [exact Hinj|].
  exact (proj1 (send_to_each Samples.generateUniqueId
                  Samples.MessageMetaRecord Hinj empty
                  [Samples.alice; Samples.bob] "hello" "" "info" 0)).
Defined.

End MessageQueueProofs.

(** ** EventService: subscriptions and the history *)

Module EventBusProofs.
Import EventService EventSpec EventRunSpec MessageSpec.

Section Proofs.

Variable Data : Type.
Variable World : Type.
Variable behaviour : nat → Data → Env Data World → Completion * Env Data World.

Local Abbreviation Env := (Env Data World).
Local Abbreviation t := (EventService.t Data).
Local Abbreviation fire := (fire Data World behaviour).
Local Abbreviation fires := (fires Data World behaviour).
Local Abbreviation keepOut := (keepOut Data World behaviour).
Local Abbreviation on := (on Data).
Local Abbreviation off := (off Data).
Local Abbreviation clearHistory := (clearHistory Data).
Local Abbreviation getEventHistory := (getEventHistory Data).

Lemma recorded_history eventName d now (e : Env) :
  length (eventHistory (service e)) ≤ MAX_HISTORY →
  eventHistory (service (recorded Data World eventName d now e))
  = mostRecent MAX_HISTORY
      (eventHistory (service e)
       ++ [{| name := eventName; timestamp := now; data := d |}]).
Proof.
  intros Hlen. unfold recorded. cbn [service eventHistory].
  set (ev := {| name := eventName; timestamp := now; data := d |}).
  unfold mostRecent. rewrite length_app. simpl.
  destruct (decide _) as [Hlt|Hge].
  - replace (length (eventHistory (service e)) + 1 - MAX_HISTORY) with 1
      by lia.
    by destruct (eventHistory (service e) ++ [ev]).
  - replace (length (eventHistory (service e)) + 1 - MAX_HISTORY) with 0
      by lia.
    done.
Qed.

Lemma foldl_afterCall_service eventName d listeners (e : Env) :
  (∀ listener d e,
     listener ∈ listeners →
     service (behaviour (handle listener) d e).2 = service e) →
  service (foldl (afterCall Data World behaviour eventName d) e listeners)
  = service e.
Proof.
  revert e. induction listeners as [|listener listeners IH]; intros e Hout;
    [done|].
  simpl. rewrite IH.
  - unfold afterCall. specialize (Hout listener d e (list_elem_of_here _ _)).
    by destruct (behaviour (handle listener) d e) as [[|error] e'].
  - intros l d' e' Hin. apply Hout. by right.
Qed.

Lemma fire_history (s0 : t) fuel eventName d now (e : Env) :
  keepOut s0 → covers Data fuel s0 →
  eventListeners (service e) = eventListeners s0 →
  length (eventHistory (service e)) ≤ MAX_HISTORY →
  ∃ called e',
    fire fuel eventName d now e = Some (Ok called, e')
    ∧ eventListeners (service e') = eventListeners s0
    ∧ eventHistory (service e')
      = mostRecent MAX_HISTORY
          (eventHistory (service e)
           ++ [{| name := eventName; timestamp := now; data := d |}]).
Proof.
  intros Hout Hfuel Hl Hlen.
  destruct (eventListeners (service e) !! eventName) as [listeners|]
    eqn:Hname.
  - assert (Hs0 : eventListeners s0 !! eventName = Some listeners)
      by by rewrite <- Hl.
    assert (Hkeep : keepSubscriptions Data World behaviour eventName
                      listeners).
    { intros listener d' e1 Hin. by rewrite (Hout _ _ _ _ _ Hs0 Hin). }
    exists ((λ cb, (handle cb, d)) <$> listeners),
      (foldl (afterCall Data World behaviour eventName d)
         (recorded Data World eventName d now e) listeners).
    split.
    { unfold EventService.fire. cbn [service eventListeners].
      rewrite Hname. fold (recorded Data World eventName d now e).
      rewrite (EventServiceProofs.dispatch_complete Data World behaviour
                 eventName listeners); [by rewrite drop_0 | done | done |].
      specialize (Hfuel _ _ Hs0). lia. }
    rewrite foldl_afterCall_service
      by (intros listener d' e1 Hin; by eapply Hout).
    split; [done|]. by apply recorded_history.
  - exists [], (recorded Data World eventName d now e).
    split; [|split; [done | by apply recorded_history]].
    unfold EventService.fire. cbn [service eventListeners].
    by rewrite Hname.
Qed.

Lemma fires_history (s0 : t) fuel (fs : list (Firing Data)) (e : Env) :
  keepOut s0 → covers Data fuel s0 →
  eventListeners (service e) = eventListeners s0 →
  length (eventHistory (service e)) ≤ MAX_HISTORY →
  ∃ e',
    fires fuel fs e = Some (Ok tt, e')
    ∧ eventListeners (service e') = eventListeners s0
    ∧ eventHistory (service e')
      = mostRecent MAX_HISTORY (eventHistory (service e) ++ (eventOf <$> fs)).
Proof.
  intros Hout Hfuel. revert e.
  induction fs as [|f fs IH]; intros e Hl Hlen.
  - exists e. split; [done|]. split; [done|]. rewrite app_nil_r.
    symmetry. by apply MessageServiceProofs.mostRecent_short.
  - cbn [EventRunSpec.fires]. unfold bind.
    destruct (fire_history s0 fuel (firedName f) (firedData f) (firedAt f) e
                Hout Hfuel Hl Hlen) as (called & e1 & -> & Hl1 & Hh1).
    destruct (IH e1 Hl1) as (e' & -> & Hl' & Hh').
    { rewrite Hh1. apply MessageServiceProofs.length_mostRecent. }
    exists e'. split; [done|]. split; [done|].
    rewrite Hh', Hh1, MessageServiceProofs.mostRecent_app, <- app_assoc.
    done.
Qed.

(** X21: with listeners that never call back into the service (none of
    them calls [on], [off], [fire] or [clearHistory]), any sequence of
    [fire] calls from an empty history returns normally and leaves the
    listeners as they were and, in the history, the 1000 most recent
    events, oldest first: the event of each call while there are at most
    1000, the 1001st evicting the first.  [getEventHistory] with a name
    reports the events of that name among them, in order;
    [clearHistory] empties the history and keeps the listeners. *)
Theorem event_history_window fuel (e0 : Env) (fs : list (Firing Data)) :
  eventHistory (service e0) = [] →
  keepOut (service e0) →
  covers Data fuel (service e0) →
  ∃ e',
    fires fuel fs e0 = Some (Ok tt, e')
    ∧ eventListeners (service e') = eventListeners (service e0)
    ∧ eventHistory (service e') = mostRecent 1000 (eventOf <$> fs)
    ∧ length (eventHistory (service e')) = Nat.min 1000 (length fs)
    ∧ getEventHistory (service e') None = eventHistory (service e')
    ∧ (∀ eventName, eventName ≠ "" →
         getEventHistory (service e') (Some eventName)
         = filter (λ f, name f = eventName)
             (mostRecent 1000 (eventOf <$> fs)))
    ∧ eventHistory (clearHistory (service e')) = []
    ∧ eventListeners (clearHistory (service e'))
      = eventListeners (service e0).
Proof.
  intros Hempty Hout Hfuel.
  destruct (fires_history (service e0) fuel fs e0 Hout Hfuel eq_refl)
    as (e' & Hf & Hl & Hh).
  { rewrite Hempty. simpl. unfold MAX_HISTORY. lia. }
  rewrite Hempty in Hh. simpl in Hh.
  exists e'. split; [done|]. split; [done|]. split; [done|].
  split.
  { rewrite Hh. unfold mostRecent, MAX_HISTORY.
    rewrite length_drop, length_fmap. lia. }
  split; [done|]. split; [|done].
  intros eventName Hne. unfold EventService.getEventHistory.
  rewrite decide_False by done. by rewrite Hh.
Qed.

Lemma indexOf_middle (callback found : EventCallback) before after :
  handle found = handle callback →
  Forall (λ listener, handle listener ≠ handle callback) before →
  indexOf (before ++ found :: after) callback
  = Some (length before).
Proof.
  intros Hfound Hbefore. unfold indexOf.
  assert (list_find (λ l, handle l = handle callback)
            (before ++ found :: after)
          = Some (length before, found)) as ->; [|done].
  apply list_find_Some. split; [|split; [done|]].
  - by rewrite lookup_app_r, Nat.sub_diag by lia.
  - intros j y Hj Hlt. rewrite lookup_app_l in Hj by done.
    eapply (Forall_lookup_1 _ _ _ _ Hbefore Hj).
Qed.

(** X22: [off] removes from the listeners of the topic the first one that
    is the callback and leaves every other listener, every other topic
    and the history as they were; a callback that is not subscribed to
    the topic, or a topic without listeners, leaves the service
    unchanged. *)
Theorem off_removes_first (s : t) eventName (callback found : EventCallback)
    before after :
  eventListeners s !! eventName = Some (before ++ found :: after) →
  handle found = handle callback →
  Forall (λ listener, handle listener ≠ handle callback) before →
  eventListeners (off s eventName callback) !! eventName
  = Some (before ++ after)
  ∧ (∀ other, other ≠ eventName →
       eventListeners (off s eventName callback) !! other
       = eventListeners s !! other)
  ∧ eventHistory (off s eventName callback) = eventHistory s
  ∧ (∀ stranger : EventCallback,
       Forall (λ listener, handle listener ≠ handle stranger)
         (before ++ found :: after) →
       off s eventName stranger = s).
Proof.
  intros Hl Hfound Hbefore. unfold EventService.off. rewrite Hl.
  rewrite (indexOf_middle _ _ _ _ Hfound Hbefore). simpl.
  split; [|split; [|split]].
  - rewrite lookup_insert_eq. f_equal. apply delete_middle.
  - intros other Hne. by rewrite lookup_insert_ne.
  - done.
  - intros stranger Hs.
    assert (indexOf (before ++ found :: after) stranger = None)
      as ->; [|done].
    unfold indexOf.
    assert (list_find (λ l, handle l = handle stranger)
              (before ++ found :: after) = None) as ->; [|done].
    apply list_find_None. exact Hs.
Qed.

(** Subscribing a callback and unsubscribing it again gives back the
    listeners of every topic, when the callback was not already
    subscribed to the topic; if it was, the earlier subscription is the
    one removed, and the callback is still called last. *)
Theorem on_then_off (s : t) eventName (callback : EventCallback) other :
  (Forall (λ listener, handle listener ≠ handle callback)
     (default [] (eventListeners s !! eventName)) →
   default [] (eventListeners (off (on s eventName callback) eventName
                                 callback) !! other)
   = default [] (eventListeners s !! other))
  ∧ (∀ before after,
       eventListeners s !! eventName = Some (before ++ callback :: after) →
       Forall (λ listener, handle listener ≠ handle callback) before →
       eventListeners (off (on s eventName callback) eventName callback)
         !! eventName
       = Some (before ++ after ++ [callback])).
Proof.
  split.
  - intros Hfresh. unfold EventService.off, EventService.on.
    cbn [eventListeners]. rewrite lookup_insert_eq.
    rewrite (indexOf_middle callback callback _ [] eq_refl Hfresh).
    cbn [eventListeners]. rewrite insert_insert_eq.
    destruct (decide (other = eventName)) as [->|Hne].
    + rewrite lookup_insert_eq, delete_middle. simpl.
      by rewrite app_nil_r.
    + by rewrite lookup_insert_ne.
  - intros before after Hl Hbefore. unfold EventService.off, EventService.on.
    cbn [eventListeners]. rewrite Hl. simpl. rewrite lookup_insert_eq.
    rewrite <- app_assoc, <- app_comm_cons.
    rewrite (indexOf_middle callback callback _ _ eq_refl Hbefore).
    cbn [eventListeners].
    by rewrite lookup_insert_eq, delete_middle.
Qed.

End Proofs.

Lemma bus_listeners_keep_out :
  keepOut string nat Samples.behaviour Samples.bus
  ∧ covers string 3 Samples.bus.
Proof.
  assert (H : ∀ (eventName : string) listeners,
            eventListeners Samples.bus !! eventName = Some listeners →
            listeners = [Samples.listener 1; Samples.listener 2;
                         Samples.listener 3]).
  { intros eventName listeners. unfold Samples.bus, EventService.on.
    cbn [eventListeners EventService.empty].
    destruct (decide (eventName = "npcDefeated")) as [->|Hne].
    - rewrite !lookup_insert_eq. by intros [= <-].
    - rewrite !lookup_insert_ne by done. by rewrite lookup_empty. }
  split.
  - intros eventName listeners listener d e Hl Hin.
    apply H in Hl as ->.
    repeat (apply elem_of_cons in Hin as [->|Hin]); try reflexivity.
    by apply elem_of_nil in Hin.
  - intros eventName listeners Hl. apply H in Hl as ->. simpl. lia.
Qed.

Lemma event_history_window_witness :
  keepOut string nat Samples.behaviour (service Samples.quiet)
  ∧ ∃ e',
      fires string nat Samples.behaviour 3
        [{| firedName := "npcDefeated"; firedData := "npc_1";
            firedAt := 0 |};
         {| firedName := "playerLevelUp"; firedData := "alice";
            firedAt := 1 |}]
        Samples.quiet
      = Some (Ok tt, e')
      ∧ length (eventHistory (service e')) = 2.
Proof.
  split; [exact (proj1 bus_listeners_keep_out)|].
  destruct (event_history_window string nat Samples.behaviour 3
              Samples.quiet
              [{| firedName := "npcDefeated"; firedData := "npc_1";
                  firedAt := 0 |};
               {| firedName := "playerLevelUp"; firedData := "alice";
                  firedAt := 1 |}]
              eq_refl (proj1 bus_listeners_keep_out)
              (proj2 bus_listeners_keep_out))
    as (e' & H1 & _ & _ & H2 & _).
  exists e'. split; [exact H1 | exact H2].
Defined.

Lemma off_removes_first_witness :
  eventListeners
    (EventService.off _ Samples.bus "npcDefeated" (Samples.listener 2))
    !! "npcDefeated"
  = Some [Samples.listener 1; Samples.listener 3].
Proof.
  refine (proj1 (off_removes_first string Samples.bus "npcDefeated"
                   (Samples.listener 2) (Samples.listener 2)
                   [Samples.listener 1] [Samples.listener 3]
                   _ eq_refl _)).
  - vm_compute. reflexivity.
  - repeat constructor. simpl. discriminate.
Defined.

End EventBusProofs.

(** ** ValidationService *)

Module ValidationServiceProofs.
Import ValidationService ValidationSpec.

(** *** Chat messages *)

Lemma run_cons k (x : Ascii.ascii) (l : list Ascii.ascii) :
  (∃ pre c post, x :: l = pre ++ replicate (S k) c ++ post)
  ↔ (∃ post, l = replicate k x ++ post)
    ∨ (∃ pre c post, l = pre ++ replicate (S k) c ++ post).
Proof.
  split.
  - intros (pre & c & post & H). destruct pre as [|p pre].
    + simpl in H. injection H as -> ->. left. by exists post.
    + simpl in H. injection H as -> ->. right. by exists pre, c, post.
  - intros [[post ->] | (pre & c & post & ->)].
    + by exists [], x, post.
    + by exists (x :: pre), c, post.
Qed.

Lemma detectSpamFrom_spec message n c :
  1 ≤ n ≤ 5 →
  detectSpamFrom n (Some c) message = true
  ↔ (∃ post, String.list_ascii_of_string message = replicate (6 - n) c ++ post)
    ∨ hasRun 6 message.
Proof.
  unfold hasRun. revert n c.
  induction message as [|x rest IH]; intros n c Hn; simpl.
  - split; [done|]. intros [[post H] | (pre & c' & post & H)].
    + destruct (6 - n) eqn:Hk; [lia | done].
    + apply (f_equal length) in H. rewrite !length_app in H.
      simpl in H. lia.
  - destruct (decide (Some x = Some c)) as [[= ->] | Hne].
    + destruct (5 <? S n) eqn:H5.
      * apply Nat.ltb_lt in H5. split; [|done]. intros _. left.
        exists (String.list_ascii_of_string rest).
        by replace (6 - n) with 1 by lia.
      * apply Nat.ltb_ge in H5. rewrite IH by lia.
        replace (6 - n) with (S (6 - S n)) by lia. rewrite (run_cons 5).
        split.
        -- intros [[post H] | H]; [left | right; by right].
           exists post. simpl. by rewrite H.
        -- intros [[post H] | [[post H] | H]]; [| |by right].
           ++ left. exists post. simpl in H. by injection H.
           ++ left. exists (replicate n c ++ post).
              rewrite H, app_assoc, <- replicate_add. do 2 f_equal. lia.
    + rewrite IH by lia. rewrite (run_cons 5). split.
      * intros H. by right.
      * intros [[post H] | H]; [|done].
        destruct (6 - n) eqn:Hk; [lia|]. simpl in H. congruence.
Qed.

Lemma detectSpam_spec message : detectSpam message = true ↔ hasRun 6 message.
Proof.
  unfold detectSpam. destruct message as [|x rest]; simpl.
  - split; [done|]. intros (pre & c & post & H).
    apply (f_equal length) in H. rewrite !length_app in H. simpl in H. lia.
  - rewrite detectSpamFrom_spec by lia.
    unfold hasRun. simpl. by rewrite (run_cons 5).
Qed.

(** X23: [detectSpam] is true exactly for a message that holds six equal
    bytes in a row.  [validateChatMessage] accepts exactly the messages
    of 1 to 200 bytes without such a run, and hands an accepted message
    back unchanged as the filtered message; a rejected message comes with
    a reason and without a filtered message. *)
Theorem chat_message_accepted message :
  (detectSpam message = true ↔ hasRun 6 message)
  ∧ (valid (validateChatMessage message) = true
     ↔ 1 ≤ String.length message ≤ 200 ∧ ¬ hasRun 6 message)
  ∧ (valid (validateChatMessage message) = true →
     validateChatMessage message
     = {| valid := true; reason := None;
          filteredMessage := Some message |})
  ∧ (valid (validateChatMessage message) = false →
     is_Some (reason (validateChatMessage message))
     ∧ filteredMessage (validateChatMessage message) = None).
Proof.
  split; [apply detectSpam_spec|].
  pose proof (detectSpam_spec message) as Hspam.
  unfold validateChatMessage.
  destruct (String.length message =? 0) eqn:H0.
  { apply Nat.eqb_eq in H0. simpl. split; [|split]; try done.
    split; [done | lia]. }
  apply Nat.eqb_neq in H0.
  destruct (200 <? String.length message) eqn:H200.
  { apply Nat.ltb_lt in H200. simpl. split; [|split]; try done.
    split; [done | lia]. }
  apply Nat.ltb_ge in H200.
  destruct (detectSpam message) eqn:Hd.
  - simpl. split; [|split]; try done.
    split; [done|]. intros [_ Hno]. exfalso. by apply Hno, Hspam.
  - simpl. split; [|split]; try done.
    split; [|done]. intros _. split; [lia|].
    intros Hrun%Hspam. done.
Qed.

(** *** Currency *)





(** *** Player names *)

Lemma lowerAscii_idemp c : lowerAscii (lowerAscii c) = lowerAscii c.
Proof. destruct c as [[] [] [] [] [] [] [] []]; reflexivity. Qed.

Lemma lower_idemp name : lower (lower name) = lower name.
Proof.
  induction name as [|c rest IH]; [done|].
  simpl. by rewrite lowerAscii_idemp, IH.
Qed.

Lemma length_lower name : String.length (lower name) = String.length name.
Proof. induction name as [|c rest IH]; [done|]. simpl. by rewrite IH. Qed.

Lemma prefix_spec word s :
  String.prefix word s = true ↔ ∃ post, s = word +:+ post.
Proof.
  revert s. induction word as [|c word IH]; intros s.
  - split; [|by destruct s]. intros _. by exists s.
  - destruct s as [|d s]; simpl.
    + split; [done|]. by intros [post H].
    + destruct (Ascii.ascii_dec c d) as [->|Hne].
      * rewrite IH. split; intros [post H]; exists post.
        -- by rewrite H.
        -- by injection H.
      * split; [done|]. intros [post H]. injection H as -> _. done.
Qed.

Lemma find_spec s word :
  find s word = true ↔ ∃ pre post, s = pre +:+ word +:+ post.
Proof.
  induction s as [|c s IH].
  - cbn [find]. rewrite orb_false_r, prefix_spec. split.
    + intros [post H]. by exists "", post.
    + intros (pre & post & H). destruct pre; [by exists post | done].
  - cbn [find]. rewrite orb_true_iff, prefix_spec, IH. split.
    + intros [[post H] | (pre & post & H)].
      * by exists "", post.
      * exists (String c pre), post. simpl. by rewrite H.
    + intros (pre & post & H). destruct pre as [|d pre].
      * left. by exists post.
      * right. injection H as -> ->. by exists pre, post.
Qed.

(** X25: [validatePlayerName] accepts exactly the names of 3 to 20 bytes
    whose lower-case form holds none of the forbidden words; it gives the
    same answer for a name and for its lower-case form, so the check does
    not depend on the case of the letters. *)
Theorem name_check_ignores_case name :
  (valid (validatePlayerName name) = true
   ↔ 3 ≤ String.length name ≤ 20
     ∧ ∀ word pre post,
         word ∈ forbiddenWords → lower name ≠ pre +:+ word +:+ post)
  ∧ validatePlayerName (lower name) = validatePlayerName name.
Proof.
  split.
  - unfold validatePlayerName.
    destruct (String.length name <? 3) eqn:H3.
    { apply Nat.ltb_lt in H3. simpl. split; [done | lia]. }
    apply Nat.ltb_ge in H3.
    destruct (20 <? String.length name) eqn:H20.
    { apply Nat.ltb_lt in H20. simpl. split; [done | lia]. }
    apply Nat.ltb_ge in H20.
    destruct (existsb _ forbiddenWords) eqn:Hex.
    + apply existsb_exists in Hex as (word & Hin & Hf).
      apply find_spec in Hf as (pre & post & Hf). simpl.
      split; [done|]. intros [_ Hno]. exfalso.
      apply (Hno word pre post); [|done]. by apply list_elem_of_In.
    + simpl. split; [|done]. intros _. split; [lia|].
      intros word pre post Hin Heq.
      assert (existsb (λ word, find (lower name) word) forbiddenWords
              = true) as Ht; [|congruence].
      apply existsb_exists. exists word. split.
      * by apply list_elem_of_In.
      * apply find_spec. by exists pre, post.
  - unfold validatePlayerName. by rewrite length_lower, lower_idemp.
Qed.

Example shouting_admin_is_rejected :
  validatePlayerName "xXADMINXx"
  = reject "Name contains forbidden content"
  ∧ validateChatMessage "zzzzzz" = reject "Message appears to be spam"
  ∧ valid (validateChatMessage "zzzzz hello") = true.
Proof. vm_compute. repeat split. Qed.

End ValidationServiceProofs.

(** ** PlayerDataService: play time and currency *)

Module PlayerSessionProofs.
Import Roblox PlayerDataService.
Local Open Scope Q_scope.

Lemma Qeq_bool_false (a b : Q) : ¬ a == b → Qeq_bool a b = false.
Proof.
  intros H. apply not_true_iff_false. intros Hb. by apply Qeq_bool_iff in Hb.
Qed.

(** What a save leaves in memory for a player whose session started at
    [start]: the play time grows by the time since [start] and the
    session starts anew, whether the data store serves the write or
    not. *)
Lemma save_rolls_play_time s player now reply profile start :
  playerProfiles s !! UserId player = Some profile →
  sessionStartTimes s !! UserId player = Some start →
  ¬ start == 0 →
  ∃ profile',
    playerProfiles (savePlayerData s player now reply).2 !! UserId player
    = Some profile'
    ∧ totalPlayTime profile' = totalPlayTime profile + (now - start)
    ∧ sessionStartTimes (savePlayerData s player now reply).2
        !! UserId player = Some now
    ∧ (reply = Served →
       dataStore (savePlayerData s player now reply).2 !! profileKey player
       = Some profile').
Proof.
  intros Hp Hs Hne. unfold savePlayerData, updatePlayTime.
  rewrite Hp, Hs, (Qeq_bool_false _ _ Hne). cbn [playerProfiles].
  rewrite lookup_insert_eq. eexists. destruct reply as [|error]; cbn.
  - rewrite !lookup_insert_eq. done.
  - rewrite !lookup_insert_eq. done.
Qed.

(** X26: the play time of a session is counted once.  Every save adds
    the time since the start of the session to the total play time of the
    profile in memory and restarts the session at the time of the save,
    whether the data store serves the write or fails it.  So after a load
    at [t0] and saves at [t1] and [t2] the total is the loaded total plus
    [t1 - t0] plus [t2 - t1], added in this order: the second save counts
    from the first save, not again from the load; when it is served it
    writes that total.  A session that started when the clock read 0 is
    not counted at all. *)
Theorem play_time_accounting s player t0 t1 t2 reply1 reply2 :
  ∃ loaded,
    getPlayerProfile (loadPlayerData s player t0 Served).2 player
    = Some loaded
    ∧ (¬ t0 == 0 → ¬ t1 == 0 →
       ∃ final,
         getPlayerProfile
           (savePlayerData
              (savePlayerData (loadPlayerData s player t0 Served).2
                 player t1 reply1).2 player t2 reply2).2 player
         = Some final
         ∧ totalPlayTime final
           = totalPlayTime loaded + (t1 - t0) + (t2 - t1)
         ∧ (reply2 = Served →
            dataStore
              (savePlayerData
                 (savePlayerData (loadPlayerData s player t0 Served).2
                    player t1 reply1).2 player t2 reply2).2
              !! profileKey player
            = Some final))
    ∧ (t0 == 0 →
       ∃ saved,
         getPlayerProfile
           (savePlayerData (loadPlayerData s player t0 Served).2
              player t1 reply1).2 player
         = Some saved
         ∧ totalPlayTime saved = totalPlayTime loaded).
Proof.
  set (s0 := (loadPlayerData s player t0 Served).2).
  assert (∃ loaded,
            playerProfiles s0 !! UserId player = Some loaded
            ∧ sessionStartTimes s0 !! UserId player = Some t0)
    as (loaded & Hp0 & Hs0).
  { subst s0. unfold loadPlayerData. cbn. rewrite !lookup_insert_eq.
    by eexists. }
  exists loaded. split; [exact Hp0|]. split.
  - intros Ht0 Ht1.
    destruct (save_rolls_play_time s0 player t1 reply1 loaded t0 Hp0 Hs0 Ht0)
      as (p1 & Hp1 & Htot1 & Hs1 & _).
    destruct (save_rolls_play_time _ player t2 reply2 p1 t1 Hp1 Hs1 Ht1)
      as (p2 & Hp2 & Htot2 & _ & Hstore).
    exists p2. split; [exact Hp2|]. split; [|exact Hstore].
    by rewrite Htot2, Htot1.
  - intros Ht0. apply Qeq_bool_iff in Ht0.
    unfold getPlayerProfile, savePlayerData, updatePlayTime.
    rewrite Hp0, Hs0, Ht0, Hp0. exists loaded.
    by destruct reply1.
Qed.

(** X27: [modifyPlayerCurrency] and [hasEnoughCurrency] fail for a player
    without a profile.  With a profile the balance after a change is the
    old balance plus the amount when that is not negative, and 0
    otherwise, so it is never negative; a missing currency counts as a
    balance of 0; a debit that [hasEnoughCurrency] approves is applied in
    full; the other currencies are untouched. *)
Theorem currency_floor s player currencyType amount :
  match getPlayerProfile s player with
  | None =>
      modifyPlayerCurrency s player currencyType amount = (false, s)
      ∧ hasEnoughCurrency s player currencyType (- amount) = false
  | Some profile =>
      let balance := default 0 (currency profile !! currencyType) in
      (modifyPlayerCurrency s player currencyType amount).1 = true
      ∧ ∃ profile',
          getPlayerProfile
            (modifyPlayerCurrency s player currencyType amount).2 player
          = Some profile'
          ∧ (∃ balance',
               currency profile' !! currencyType = Some balance'
               ∧ 0 <= balance'
               ∧ (0 <= balance + amount → balance' = balance + amount)
               ∧ (balance + amount <= 0 → balance' == 0))
          ∧ (hasEnoughCurrency s player currencyType (- amount) = true
             ↔ 0 <= balance + amount)
          ∧ (∀ other, other ≠ currencyType →
               currency profile' !! other = currency profile !! other)
  end.
Proof.
  unfold getPlayerProfile, modifyPlayerCurrency, hasEnoughCurrency.
  destruct (playerProfiles s !! UserId player) as [profile|]; [|done].
  cbn. split; [done|]. rewrite lookup_insert_eq. eexists.
  split; [done|]. cbn. split; [|split].
  - rewrite lookup_insert_eq. eexists. split; [done|].
    set (x := default 0 (currency profile !! currencyType) + amount).
    unfold Num.math_max. destruct (Qle_bool 0 x) eqn:Hx.
    + apply Qle_bool_iff in Hx. split; [done|]. split; [done|].
      intros Hle. by apply Qle_antisym.
    + split; [apply Qle_refl|]. split; [|done].
      intros H0. apply Qle_bool_iff in H0. congruence.
  - unfold Num.Qgeb. rewrite Qle_bool_iff. split; intros H; lra.
  - intros other Hne. by rewrite lookup_insert_ne.
Qed.

Example bob_plays_fifteen_seconds :
  (totalPlayTime <$>
     getPlayerProfile
       (savePlayerData
          (savePlayerData Samples.firstLoad.2 Samples.bob 10
             (Failed "throttled")).2 Samples.bob 20 Served).2 Samples.bob)
  = Some (0 + (10 - 5) + (20 - 10)).
Proof. vm_compute. reflexivity. Qed.

End PlayerSessionProofs.

(** ** ConfigService *)

Module ConfigServiceProofs.
Import ConfigService ConfigSpec.

Lemma last_removelast {A} (l : list A) x :
  last l = Some x → l = removelast l ++ [x].
Proof.
  induction l as [|a l IH]; [done|].
  destruct l as [|b l]; [by intros [= ->]|].
  intros H. cbn [removelast]. rewrite <- app_comm_cons. f_equal. by apply IH.
Qed.

Lemma getIn_empty parts :
  parts ≠ [] → getIn (VTable ∅) parts = None.
Proof. destruct parts; [done|]. intros _. simpl. by rewrite lookup_empty. Qed.

Lemma getIn_setIn current parts lastPart value :
  getIn (VTable (setIn current parts lastPart value)) (parts ++ [lastPart])
  = value.
Proof.
  revert current. induction parts as [|part rest IH]; intros current; simpl.
  - destruct value as [v|].
    + by rewrite lookup_insert_eq.
    + by rewrite lookup_delete_eq.
  - rewrite lookup_insert_eq. apply IH.
Qed.

Lemma getIn_setIn_other common x y rest rest' current parts lastPart value :
  parts ++ [lastPart] = common ++ x :: rest →
  x ≠ y →
  getIn (VTable (setIn current parts lastPart value))
    (common ++ y :: rest')
  = getIn (VTable current) (common ++ y :: rest').
Proof.
  intros Hparts Hxy. revert current parts Hparts.
  induction common as [|c common IH]; intros current parts Hparts.
  - destruct parts as [|part parts]; simpl in Hparts.
    + injection Hparts as -> <-. simpl. destruct value as [v|].
      * by rewrite lookup_insert_ne.
      * by rewrite lookup_delete_ne.
    + injection Hparts as -> _. simpl. by rewrite lookup_insert_ne.
  - destruct parts as [|part parts]; simpl in Hparts.
    + injection Hparts as _ Hnil. by destruct common.
    + injection Hparts as -> Hparts. simpl. rewrite lookup_insert_eq.
      rewrite IH by done.
      destruct (current !! c) as [[| | | |fields]|]; try done;
        rewrite getIn_empty by (by destruct common); by destruct common.
Qed.

(** X28: [set] refuses exactly the paths whose last part is empty (the
    empty path, a path that ends in a dot) and then changes nothing;
    otherwise it returns true and [get] of the same path gives the value
    that was set, and nothing when the value was [undefined], whatever
    stood on the path before. *)
Theorem config_set_then_get s path value :
  ((set s path value).1 = false ↔ last (split path) = Some "")
  ∧ ((set s path value).1 = false → (set s path value).2 = s)
  ∧ ((set s path value).1 = true → get (set s path value).2 path = value).
Proof.
  unfold set, get, pop.
  assert (Hsome : is_Some (last (split path))).
  { unfold split. generalize EmptyString.
    induction path as [|c rest IH]; intros piece; cbn [splitFrom];
      [by eexists|].
    destruct (String.eqb (String c EmptyString) "."); [|apply IH].
    destruct (IH EmptyString) as [x Hx]. exists x.
    destruct (splitFrom EmptyString rest); [done | exact Hx]. }
  destruct Hsome as [lastPart Hlast]. rewrite Hlast.
  destruct (decide (lastPart = "")) as [->|Hne]; simpl.
  - split; [done|]. split; done.
  - split; [split; [done | by intros [= ?]]|]. split; [done|].
    intros _. rewrite (last_removelast _ _ Hlast) at 2.
    apply getIn_setIn.
Qed.

(** X29: in a configuration reached from the defaults by writes of
    plain values ([set] with a value that is no table, [setFeature],
    [resetToDefaults]), a [set] of a plain value leaves alone every path
    that parts from the path it writes: when the two paths agree on some
    parts and then differ in one, [get] of the other path gives the same
    before and after. *)
Theorem set_leaves_other_paths calls path other value common x y rest rest' :
  Forall plainCall calls →
  plain value →
  split path = common ++ x :: rest →
  split other = common ++ y :: rest' →
  x ≠ y →
  get (set (run initial calls) path value).2 other
  = get (run initial calls) other.
Proof.
  intros _ _ Hpath Hother Hxy. unfold set, get, pop.
  destruct (last (split path)) as [lastPart|] eqn:Hlast; [|done].
  destruct (decide (lastPart = "")) as [->|Hne]; [done|]. simpl.
  rewrite Hother. apply (getIn_setIn_other common x y rest); [|done].
  by rewrite <- (last_removelast _ _ Hlast).
Qed.

(** [setFeature] and [isFeatureEnabled] work on the [features] table
    and fail when there is none.  After [setFeature] the feature reads as
    set, the other features and the other sections are as before; a
    feature that is not in the table reads as false; after
    [resetToDefaults] both calls succeed. *)
Theorem feature_flags s feature enabled :
  match setFeature s feature enabled with
  | Some s' =>
      isFeatureEnabled s' feature = Some (VBoolean enabled)
      ∧ (∀ other, other ≠ feature →
           isFeatureEnabled s' other = isFeatureEnabled s other)
      ∧ (∀ section, section ≠ "features" →
           config s' !! section = config s !! section)
  | None => ∀ other, isFeatureEnabled s other = None
  end
  ∧ (∀ features,
       config s !! "features" = Some (VTable features) →
       features !! feature = None →
       isFeatureEnabled s feature = Some (VBoolean false))
  ∧ is_Some (setFeature (resetToDefaults s) feature enabled)
  ∧ is_Some (isFeatureEnabled (resetToDefaults s) feature).
Proof.
  split; [|split; [|split]].
  - unfold setFeature, isFeatureEnabled.
    destruct (config s !! "features") as [[| | | |features]|] eqn:Hf;
      try done.
    simpl. rewrite lookup_insert_eq, lookup_insert_eq.
    split; [by destruct enabled|]. split.
    + intros other Hne. by rewrite lookup_insert_ne.
    + intros section Hne. by rewrite lookup_insert_ne.
  - intros features Hf Hnone. unfold isFeatureEnabled.
    by rewrite Hf, Hnone.
  - unfold setFeature, resetToDefaults. simpl.
    by eexists.
  - unfold isFeatureEnabled, resetToDefaults. simpl. by eexists.
Qed.

(** The merge of one table into another, key by key. *)
Lemma deepMerge_lookup target updates key :
  deepMerge target (VTable updates) !! key
  = match updates !! key with
    | None => target !! key
    | Some (VTable fields) =>
        match target !! key with
        | Some (VTable inner) =>
            Some (VTable (deepMerge inner (VTable fields)))
        | _ => Some (VTable fields)
        end
    | Some value => Some value
    end.
Proof.
  cbn [deepMerge]. revert key.
  apply (map_fold_weak_ind
           (λ (r : gmap string Value) (m : gmap string Value),
              ∀ key,
                r !! key
                = match m !! key with
                  | None => target !! key
                  | Some (VTable fields) =>
                      match target !! key with
                      | Some (VTable inner) =>
                          Some (VTable (deepMerge inner (VTable fields)))
                      | _ => Some (VTable fields)
                      end
                  | Some value => Some value
                  end)).
  - intros key. by rewrite lookup_empty.
  - intros i x m r Hi Hr key.
    assert (Hri : r !! i = target !! i) by (by rewrite Hr, Hi).
    destruct (decide (i = key)) as [<-|Hne].
    + rewrite lookup_insert_eq.
      destruct x as [| | | |fields]; rewrite ?lookup_insert_eq; try done.
      rewrite Hri.
      destruct (target !! i) as [[| | | |inner]|];
        by rewrite lookup_insert_eq.
    + rewrite (lookup_insert_ne m) by done. rewrite <- Hr.
      destruct x as [| | | |fields]; rewrite ?lookup_insert_ne; try done.
      destruct (r !! i) as [[| | | |inner]|];
        by rewrite lookup_insert_ne.
Qed.

(** X30: in a configuration reached from the defaults by writes of
    plain values, [updateConfig] with updates given as nested data merges
    them into the configuration key by key: a key that the updates do not
    name keeps its value; a plain value in the updates replaces what was
    there; a table in the updates is merged into a table that was there,
    in the same way, and replaces anything else.  Empty updates change
    nothing. *)
Theorem updateConfig_merges calls updates key :
  Forall plainCall calls →
  getAll (updateConfig (run initial calls) updates) !! key
  = match updates !! key with
    | None => getAll (run initial calls) !! key
    | Some (VTable fields) =>
        match getAll (run initial calls) !! key with
        | Some (VTable inner) =>
            Some (VTable (getAll (updateConfig {| config := inner |}
                                    fields)))
        | _ => Some (VTable fields)
        end
    | Some value => Some value
    end
  ∧ updateConfig (run initial calls) ∅ = run initial calls.
Proof.
  intros _. split.
  - unfold getAll, updateConfig. cbn [config]. apply deepMerge_lookup.
  - unfold updateConfig. destruct (run initial calls) as [m]. f_equal.
Qed.

Lemma set_leaves_other_paths_witness :
  Forall plainCall
    [SetFeature "pvpEnabled" false;
     Set_ "gameplay.maxLevel" (Some (VNumber 120))]
  ∧ get (set (run initial
                [SetFeature "pvpEnabled" false;
                 Set_ "gameplay.maxLevel" (Some (VNumber 120))])
           "combat.criticalHitChance" (Some (VNumber (1 # 10)))).2
      "combat.baseDamageMultiplier"
    = Some (VNumber 1).
Proof.
  assert (H : Forall plainCall
                [SetFeature "pvpEnabled" false;
                 Set_ "gameplay.maxLevel" (Some (VNumber 120))])
    by (repeat constructor).
  split; [exact H|].
  rewrite (set_leaves_other_paths _ "combat.criticalHitChance"
             "combat.baseDamageMultiplier" (Some (VNumber (1 # 10)))
             ["combat"] "criticalHitChance" "baseDamageMultiplier" [] []
             H I eq_refl eq_refl ltac:(discriminate)).
  vm_compute. reflexivity.
Defined.

Lemma updateConfig_merges_witness :
  Forall plainCall [Set_ "features.pvpEnabled" (Some (VBoolean false))]
  ∧ getAll
      (updateConfig
         (run initial [Set_ "features.pvpEnabled" (Some (VBoolean false))])
         {[ "economy" := VNumber 7 ]}) !! "economy"
    = Some (VNumber 7).
Proof.
  assert (H : Forall plainCall
                [Set_ "features.pvpEnabled" (Some (VBoolean false))])
    by (repeat constructor).
  split; [exact H|].
  rewrite (proj1 (updateConfig_merges _ {[ "economy" := VNumber 7 ]}
                    "economy" H)).
  reflexivity.
Defined.

Example pvp_switched_off_by_update :
  let s := updateConfig initial
             {[ "features" := VTable {[ "pvpEnabled" := VBoolean false ]} ]}
  in
  get s "features.pvpEnabled" = Some (VBoolean false)
  ∧ get s "features.chatEnabled" = Some (VBoolean true)
  ∧ get s "combat.criticalHitMultiplier" = Some (VNumber 2)
  ∧ get s "combat.criticalHitMultiplier.x" = None
  ∧ set s "features." (Some (VBoolean true)) = (false, s).
Proof. vm_compute. repeat split. Qed.

End ConfigServiceProofs.
